(** * Shallow embedding of the LSM header, the JSON cursor formatter and the
      index key-pattern validator, with the properties checked against them.

    Sources embedded:
    - [src/include/lsm.h]            (module [Lsm])
    - [src/cursor/cur_json.c]        (module [Json])
    - [src/mongo/db/catalog/index_key_validate.cpp] (module [IndexKeyValidate])

    The chunk lifecycle and the merged cursor, whose functions are not among
    the sources, are modelled from the specification in module [LsmModel],
    and the worker pool in module [LsmWorkers].

    Further properties of the same sources are in the modules [JsonBuffer]
    (what the formatter stores), [IndexSpec] (validateIndexSpec),
    [KeyPatternOrder] and [LsmFlags].

    Fixed-width C integers are values of [Z]; where the C code can wrap, the
    reduction modulo the width is written out. *)

From Stdlib Require Import ZArith List Bool Lia String Ascii Permutation.
From Stdlib Require Import Floats.SpecFloat.
From Stdlib Require Vector.
Import ListNotations.
Local Open Scope Z_scope.

(** ** Single-bit masks

    Every flag constant of [lsm.h] is a one-bit mask.  The lemmas below are
    the bit-level facts the flag theorems share. *)

Module Bits.

Definition is_pow2 (x : Z) : Prop := exists k, 0 <= k /\ x = 2 ^ k.

(** The [F_SET], [F_CLR] and [F_ISSET] macros on a [uint32_t flags] field
    (they are defined outside [lsm.h]): the mask is or-ed in, its complement
    is and-ed in, the mask is and-ed in. *)
Definition F_SET (flags mask : Z) : Z := Z.lor flags mask.
Definition F_CLR (flags mask : Z) : Z := Z.land flags (Z.lxor mask 0xFFFFFFFF).
Definition F_ISSET (flags mask : Z) : Z := Z.land flags mask.

Definition uint32 (x : Z) : Prop := 0 <= x < 2 ^ 32.

(** A single bit of a [uint32_t] word, and its test. *)
Definition flag_bit (x : Z) : Prop := exists k, 0 <= k < 32 /\ x = 2 ^ k.

Definition flag_bitb (x : Z) : bool :=
  (0 <=? Z.log2 x) && (Z.log2 x <? 32) && (x =? 2 ^ Z.log2 x).

Lemma land_pow2_testbit (f k : Z) :
  0 <= k -> Z.land f (2 ^ k) = if Z.testbit f k then 2 ^ k else 0.
Proof.
  intros Hk. apply Z.bits_inj'. intros n Hn.
  rewrite Z.land_spec, Z.pow2_bits_eqb by assumption.
  destruct (Z.eqb_spec k n) as [->|Hne].
  - destruct (Z.testbit f n) eqn:E; simpl.
    + rewrite Z.pow2_bits_eqb, Z.eqb_refl by assumption. reflexivity.
    + rewrite Z.bits_0. reflexivity.
  - rewrite andb_false_r.
    destruct (Z.testbit f k).
    + rewrite Z.pow2_bits_eqb by assumption.
      symmetry. apply Z.eqb_neq. assumption.
    + rewrite Z.bits_0. reflexivity.
Qed.

Lemma set_other (f i j : Z) :
  0 <= i -> 0 <= j -> i <> j ->
  F_ISSET (F_SET f (2 ^ i)) (2 ^ j) = F_ISSET f (2 ^ j).
Proof.
  intros Hi Hj Hij. unfold F_ISSET, F_SET.
  rewrite !land_pow2_testbit by assumption.
  rewrite Z.lor_spec, Z.pow2_bits_eqb by assumption.
  replace (i =? j) with false by (symmetry; apply Z.eqb_neq; assumption).
  rewrite orb_false_r. reflexivity.
Qed.

Lemma set_same (f i : Z) :
  0 <= i -> F_ISSET (F_SET f (2 ^ i)) (2 ^ i) = 2 ^ i.
Proof.
  intros Hi. unfold F_ISSET, F_SET.
  rewrite land_pow2_testbit by assumption.
  rewrite Z.lor_spec, Z.pow2_bits_eqb, Z.eqb_refl, orb_true_r by assumption.
  reflexivity.
Qed.

Lemma clr_other (f i j : Z) :
  0 <= i < 32 -> 0 <= j < 32 -> i <> j ->
  F_ISSET (F_CLR f (2 ^ i)) (2 ^ j) = F_ISSET f (2 ^ j).
Proof.
  intros Hi Hj Hij. unfold F_ISSET, F_CLR.
  rewrite !land_pow2_testbit by lia.
  rewrite Z.land_spec, Z.lxor_spec, Z.pow2_bits_eqb by lia.
  replace (i =? j) with false by (symmetry; apply Z.eqb_neq; assumption).
  change 0xFFFFFFFF with (Z.ones 32).
  rewrite Z.ones_spec_low by lia. simpl. rewrite andb_true_r. reflexivity.
Qed.

Lemma clr_same (f i : Z) :
  0 <= i < 32 -> F_ISSET (F_CLR f (2 ^ i)) (2 ^ i) = 0.
Proof.
  intros Hi. unfold F_ISSET, F_CLR.
  rewrite land_pow2_testbit by lia.
  rewrite Z.land_spec, Z.lxor_spec, Z.pow2_bits_eqb, Z.eqb_refl by lia.
  change 0xFFFFFFFF with (Z.ones 32).
  rewrite Z.ones_spec_low by lia. simpl. rewrite andb_false_r. reflexivity.
Qed.

Lemma set_uint32 (f i : Z) :
  uint32 f -> 0 <= i < 32 -> uint32 (F_SET f (2 ^ i)).
Proof.
  unfold uint32, F_SET. intros [Hf0 Hf] Hi.
  assert (H0 : 0 <= 2 ^ i) by (apply Z.pow_nonneg; lia).
  split.
  - apply Z.lor_nonneg. lia.
  - destruct (Z.eq_dec (Z.lor f (2 ^ i)) 0) as [->|Hnz]; [reflexivity|].
    apply Z.log2_lt_pow2.
    + assert (0 <= Z.lor f (2 ^ i)) by (apply Z.lor_nonneg; lia). lia.
    + rewrite Z.log2_lor by lia.
      apply Z.max_lub_lt.
      * destruct (Z.eq_dec f 0) as [->|Hf1]; [simpl; lia|].
        apply Z.log2_lt_pow2; lia.
      * rewrite Z.log2_pow2 by lia. lia.
Qed.

Lemma flag_bitb_sound (x : Z) : flag_bitb x = true -> flag_bit x.
Proof.
  unfold flag_bitb. intros H.
  apply andb_prop in H as [H H3]. apply andb_prop in H as [H1 H2].
  exists (Z.log2 x). split; [lia|]. apply Z.eqb_eq. assumption.
Qed.

Lemma flag_bit_pow2 (x : Z) : flag_bit x -> is_pow2 x.
Proof. intros (k & Hk & ->). exists k. split; [lia | reflexivity]. Qed.

Lemma pow2_inj_neq (i j : Z) : 0 <= i -> 0 <= j -> 2 ^ i <> 2 ^ j -> i <> j.
Proof. intros _ _ H ->. apply H. reflexivity. Qed.

(** Setting or clearing one flag bit leaves every other flag bit as it was,
    and is seen by a test of the bit itself. *)
Lemma flag_bits_independent (f x y : Z) :
  flag_bit x -> flag_bit y -> x <> y ->
  F_ISSET (F_SET f x) y = F_ISSET f y /\ F_ISSET (F_CLR f x) y = F_ISSET f y.
Proof.
  intros (i & Hi & ->) (j & Hj & ->) Hne.
  assert (i <> j) by (apply pow2_inj_neq; lia || assumption).
  split; [apply set_other | apply clr_other]; lia || assumption.
Qed.

Lemma flag_bit_set_clr (f x : Z) :
  flag_bit x -> F_ISSET (F_SET f x) x = x /\ F_ISSET (F_CLR f x) x = 0.
Proof.
  intros (i & Hi & ->). split; [apply set_same | apply clr_same]; lia.
Qed.

Lemma flag_bit_set_uint32 (f x : Z) :
  uint32 f -> flag_bit x -> uint32 (F_SET f x).
Proof. intros Hf (i & Hi & ->). apply set_uint32; assumption. Qed.

End Bits.

(** ** [src/include/lsm.h]: constants and structures *)

Module Lsm.
Import Bits.

(** Types declared outside [lsm.h] appear here only as handles: a pointer is
    an optional handle ([None] is [NULL]), a spinlock is its held bit. *)
Definition handle := Z.
Definition ptr := option handle.
Definition WT_SPINLOCK := bool.
Definition pthread_t := Z.

(** *** WT_CURSOR_LSM *)

Definition WT_CLSM_ACTIVE := 0x01.
Definition WT_CLSM_ITERATE_NEXT := 0x02.
Definition WT_CLSM_ITERATE_PREV := 0x04.
Definition WT_CLSM_MERGE := 0x08.
Definition WT_CLSM_MINOR_MERGE := 0x10.
Definition WT_CLSM_MULTIPLE := 0x20.
Definition WT_CLSM_OPEN_READ := 0x40.
Definition WT_CLSM_OPEN_SNAPSHOT := 0x80.

(** The flag constants defined inside [struct __wt_cursor_lsm], in source
    order. *)
Definition clsm_flag_bits : list Z :=
  [WT_CLSM_ACTIVE; WT_CLSM_ITERATE_NEXT; WT_CLSM_ITERATE_PREV; WT_CLSM_MERGE;
   WT_CLSM_MINOR_MERGE; WT_CLSM_MULTIPLE; WT_CLSM_OPEN_READ;
   WT_CLSM_OPEN_SNAPSHOT].

(** The flag bits as the cursor interface of the specification lists them:
    ITERATE_NEXT, ITERATE_PREV, MERGE, MINOR_MERGE, MULTIPLE, OPEN_READ,
    OPEN_SNAPSHOT, ACTIVE. *)
Definition interface_flag_bits : list Z :=
  [WT_CLSM_ITERATE_NEXT; WT_CLSM_ITERATE_PREV; WT_CLSM_MERGE;
   WT_CLSM_MINOR_MERGE; WT_CLSM_MULTIPLE; WT_CLSM_OPEN_READ;
   WT_CLSM_OPEN_SNAPSHOT; WT_CLSM_ACTIVE].

Record __wt_cursor_lsm := {
  clsm_iface : ptr;
  clsm_lsm_tree : ptr;
  clsm_dsk_gen : Z;
  clsm_nchunks : Z;
  clsm_nupdates : Z;
  clsm_blooms : list ptr;
  clsm_bloom_alloc : Z;
  clsm_cursors : list ptr;
  clsm_cursor_alloc : Z;
  clsm_current : ptr;
  clsm_primary_chunk : ptr;
  clsm_switch_txn : list Z;
  clsm_txnid_alloc : Z;
  clsm_update_count : Z;
  clsm_flags : Z
}.

(** *** WT_LSM_CHUNK *)

Definition WT_LSM_CHUNK_BLOOM := 0x01.
Definition WT_LSM_CHUNK_MERGING := 0x02.
Definition WT_LSM_CHUNK_ONDISK := 0x04.
Definition WT_LSM_CHUNK_STABLE := 0x08.

(** The flag constants defined inside [struct __wt_lsm_chunk]. *)
Definition chunk_flag_bits : list Z :=
  [WT_LSM_CHUNK_BLOOM; WT_LSM_CHUNK_MERGING; WT_LSM_CHUNK_ONDISK;
   WT_LSM_CHUNK_STABLE].

Record __wt_lsm_chunk := {
  uri : string;
  bloom_uri : option string;
  create_ts : Z * Z;
  count : Z;
  size : Z;
  switch_txn : Z;
  id : Z;
  generation : Z;
  refcnt : Z;
  bloom_busy : Z;
  empty : Z;
  evicted : Z;
  flags : Z
}.

(** A chunk flags word built from the four statuses. *)
Definition chunk_flags_of (bloom merging ondisk stable : bool) : Z :=
  let f0 := 0 in
  let f1 := if bloom then F_SET f0 WT_LSM_CHUNK_BLOOM else f0 in
  let f2 := if merging then F_SET f1 WT_LSM_CHUNK_MERGING else f1 in
  let f3 := if ondisk then F_SET f2 WT_LSM_CHUNK_ONDISK else f2 in
  if stable then F_SET f3 WT_LSM_CHUNK_STABLE else f3.

(** *** Work units *)

Definition WT_LSM_WORK_BLOOM := 0x01.
Definition WT_LSM_WORK_DROP := 0x02.
Definition WT_LSM_WORK_FLUSH := 0x04.
Definition WT_LSM_WORK_MERGE := 0x08.
Definition WT_LSM_WORK_SWITCH := 0x10.
Definition WT_LSM_WORK_FORCE := 0x10000.
Definition WT_LSM_WORK_MASK := 0xffff.

(** The five work types, in the order the work-unit description names them:
    switch, flush, bloom, merge, drop. *)
Definition work_types : list Z :=
  [WT_LSM_WORK_SWITCH; WT_LSM_WORK_FLUSH; WT_LSM_WORK_BLOOM;
   WT_LSM_WORK_MERGE; WT_LSM_WORK_DROP].

Record __wt_lsm_work_unit := {
  wu_flags : Z;
  wu_lsm_tree : ptr
}.

(** The type of operation of a work unit: [flags & WT_LSM_WORK_MASK]. *)
Definition work_type (u : __wt_lsm_work_unit) : Z :=
  Z.land (wu_flags u) WT_LSM_WORK_MASK.

(** A work unit of type [t], with the FORCE modifier when [force]. *)
Definition mk_work_unit (t : Z) (force : bool) (tree : ptr) : __wt_lsm_work_unit :=
  {| wu_flags := if force then Z.lor t WT_LSM_WORK_FORCE else t;
     wu_lsm_tree := tree |}.

(** *** WT_LSM_MANAGER *)

Record __wt_lsm_manager := {
  switchqh : list __wt_lsm_work_unit;
  appqh : list __wt_lsm_work_unit;
  managerqh : list __wt_lsm_work_unit;
  switch_lock : WT_SPINLOCK;
  app_lock : WT_SPINLOCK;
  manager_lock : WT_SPINLOCK;
  work_cond : ptr;
  lsm_workers : Z;
  lsm_workers_max : Z;
  lsm_worker_cookies : ptr
}.

(** The manager's queue heads, each with the spinlock the header declares for
    it ("Lock for switch queue", "Lock for application queue", "Lock for
    manager queue"). *)
Definition queue := list __wt_lsm_work_unit.

Definition manager_queues (m : __wt_lsm_manager) : list (queue * WT_SPINLOCK) :=
  [(switchqh m, switch_lock m); (appqh m, app_lock m);
   (managerqh m, manager_lock m)].

(** The remaining members of the manager: the condition variable first, then
    the worker bookkeeping. *)
Definition manager_rest (m : __wt_lsm_manager) : ptr * (Z * Z * ptr) :=
  (work_cond m, (lsm_workers m, lsm_workers_max m, lsm_worker_cookies m)).

Definition manager_of (qs : list (queue * WT_SPINLOCK)) (r : ptr * (Z * Z * ptr))
  : option __wt_lsm_manager :=
  match qs, r with
  | [(sq, sl); (aq, al); (mq, ml)], (c, (n, nmax, cookies)) =>
      Some {| switchqh := sq; appqh := aq; managerqh := mq;
              switch_lock := sl; app_lock := al; manager_lock := ml;
              work_cond := c; lsm_workers := n; lsm_workers_max := nmax;
              lsm_worker_cookies := cookies |}
  | _, _ => None
  end.

(** *** WT_LSM_TREE *)

Definition WT_LSM_BLOOM_MERGED := 0x00000001.
Definition WT_LSM_BLOOM_OFF := 0x00000002.
Definition WT_LSM_BLOOM_OLDEST := 0x00000004.

Definition WT_LSM_MAX_WORKERS : nat := 10.

Definition WT_LSM_TREE_ACTIVE := 0x01.
Definition WT_LSM_TREE_COMPACTING := 0x02.
Definition WT_LSM_TREE_NEED_SWITCH := 0x04.
Definition WT_LSM_TREE_OPEN := 0x08.
Definition WT_LSM_TREE_THROTTLE := 0x10.
Definition WT_LSM_TREE_EXCLUSIVE := 0x01.

(** A C array [T a[n]] is a vector of exactly [n] entries. *)
Record __wt_lsm_tree := {
  name : string;
  key_format : string;
  value_format : string;
  tree_refcnt : Z;
  queue_ref : Z;
  tree_dsk_gen : Z;
  ckpt_throttle : Z;
  merge_throttle : Z;
  chunk_fill_ms : Z;
  merge_progressing : Z;
  bloom_bit_count : Z;
  bloom_hash_count : Z;
  chunk_size : Z;
  chunk_max : Z;
  merge_min : Z;
  merge_max : Z;
  merge_threads : Z;
  merge_idle : Z;
  bloom : Z;
  worker_sessions : Vector.t ptr WT_LSM_MAX_WORKERS;
  worker_tids : Vector.t pthread_t WT_LSM_MAX_WORKERS;
  ckpt_session : ptr;
  ckpt_tid : pthread_t;
  chunk : list __wt_lsm_chunk;
  chunk_alloc : Z;
  nchunks : Z;
  last : Z;
  modified : Z;
  old_chunks : list __wt_lsm_chunk;
  old_alloc : Z;
  nold_chunks : Z;
  freeing_old_chunks : Z;
  merge_aggressiveness : Z;
  tree_flags : Z;
  flags_atomic : Z
}.

(** The workers a tree state records: the non-NULL slots of
    [worker_sessions]. *)
Definition is_set (p : ptr) : bool :=
  match p with Some _ => true | None => false end.

Definition recorded_workers (t : __wt_lsm_tree) : nat :=
  List.length (List.filter is_set (Vector.to_list (worker_sessions t))).

(** *** Properties of the header *)

Local Ltac flag_bits :=
  repeat (apply Forall_cons; [apply flag_bitb_sound; reflexivity|]);
  apply Forall_nil.

Local Ltac no_dup :=
  repeat (apply NoDup_cons; [simpl; intros H; repeat destruct H as [H|H];
                             try discriminate H; try contradiction|]);
  apply NoDup_nil.

Lemma clsm_flag_bits_single : Forall flag_bit clsm_flag_bits.
Proof. flag_bits. Qed.

Lemma chunk_flag_bits_single : Forall flag_bit chunk_flag_bits.
Proof. flag_bits. Qed.

Lemma work_types_single : Forall flag_bit work_types.
Proof. flag_bits. Qed.

Lemma in_flag_bit (bits : list Z) (x : Z) :
  Forall flag_bit bits -> In x bits -> flag_bit x.
Proof. intros H Hx. rewrite Forall_forall in H. apply H. assumption. Qed.

(** C6: SWITCH, FLUSH, BLOOM, MERGE and DROP are pairwise-distinct single
    bits inside WT_LSM_WORK_MASK, FORCE is a single bit outside it, and
    masking a work unit's flags with WT_LSM_WORK_MASK gives back its work
    type whether or not FORCE is set. *)
Theorem work_mask_recovers_type :
  List.length work_types = 5%nat /\
  NoDup work_types /\
  Forall flag_bit work_types /\
  Forall (fun t => Z.land t WT_LSM_WORK_MASK = t) work_types /\
  flag_bit WT_LSM_WORK_FORCE /\
  Z.land WT_LSM_WORK_FORCE WT_LSM_WORK_MASK = 0 /\
  Forall (fun t => forall force tree,
            work_type (mk_work_unit t force tree) = t) work_types /\
  (forall u : __wt_lsm_work_unit,
      work_type {| wu_flags := Z.lor (wu_flags u) WT_LSM_WORK_FORCE;
                   wu_lsm_tree := wu_lsm_tree u |} = work_type u).
Proof.
  split; [reflexivity|].
  split; [unfold work_types; no_dup|].
  split; [apply work_types_single|].
  split; [repeat (apply Forall_cons; [reflexivity|]); apply Forall_nil|].
  split; [apply flag_bitb_sound; reflexivity|].
  split; [reflexivity|].
  split.
  - repeat (apply Forall_cons; [intros [] tree; reflexivity|]); apply Forall_nil.
  - intros u. unfold work_type. simpl.
    rewrite Z.land_lor_distr_l.
    change (Z.land WT_LSM_WORK_FORCE WT_LSM_WORK_MASK) with 0.
    apply Z.lor_0_r.
Qed.

(** C7: the chunk flags word carries exactly the four status bits BLOOM,
    MERGING, ONDISK and STABLE; they are pairwise-distinct powers of two, every
    combination of the four is represented by a flags word from which each
    status reads back, and setting or clearing one status never changes the
    reading of another. *)
Theorem chunk_status_bits_independent :
  chunk_flag_bits = [0x01; 0x02; 0x04; 0x08] /\
  NoDup chunk_flag_bits /\
  Forall is_pow2 chunk_flag_bits /\
  (forall b m o s : bool,
      let f := chunk_flags_of b m o s in
      uint32 f /\
      negb (F_ISSET f WT_LSM_CHUNK_BLOOM =? 0) = b /\
      negb (F_ISSET f WT_LSM_CHUNK_MERGING =? 0) = m /\
      negb (F_ISSET f WT_LSM_CHUNK_ONDISK =? 0) = o /\
      negb (F_ISSET f WT_LSM_CHUNK_STABLE =? 0) = s) /\
  (forall f x y, In x chunk_flag_bits -> In y chunk_flag_bits -> x <> y ->
      F_ISSET (F_SET f x) y = F_ISSET f y /\
      F_ISSET (F_CLR f x) y = F_ISSET f y) /\
  (forall f x, In x chunk_flag_bits ->
      F_ISSET (F_SET f x) x = x /\ F_ISSET (F_CLR f x) x = 0).
Proof.
  split; [reflexivity|].
  split; [unfold chunk_flag_bits; no_dup|].
  split.
  { eapply Forall_impl; [|apply chunk_flag_bits_single].
    intros a. apply flag_bit_pow2. }
  split.
  { intros [] [] [] []; cbv zeta; unfold uint32;
      repeat split; try reflexivity; vm_compute; discriminate. }
  split.
  - intros f x y Hx Hy Hne.
    apply flag_bits_independent; trivial;
      eapply in_flag_bit; eauto using chunk_flag_bits_single.
  - intros f x Hx. apply flag_bit_set_clr.
    eapply in_flag_bit; eauto using chunk_flag_bits_single.
Qed.

(** C8: the LSM cursor flag bits are the eight the cursor interface names;
    they are pairwise-distinct powers of two below 2^32, so each can be set,
    cleared and tested in the 32-bit flags field without touching the
    others. *)
Theorem clsm_flags_independent :
  List.length clsm_flag_bits = 8%nat /\
  (forall x, In x clsm_flag_bits <-> In x interface_flag_bits) /\
  NoDup clsm_flag_bits /\
  Forall flag_bit clsm_flag_bits /\
  (forall f x y, In x clsm_flag_bits -> In y clsm_flag_bits -> x <> y ->
      F_ISSET (F_SET f x) y = F_ISSET f y /\
      F_ISSET (F_CLR f x) y = F_ISSET f y) /\
  (forall f x, In x clsm_flag_bits ->
      F_ISSET (F_SET f x) x = x /\ F_ISSET (F_CLR f x) x = 0) /\
  (forall f x, uint32 f -> In x clsm_flag_bits -> uint32 (F_SET f x)).
Proof.
  split; [reflexivity|].
  split.
  { intros x. unfold clsm_flag_bits, interface_flag_bits. simpl. tauto. }
  split; [unfold clsm_flag_bits; no_dup|].
  split; [apply clsm_flag_bits_single|].
  split; [|split].
  - intros f x y Hx Hy Hne.
    apply flag_bits_independent; trivial;
      eapply in_flag_bit; eauto using clsm_flag_bits_single.
  - intros f x Hx. apply flag_bit_set_clr.
    eapply in_flag_bit; eauto using clsm_flag_bits_single.
  - intros f x Hf Hx. apply flag_bit_set_uint32; trivial.
    eapply in_flag_bit; eauto using clsm_flag_bits_single.
Qed.

(** C10: the manager state is exactly three work queues (switch, application,
    manager), each with a spinlock of its own, a single condition variable,
    and the worker bookkeeping: a manager is determined by, and can be built
    from, any three (queue, lock) pairs and the rest, and each lock changes
    without the other two, the queues or the condition variable changing. *)
Theorem manager_three_queues_one_condvar :
  (forall m, List.length (manager_queues m) = 3%nat) /\
  (forall m, manager_of (manager_queues m) (manager_rest m) = Some m) /\
  (forall qs r, List.length qs = 3%nat ->
      exists m, manager_of qs r = Some m /\
                manager_queues m = qs /\ manager_rest m = r) /\
  (forall qs r, List.length qs <> 3%nat -> manager_of qs r = None) /\
  (forall m1 m2, manager_queues m1 = manager_queues m2 ->
      manager_rest m1 = manager_rest m2 -> m1 = m2) /\
  (forall m, fst (manager_rest m) = work_cond m).
Proof.
  split; [reflexivity|].
  split; [intros []; reflexivity|].
  split.
  { intros qs [c [[n nmax] cookies]] Hlen.
    destruct qs as [|[sq sl] [|[aq al] [|[mq ml] [|]]]]; try discriminate Hlen.
    eexists. split; [reflexivity|]. split; reflexivity. }
  split.
  { intros qs [c [[n nmax] cookies]] Hlen.
    destruct qs as [|[sq sl] [|[aq al] [|[mq ml] [|]]]]; try reflexivity.
    exfalso. apply Hlen. reflexivity. }
  split; [|reflexivity].
  intros [] [] Hq Hr. unfold manager_queues, manager_rest in *. simpl in *.
  congruence.
Qed.

End Lsm.

(** ** [src/cursor/cur_json.c] *)

Module Json.

(** [size_t] is 64 bits wide; arithmetic on it wraps. *)
Definition SIZE_MAX : Z := 2 ^ 64 - 1.
Definition size_t (x : Z) : Z := x mod 2 ^ 64.

(** A [char] is carried as its integer value; [(u_char)ch] reduces it modulo
    256. *)
Definition u_char (ch : Z) : Z := ch mod 256.

(** Character constants of the source. *)
Definition ch_NUL : Z := 0.
Definition ch_tab : Z := 9.        (* '\t' *)
Definition ch_nl : Z := 10.        (* '\n' *)
Definition ch_ff : Z := 12.        (* '\f' *)
Definition ch_cr : Z := 13.        (* '\r' *)
Definition ch_space : Z := 32.
Definition ch_dquote : Z := 34.    (* the double quote *)
Definition ch_comma : Z := 44.
Definition ch_minus : Z := 45.
Definition ch_0 : Z := 48.
Definition ch_colon : Z := 58.
Definition ch_A : Z := 65.
Definition ch_backslash : Z := 92.
Definition ch_f : Z := 102.
Definition ch_n : Z := 110.
Definition ch_r : Z := 114.
Definition ch_t : Z := 116.
Definition ch_u : Z := 117.

(** [isprint] of the C library, in the "C" locale: the characters from the
    space to the tilde. *)
Definition isprint (c : Z) : bool := (0x20 <=? c) && (c <=? 0x7e).

(** The effect of a function on the caller's buffer is the list of its
    stores, in program order: [(a, v)] is [*a = v]. *)
Definition stores := list (Z * Z).

Definition hex_digit (h : Z) : Z :=
  if 10 <=? h then ch_A + (h - 10) else ch_0 + h.

(** [__wt_json_unpack_char]: unpack a single character into JSON escaped
    format; returns the stores into [buf] and the size. *)
Definition __wt_json_unpack_char (ch buf bufsz force_unicode : Z) : stores * Z :=
  let unicode :=
    if 6 <=? bufsz then
      ([(buf, ch_backslash); (buf + 1, ch_u); (buf + 2, ch_0); (buf + 3, ch_0);
        (buf + 4, hex_digit (Z.land (Z.shiftr (u_char ch) 4) 0xF));
        (buf + 5, hex_digit (Z.land (u_char ch) 0xF))], 6)
    else ([], 6) in
  if force_unicode =? 0 then
    if isprint ch && negb (ch =? ch_backslash) && negb (ch =? ch_dquote) then
      (if 1 <=? bufsz then [(buf, ch)] else [], 1)
    else
      let abbrev :=
        if (ch =? ch_backslash) || (ch =? ch_dquote) then ch
        else if ch =? ch_ff then ch_f
        else if ch =? ch_nl then ch_n
        else if ch =? ch_cr then ch_r
        else if ch =? ch_tab then ch_t
        else ch_NUL in
      if negb (abbrev =? ch_NUL) then
        (if 2 <=? bufsz then [(buf, ch_backslash); (buf + 1, abbrev)] else [], 2)
      else unicode
  else unicode.

(** The addresses [buf, buf + 1, ..., buf + n - 1]. *)
Definition addresses (buf n : Z) : list Z :=
  List.map (fun i => buf + Z.of_nat i) (List.seq 0 (Z.to_nat n)).

(** The characters the source gives a two-character escape. *)
Definition abbreviated : list Z :=
  [ch_backslash; ch_dquote; ch_ff; ch_nl; ch_cr; ch_tab].

(** *** Formatted output *)

Definition chr (c : ascii) : Z := Z.of_N (N_of_ascii c).

(** The characters of a C string: those before the first NUL. *)
Fixpoint c_str (l : list Z) : list Z :=
  match l with
  | [] => []
  | c :: rest => if c =? ch_NUL then [] else c :: c_str rest
  end.

(** [snprintf(buf, bufsz, ...)] producing [text]: at most [bufsz - 1]
    characters and a terminating NUL are stored when [bufsz] is not zero; the
    length of the whole text is returned. *)
Definition snprintf (buf bufsz : Z) (text : list Z) : stores * Z :=
  let len := Z.of_nat (List.length text) in
  let w :=
    if bufsz <=? 0 then []
    else
      let k := Z.min len (bufsz - 1) in
      List.combine (addresses buf k) (List.firstn (Z.to_nat k) text)
        ++ [(buf + k, ch_NUL)] in
  (w, len).

(** The value of 64 bits read as an [int64_t]. *)
Definition to_int64 (x : Z) : Z :=
  let y := x mod 2 ^ 64 in if y <? 2 ^ 63 then y else y - 2 ^ 64.

Fixpoint dec_digits (fuel : nat) (n : Z) (acc : list Z) : list Z :=
  match fuel with
  | O => acc
  | S f =>
      let acc' := (ch_0 + n mod 10) :: acc in
      if n <? 10 then acc' else dec_digits f (n / 10) acc'
  end.

(** The text of ["%" PRId64] for a 64-bit argument. *)
Definition fmt_PRId64 (x : Z) : list Z :=
  let v := to_int64 x in
  if v <? 0 then ch_minus :: dec_digits 20 (- v) [] else dec_digits 20 v [].

(** *** Pack values and names *)

Record WT_CONFIG_ITEM := {
  str : list Z;
  len : Z
}.

(** The members of the union [u] are separate fields; [u_s] and [u_item] are
    the characters found at the pointers [u.s] and [u.item.data], the latter
    [u.item.size] of them. *)
Record WT_PACK_VALUE := {
  u_s : list Z;
  u_item : list Z;
  u_i : Z;
  u_u : Z;
  pv_type : Z;
  havesize : bool;
  pv_size : Z
}.

(** The text of the name prefix: a double quote, the name printed with
    [%.*s] for the precision [(int)name->len] and the string [name->str], a
    double quote, a space, a colon and a space.  A negative precision is taken
    as if it were omitted. *)
Definition to_int (x : Z) : Z :=
  let y := x mod 2 ^ 32 in if y <? 2 ^ 31 then y else y - 2 ^ 32.

Definition fmt_name (name : WT_CONFIG_ITEM) : list Z :=
  let prec := to_int (len name) in
  let shown :=
    if prec <? 0 then c_str (str name)
    else c_str (List.firstn (Z.to_nat prec) (str name)) in
  ch_dquote :: shown ++ [ch_dquote; ch_space; ch_colon; ch_space].

Definition is_in (c : Z) (l : list Z) : bool := List.existsb (Z.eqb c) l.

(** The loop
    [n = __wt_json_unpack_char(c, buf, bufsz, f);
     if (n > bufsz) bufsz = 0; else { bufsz -= n; buf += n; } s += n;]
    over the characters [c] of [chars]. *)
Fixpoint put_chars (force_unicode : Z) (chars : list Z)
    (w : stores) (buf bufsz s : Z) : stores * Z * Z * Z :=
  match chars with
  | [] => (w, buf, bufsz, s)
  | ch :: rest =>
      let '(w1, n) := __wt_json_unpack_char ch buf bufsz force_unicode in
      if bufsz <? n then
        put_chars force_unicode rest (w ++ w1) buf 0 (size_t (s + n))
      else
        put_chars force_unicode rest (w ++ w1) (buf + n) (bufsz - n)
          (size_t (s + n))
  end.

(** [if (bufsz > 0) { *buf++ = QUOTE; bufsz--; }], QUOTE being the double
    quote character. *)
Definition put_quote (w : stores) (buf bufsz : Z) : stores * Z * Z :=
  if 0 <? bufsz then (w ++ [(buf, ch_dquote)], buf + 1, bufsz - 1)
  else (w, buf, bufsz).

(** The quoted, escaped string of the 's'/'S' and 'u'/'U' cases. *)
Definition put_quoted (force_unicode : Z) (chars : list Z)
    (w : stores) (buf bufsz s : Z) : stores * Z :=
  let s := size_t (s + 2) in
  let '(w, buf, bufsz) := put_quote w buf bufsz in
  let '(w, buf, bufsz, s) := put_chars force_unicode chars w buf bufsz s in
  let '(w, _, _) := put_quote w buf bufsz in
  (w, s).

(** [__json_unpack_put]: the stores into [buf] and the size of one field as
    formatted for JSON.  The report through [__wt_err] on an unknown type is
    not part of the model. *)
Definition __json_unpack_put (pv : WT_PACK_VALUE) (buf bufsz : Z)
    (name : WT_CONFIG_ITEM) : stores * Z :=
  let '(w, s) := snprintf buf bufsz (fmt_name name) in
  let '(buf, bufsz) := if s <=? bufsz then (buf + s, bufsz - s) else (buf, 0) in
  let t := pv_type pv in
  if t =? chr "x" then (w, 0)
  else if is_in t [chr "s"; chr "S"] then
    let chars :=
      if (t =? chr "s") || havesize pv
      then List.firstn (Z.to_nat (pv_size pv)) (u_s pv)
      else c_str (u_s pv) in
    put_quoted 0 chars w buf bufsz s
  else if is_in t [chr "U"; chr "u"] then
    put_quoted 1 (u_item pv) w buf bufsz s
  else if is_in t [chr "b"; chr "h"; chr "i"; chr "l"; chr "q"] then
    let '(w1, n) := snprintf buf bufsz (fmt_PRId64 (u_i pv)) in
    (w ++ w1, size_t (s + n))
  else if is_in t [chr "B"; chr "t"; chr "H"; chr "I"; chr "L"; chr "Q";
                   chr "r"; chr "R"] then
    let '(w1, n) := snprintf buf bufsz (fmt_PRId64 (u_u pv)) in
    (w ++ w1, size_t (s + n))
  else (w, SIZE_MAX).

(** *** Assertions and accesses out of bounds

    [WT_ASSERT] aborts when its condition is false, and an access outside the
    block a pointer points into has no defined behaviour: a function either
    returns, or stops at a failed assertion, or at such an access. *)

Inductive assertion :=
| p_le_end            (* WT_ASSERT(session, p <= end) *)
| jbufsize_ge_3       (* WT_ASSERT(session, jbufsize >= 3) *)
| jsize_le_jbufsize   (* WT_ASSERT(session, jsize <= jbufsize) *)
| jbufsize_eq_1.      (* WT_ASSERT(session, jbufsize == 1) *)

Inductive outcome (A : Type) :=
| Returned (a : A)
| AssertFailed (which : assertion)
| OutOfBounds.

Arguments Returned {A} a.
Arguments AssertFailed {A} which.
Arguments OutOfBounds {A}.

Definition bind {A B : Type} (m : outcome A) (k : A -> outcome B) : outcome B :=
  match m with
  | Returned a => k a
  | AssertFailed which => AssertFailed which
  | OutOfBounds => OutOfBounds
  end.

Definition WT_ASSERT (cond : bool) (which : assertion) : outcome unit :=
  if cond then Returned tt else AssertFailed which.

Notation "x <- m ;; k" := (bind m (fun x => k))
  (at level 61, m at next level, right associativity).
Notation "m ;;; k" := (bind m (fun _ => k))
  (at level 61, right associativity).

Definition WT_NOTFOUND : Z := -31803.
Definition ENOMEM : Z := 12.
Definition EINVAL : Z := 22.

(** *** The pack iterator

    [__pack_name_init], [__pack_init], [__pack_next], [__unpack_read] and
    [__pack_name_next] are defined outside this file.  What the two loops see
    of them is one run of calls, the same for the same buffer, format and
    names: the return of the two initialisations, the fields read before the
    loop ends, the call that ends it, and where [p] stands then. *)

Inductive loop_stop :=
| pack_next_ret (ret : Z)       (* __pack_next returned ret, not 0 *)
| unpack_read_ret (ret : Z)     (* then __unpack_read returned ret, not 0 *)
| pack_name_next_ret (ret : Z). (* then __pack_name_next returned ret, not 0 *)

Record pack_run := {
  init_ret : Z;       (* 0, or the error of the initialisation that failed *)
  fields : list (WT_PACK_VALUE * WT_CONFIG_ITEM);
  stop : loop_stop;
  p_end : Z           (* p - buffer when the loop is left *)
}.

Record WT_CURSOR_JSON := {
  key_buf : Z;
  value_buf : Z;
  key_names : WT_CONFIG_ITEM;
  value_names : WT_CONFIG_ITEM
}.

(** *** Memory

    The memory is a function from addresses to characters. *)

(** The memory after the stores [w], from the memory [m]. *)
Definition poke (m : Z -> Z) (w : stores) : Z -> Z :=
  List.fold_left (fun m st => fun a => if a =? fst st then snd st else m a) w m.

Definition text_len (text : list Z) : Z := Z.of_nat (List.length text).

(** The stores of consecutive characters from [buf]. *)
Definition seq_stores (buf : Z) (text : list Z) : stores :=
  List.combine (addresses buf (text_len text)) text.

(** The first NUL among the [n] characters from [a]. *)
Fixpoint first_NUL (mem : Z -> Z) (a : Z) (n : nat) : option Z :=
  match n with
  | O => None
  | S n' => if mem a =? ch_NUL then Some a else first_NUL mem (a + 1) n'
  end.

(** [strncat(dest, src, n)], [dest] pointing into a block that ends before
    [hi] and holds [mem]: the characters of [src], at most [n] of them, and
    a NUL are stored from the first NUL of [dest] on.  When the block holds
    no NUL from [dest] on, or is too short for what is stored, the call
    leaves the block. *)
Definition strncat (mem : Z -> Z) (hi dest : Z) (src : list Z) (n : Z)
  : outcome stores :=
  match first_NUL mem dest (Z.to_nat (hi - dest)) with
  | None => OutOfBounds
  | Some e =>
      let text := List.firstn (Z.to_nat n) (c_str src) ++ [ch_NUL] in
      if e + text_len text <=? hi then Returned (seq_stores e text)
      else OutOfBounds
  end.

Section Struct.

(** The run of the pack iterator for [buffer], [size], [fmt], [names] and
    [iskey]. *)
Variable pack_iter : list Z -> Z -> list Z -> WT_CONFIG_ITEM -> Z -> pack_run.

(** [__wt_realloc(session, NULL, bytes, &p)]: the return value, the new
    value of [p], and what the block of [bytes] bytes at [p] holds. *)
Variable __wt_realloc : Z -> Z -> Z * Z * (Z -> Z).

(** The body of the loop of [__json_struct_size] over the fields read. *)
Fixpoint struct_size_loop (fs : list (WT_PACK_VALUE * WT_CONFIG_ITEM))
    (needcr : bool) (result : Z) : Z :=
  match fs with
  | [] => result
  | (pv, name) :: rest =>
      let result := if needcr then size_t (result + 2) else result in
      let result := size_t (result + snd (__json_unpack_put pv 0 0 name)) in
      struct_size_loop rest true result
  end.

(** [__json_struct_size]: the return value and [*presult], which holds
    [presult] on entry.  Every [WT_ERR] leaves through [err: return (0)]
    without the assignment to [*presult]. *)
Definition __json_struct_size (buffer : list Z) (size : Z) (fmt : list Z)
    (names : WT_CONFIG_ITEM) (iskey : Z) (presult : Z) : outcome (Z * Z) :=
  let run := pack_iter buffer size fmt names iskey in
  if negb (init_ret run =? 0) then Returned (0, presult)
  else
    let result := struct_size_loop (fields run) false 0 in
    match stop run with
    | pack_next_ret _ =>
        WT_ASSERT (p_end run <=? size) p_le_end ;;;
        Returned (0, result)
    | unpack_read_ret _ => Returned (0, presult)
    | pack_name_next_ret _ => Returned (0, presult)
    end.

(** The start of an iteration of the loop of [__json_struct_unpackv]:
    [if (needcr) { WT_ASSERT(session, jbufsize >= 3);
     strncat(jbuf, SEPARATOR, jbufsize); jbuf += 2; jbufsize -= 2; }],
    SEPARATOR being a comma and a newline.  [w] are the stores made so far
    into the block, which held [mem] and ends before [hi]. *)
Definition separator (mem : Z -> Z) (hi : Z) (needcr : bool) (w : stores)
    (jbuf jbufsize : Z) : outcome (stores * Z * Z) :=
  if needcr then
    WT_ASSERT (3 <=? jbufsize) jbufsize_ge_3 ;;;
    w1 <- strncat (poke mem w) hi jbuf [ch_comma; ch_nl] jbufsize ;;
    Returned (w ++ w1, jbuf + 2, size_t (jbufsize - 2))
  else Returned (w, jbuf, jbufsize).

(** The body of the loop of [__json_struct_unpackv] over the fields read:
    the stores, [jbuf], [jbufsize] and [needcr] when the loop is left. *)
Fixpoint struct_unpackv_loop (mem : Z -> Z) (hi : Z)
    (fs : list (WT_PACK_VALUE * WT_CONFIG_ITEM))
    (needcr : bool) (w : stores) (jbuf jbufsize : Z)
  : outcome (stores * Z * Z * bool) :=
  match fs with
  | [] => Returned (w, jbuf, jbufsize, needcr)
  | (pv, name) :: rest =>
      st <- separator mem hi needcr w jbuf jbufsize ;;
      let '(w, jbuf, jbufsize) := st in
      let '(w1, jsize) := __json_unpack_put pv jbuf jbufsize name in
      WT_ASSERT (jsize <=? jbufsize) jsize_le_jbufsize ;;;
      struct_unpackv_loop mem hi rest true (w ++ w1) (jbuf + jsize)
        (size_t (jbufsize - jsize))
  end.

(** [__json_struct_unpackv]: the return value, the pointer stored through
    the single [va_arg], and the stores into the buffer.  [jbuf] points to a
    block of [jbufsize] bytes that holds [mem], as in the one call of the
    file. *)
Definition __json_struct_unpackv (buffer : list Z) (size : Z) (fmt : list Z)
    (names : WT_CONFIG_ITEM) (mem : Z -> Z) (jbuf jbufsize : Z) (iskey : Z)
    : outcome (Z * Z * stores) :=
  let run := pack_iter buffer size fmt names iskey in
  let va := jbuf in
  let hi := jbuf + jbufsize in
  if negb (init_ret run =? 0) then Returned (init_ret run, va, [])
  else
    st <- struct_unpackv_loop mem hi (fields run) false [] jbuf jbufsize ;;
    let '(w, jbuf, jbufsize, needcr) := st in
    match stop run with
    | pack_next_ret ret =>
        let ret := if ret =? WT_NOTFOUND then 0 else ret in
        WT_ASSERT (p_end run <=? size) p_le_end ;;;
        WT_ASSERT (jbufsize =? 1) jbufsize_eq_1 ;;;
        Returned (ret, va, w)
    | unpack_read_ret ret | pack_name_next_ret ret =>
        st <- separator mem hi needcr w jbuf jbufsize ;;
        let '(w, _, _) := st in
        Returned (ret, va, w)
    end.

(** [__wt_json_alloc_unpack]: the return value and the cursor's JSON state.
    [needed] is the value the uninitialised local [needed] holds on entry. *)
Definition __wt_json_alloc_unpack (buffer : list Z) (size : Z) (fmt : list Z)
    (json : WT_CURSOR_JSON) (iskey : Z) (needed : Z)
    : outcome (Z * WT_CURSOR_JSON) :=
  let names := if negb (iskey =? 0) then key_names json else value_names json in
  let json_buf := if negb (iskey =? 0) then key_buf json else value_buf json in
  r <- __json_struct_size buffer size fmt names iskey needed ;;
  let '(ret, needed) := r in
  if negb (ret =? 0) then Returned (ret, json)
  else
    let '(ret, json_buf, mem) := __wt_realloc (size_t (needed + 1)) json_buf in
    let json :=
      if negb (iskey =? 0)
      then {| key_buf := json_buf; value_buf := value_buf json;
              key_names := key_names json; value_names := value_names json |}
      else {| key_buf := key_buf json; value_buf := json_buf;
              key_names := key_names json; value_names := value_names json |} in
    if negb (ret =? 0) then Returned (ret, json)
    else
      r <- __json_struct_unpackv buffer size fmt names mem json_buf
             (size_t (needed + 1)) iskey ;;
      let '(ret, _, _) := r in
      if negb (ret =? 0) then Returned (ret, json)
      else Returned (0, json).

End Struct.

(** The size of the JSON text of the fields, without wrap-around: the sizes
    of the fields and two characters between consecutive fields. *)
Fixpoint json_total (fs : list (WT_PACK_VALUE * WT_CONFIG_ITEM)) : Z :=
  match fs with
  | [] => 0
  | (pv, name) :: rest =>
      snd (__json_unpack_put pv 0 0 name)
      + match rest with [] => 0 | _ => 2 + json_total rest end
  end.

(** A run in which two integers are expected and the second read fails: the
    format "ii" over a buffer that holds the packed integer 1 and then the
    first byte of a two-byte integer. *)
Definition key0 : WT_CONFIG_ITEM :=
  {| str := [chr "k"; chr "e"; chr "y"; chr "0"; ch_NUL]; len := 4 |}.

Definition pv_int (v : Z) : WT_PACK_VALUE :=
  {| u_s := []; u_item := []; u_i := v; u_u := 0; pv_type := chr "i";
     havesize := false; pv_size := 1 |}.

Definition truncated_run : pack_run :=
  {| init_ret := 0; fields := [(pv_int 1, key0)];
     stop := unpack_read_ret ENOMEM; p_end := 1 |}.

Definition truncated_iter (buffer : list Z) (size : Z) (fmt : list Z)
    (names : WT_CONFIG_ITEM) (iskey : Z) : pack_run := truncated_run.

(** A run over the format "xi": a padding byte, then an integer. *)
Definition pv_pad : WT_PACK_VALUE :=
  {| u_s := []; u_item := []; u_i := 0; u_u := 0; pv_type := chr "x";
     havesize := false; pv_size := 1 |}.

Definition key1 : WT_CONFIG_ITEM :=
  {| str := [chr "k"; chr "e"; chr "y"; chr "1"; ch_NUL]; len := 4 |}.

Definition padded_run : pack_run :=
  {| init_ret := 0; fields := [(pv_pad, key0); (pv_int 5, key1)];
     stop := pack_next_ret WT_NOTFOUND; p_end := 2 |}.

Definition padded_iter (buffer : list Z) (size : Z) (fmt : list Z)
    (names : WT_CONFIG_ITEM) (iskey : Z) : pack_run := padded_run.

(** An allocator that always succeeds, at address 4096, with the block
    cleared. *)
Definition realloc_ok (bytes p : Z) : Z * Z * (Z -> Z) := (0, 4096, fun _ => 0).

Definition json0 : WT_CURSOR_JSON :=
  {| key_buf := 0; value_buf := 0;
     key_names := {| str := []; len := 0 |};
     value_names := {| str := []; len := 0 |} |}.

(** *** Sizes, as functions of the data alone *)

(** The size of the escape of one character: 1 for a printable character
    other than the backslash and the double quote, 2 for the characters with
    a two-character escape, 6 otherwise, and always 6 under
    [force_unicode]. *)
Definition char_size (ch force_unicode : Z) : Z :=
  if force_unicode =? 0 then
    if isprint ch && negb (ch =? ch_backslash) && negb (ch =? ch_dquote) then 1
    else if is_in ch abbreviated then 2 else 6
  else 6.

(** The size after the characters [chars], from [s]. *)
Fixpoint chars_size (fu : Z) (chars : list Z) (s : Z) : Z :=
  match chars with
  | [] => s
  | ch :: rest => chars_size fu rest (size_t (s + char_size ch fu))
  end.

(** What the fields still to come take, a separator first when one field has
    been written. *)
Definition remaining (needcr : bool) (fs : list (WT_PACK_VALUE * WT_CONFIG_ITEM)) : Z :=
  match fs with
  | [] => 0
  | _ => (if needcr then 2 else 0) + json_total fs
  end.

(** *** Properties of the formatter *)


Lemma unpack_char_size (ch buf bufsz fu : Z) :
  snd (__wt_json_unpack_char ch buf bufsz fu) = char_size ch fu.
Proof.
  unfold __wt_json_unpack_char, char_size, is_in, abbreviated. simpl existsb.
  destruct (fu =? 0); [|destruct (6 <=? bufsz); reflexivity].
  destruct (isprint ch && negb (ch =? ch_backslash) && negb (ch =? ch_dquote));
    [reflexivity|].
  destruct (ch =? ch_backslash) eqn:E1; [apply Z.eqb_eq in E1; subst; reflexivity|].
  destruct (ch =? ch_dquote) eqn:E2; [apply Z.eqb_eq in E2; subst; reflexivity|].
  destruct (ch =? ch_ff) eqn:E3; [reflexivity|].
  destruct (ch =? ch_nl) eqn:E4; [reflexivity|].
  destruct (ch =? ch_cr) eqn:E5; [reflexivity|].
  destruct (ch =? ch_tab) eqn:E6; [reflexivity|].
  simpl. destruct (6 <=? bufsz); reflexivity.
Qed.

Lemma unpack_char_stores (ch buf bufsz fu : Z) :
  let w := fst (__wt_json_unpack_char ch buf bufsz fu) in
  let n := char_size ch fu in
  (n <= bufsz -> List.map fst w = addresses buf n) /\
  (bufsz < n -> w = []).
Proof.
  cbv zeta.
  unfold __wt_json_unpack_char, char_size, is_in, abbreviated. simpl existsb.
  destruct (fu =? 0).
  2:{ destruct (Z.leb_spec 6 bufsz); split; intros; try lia; try reflexivity;
      unfold addresses; simpl; rewrite Z.add_0_r; reflexivity. }
  destruct (isprint ch && negb (ch =? ch_backslash) && negb (ch =? ch_dquote)).
  { destruct (Z.leb_spec 1 bufsz); split; intros; try lia; try reflexivity;
    unfold addresses; simpl; rewrite Z.add_0_r; reflexivity. }
  destruct (ch =? ch_backslash) eqn:E1.
  { apply Z.eqb_eq in E1; subst. simpl.
    destruct (Z.leb_spec 2 bufsz); split; intros; try lia; try reflexivity;
    unfold addresses; simpl; rewrite Z.add_0_r; reflexivity. }
  destruct (ch =? ch_dquote) eqn:E2.
  { apply Z.eqb_eq in E2; subst. simpl.
    destruct (Z.leb_spec 2 bufsz); split; intros; try lia; try reflexivity;
    unfold addresses; simpl; rewrite Z.add_0_r; reflexivity. }
  simpl orb.
  destruct (ch =? ch_ff) eqn:E3;
  [|destruct (ch =? ch_nl) eqn:E4;
  [|destruct (ch =? ch_cr) eqn:E5;
  [|destruct (ch =? ch_tab) eqn:E6]]]; simpl;
  try (destruct (Z.leb_spec 2 bufsz); split; intros; try lia; try reflexivity;
    unfold addresses; simpl; rewrite Z.add_0_r; reflexivity).
  destruct (Z.leb_spec 6 bufsz); split; intros; try lia; try reflexivity;
  unfold addresses; simpl; rewrite Z.add_0_r; reflexivity.
Qed.

Lemma addresses_bound (buf n bufsz a : Z) :
  n <= bufsz -> In a (addresses buf n) -> buf <= a < buf + bufsz.
Proof.
  unfold addresses. intros Hn Ha. apply in_map_iff in Ha as (i & <- & Hi).
  apply in_seq in Hi. lia.
Qed.

Lemma char_size_cases (ch fu : Z) :
  let n := char_size ch fu in
  (n = 1 \/ n = 2 \/ n = 6) /\
  (n = 1 <-> fu = 0 /\ isprint ch = true /\ ch <> ch_backslash /\ ch <> ch_dquote) /\
  (n = 2 <-> fu = 0 /\ In ch abbreviated) /\
  (fu <> 0 -> n = 6).
Proof.
  cbv zeta. unfold char_size, is_in, abbreviated, isprint.
  unfold ch_backslash, ch_dquote, ch_ff, ch_nl, ch_cr, ch_tab.
  simpl existsb. simpl In.
  destruct (Z.eqb_spec fu 0) as [->|Hfu].
  2:{ repeat split; intros; try lia; try tauto. }
  destruct (Z.leb_spec 32 ch), (Z.leb_spec ch 126),
    (Z.eqb_spec ch 92), (Z.eqb_spec ch 34), (Z.eqb_spec ch 12),
    (Z.eqb_spec ch 10), (Z.eqb_spec ch 13), (Z.eqb_spec ch 9);
    simpl; repeat split; intros; try lia; try tauto;
    repeat match goal with H : _ /\ _ |- _ => destruct H end;
    try discriminate; try lia.
Qed.


Lemma put_chars_size (fu : Z) (chars : list Z) :
  forall w buf bufsz s,
    snd (put_chars fu chars w buf bufsz s) = chars_size fu chars s.
Proof.
  induction chars as [|ch rest IH]; intros w buf bufsz s; [reflexivity|].
  simpl.
  pose proof (unpack_char_size ch buf bufsz fu) as Hn.
  destruct (__wt_json_unpack_char ch buf bufsz fu) as [w1 n].
  simpl in Hn. subst n.
  destruct (bufsz <? char_size ch fu); apply IH.
Qed.

Lemma put_quoted_size (fu : Z) (chars : list Z) (w : stores) (buf bufsz s : Z) :
  snd (put_quoted fu chars w buf bufsz s) = chars_size fu chars (size_t (s + 2)).
Proof.
  unfold put_quoted.
  destruct (put_quote w buf bufsz) as [[w1 buf1] bufsz1].
  pose proof (put_chars_size fu chars w1 buf1 bufsz1 (size_t (s + 2))) as H.
  destruct (put_chars fu chars w1 buf1 bufsz1 (size_t (s + 2)))
    as [[[w2 buf2] bufsz2] s2].
  simpl in H. subst s2.
  destruct (put_quote w2 buf2 bufsz2) as [[w3 buf3] bufsz3]. reflexivity.
Qed.

(** The size [__json_unpack_put] returns is the one it returns when called
    for sizing, with a null buffer of size zero. *)
Lemma unpack_put_size (pv : WT_PACK_VALUE) (buf bufsz : Z) (name : WT_CONFIG_ITEM) :
  snd (__json_unpack_put pv buf bufsz name) = snd (__json_unpack_put pv 0 0 name).
Proof.
  unfold __json_unpack_put, snprintf.
  set (s := Z.of_nat (List.length (fmt_name name))).
  destruct (s <=? bufsz); destruct (s <=? 0);
    repeat match goal with
    | |- context [if ?b then _ else _] =>
        match b with
        | context [pv_type] => destruct b eqn:?
        end
    end; simpl; rewrite ?put_quoted_size; reflexivity.
Qed.

Lemma size_t_range (x : Z) : 0 <= size_t x <= SIZE_MAX.
Proof.
  unfold size_t, SIZE_MAX.
  pose proof (Z.mod_pos_bound x (2 ^ 64) ltac:(lia)). lia.
Qed.

Lemma size_t_small (x : Z) : 0 <= x <= SIZE_MAX -> size_t x = x.
Proof. unfold size_t, SIZE_MAX. intros H. apply Z.mod_small. lia. Qed.

Lemma chars_size_range (fu : Z) (chars : list Z) :
  forall s, 0 <= s <= SIZE_MAX -> 0 <= chars_size fu chars s <= SIZE_MAX.
Proof.
  induction chars as [|ch rest IH]; intros s Hs; simpl; [assumption|].
  apply IH. apply size_t_range.
Qed.

Lemma unpack_put_range (pv : WT_PACK_VALUE) (buf bufsz : Z) (name : WT_CONFIG_ITEM) :
  0 <= snd (__json_unpack_put pv buf bufsz name) <= SIZE_MAX.
Proof.
  unfold __json_unpack_put, snprintf.
  set (s := Z.of_nat (List.length (fmt_name name))).
  destruct (s <=? bufsz);
    repeat match goal with
    | |- context [if ?b then _ else _] =>
        match b with
        | context [pv_type] => destruct b eqn:?
        end
    end; simpl; rewrite ?put_quoted_size;
    try (apply chars_size_range); try apply size_t_range;
    unfold SIZE_MAX; lia.
Qed.


Lemma json_total_nonneg fs : 0 <= json_total fs.
Proof.
  induction fs as [|[pv name] rest IH]; [simpl; lia|].
  pose proof (unpack_put_range pv 0 0 name).
  destruct rest as [|q rest']; [simpl; lia|].
  change (json_total ((pv, name) :: q :: rest'))
    with (snd (__json_unpack_put pv 0 0 name) + (2 + json_total (q :: rest'))).
  lia.
Qed.

Lemma remaining_cons needcr pv name rest :
  remaining needcr ((pv, name) :: rest) =
  (if needcr then 2 else 0) + snd (__json_unpack_put pv 0 0 name)
  + remaining true rest.
Proof.
  unfold remaining.
  destruct rest as [|q rest'].
  - change (json_total [(pv, name)])
      with (snd (__json_unpack_put pv 0 0 name) + 0). lia.
  - change (json_total ((pv, name) :: q :: rest'))
      with (snd (__json_unpack_put pv 0 0 name) + (2 + json_total (q :: rest'))).
    lia.
Qed.

Lemma remaining_nonneg needcr fs : 0 <= remaining needcr fs.
Proof.
  unfold remaining. pose proof (json_total_nonneg fs).
  destruct fs; [lia|]. destruct needcr; lia.
Qed.

Lemma struct_size_loop_total fs :
  forall needcr result,
    0 <= result -> result + remaining needcr fs <= SIZE_MAX ->
    struct_size_loop fs needcr result = result + remaining needcr fs.
Proof.
  induction fs as [|[pv name] rest IH]; intros needcr result H0 Hle.
  - simpl. unfold remaining. lia.
  - rewrite remaining_cons in *.
    pose proof (unpack_put_range pv 0 0 name) as Hp.
    pose proof (remaining_nonneg true rest) as Hr.
    simpl struct_size_loop.
    set (p := snd (__json_unpack_put pv 0 0 name)) in *.
    assert (E1 : (if needcr then size_t (result + 2) else result)
                 = result + (if needcr then 2 else 0)).
    { destruct needcr; [apply size_t_small|]; lia. }
    rewrite E1.
    rewrite size_t_small by (destruct needcr; lia).
    rewrite IH by (destruct needcr; lia). lia.
Qed.

(** On a run that ends with the format, [__json_struct_size] stores the
    size of the text: the sizes of the fields and two characters between
    consecutive fields. *)
Lemma struct_size_total
    (pack_iter : list Z -> Z -> list Z -> WT_CONFIG_ITEM -> Z -> pack_run)
    (buffer : list Z) (size : Z) (fmt : list Z) (names : WT_CONFIG_ITEM)
    (iskey needed : Z) :
  let run := pack_iter buffer size fmt names iskey in
  init_ret run = 0 ->
  (exists r, stop run = pack_next_ret r) ->
  p_end run <= size ->
  json_total (fields run) <= SIZE_MAX ->
  __json_struct_size pack_iter buffer size fmt names iskey needed
    = Returned (0, json_total (fields run)).
Proof.
  intros run Hinit [r Hstop] Hp Htot.
  unfold __json_struct_size. fold run. rewrite Hinit, Hstop. simpl.
  assert (Hpe : (p_end run <=? size) = true) by (apply Z.leb_le; assumption).
  rewrite Hpe. simpl.
  rewrite struct_size_loop_total.
  - unfold remaining. destruct (fields run); reflexivity.
  - lia.
  - unfold remaining. pose proof (json_total_nonneg (fields run)).
    destruct (fields run); simpl in *; lia.
Qed.

(** C4: [__wt_json_unpack_char] returns 1 (printable, not the backslash nor
    the double quote, [force_unicode] zero), 2 (backslash, double quote, \f,
    \n, \r or \t, [force_unicode] zero) or 6 (always under [force_unicode]);
    the value does not depend on [buf] or [bufsz]; when [bufsz] is at least
    the value, exactly the positions [buf .. buf + value - 1] are stored to,
    and when it is smaller nothing is stored, so that no store ever falls
    outside the first [bufsz] positions. *)
Theorem unpack_char_returns_1_2_6 (ch buf bufsz force_unicode : Z) :
  let w := fst (__wt_json_unpack_char ch buf bufsz force_unicode) in
  let n := snd (__wt_json_unpack_char ch buf bufsz force_unicode) in
  (n = 1 \/ n = 2 \/ n = 6) /\
  (n = 1 <-> force_unicode = 0 /\ isprint ch = true /\
             ch <> ch_backslash /\ ch <> ch_dquote) /\
  (n = 2 <-> force_unicode = 0 /\ In ch abbreviated) /\
  (force_unicode <> 0 -> n = 6) /\
  (forall buf' bufsz',
      snd (__wt_json_unpack_char ch buf' bufsz' force_unicode) = n) /\
  (n <= bufsz -> List.map fst w = addresses buf n) /\
  (bufsz < n -> w = []) /\
  Forall (fun st => buf <= fst st < buf + bufsz) w.
Proof.
  cbv zeta. rewrite unpack_char_size.
  destruct (char_size_cases ch force_unicode) as (H126 & H1 & H2 & H6).
  destruct (unpack_char_stores ch buf bufsz force_unicode) as (Hge & Hlt).
  cbv zeta in *.
  repeat (split; [assumption|]).
  split; [intros; apply unpack_char_size|].
  repeat (split; [assumption|]).
  destruct (Z.lt_ge_cases bufsz (char_size ch force_unicode)) as [Hs|Hs].
  - rewrite (Hlt Hs). apply Forall_nil.
  - apply Forall_forall. intros st Hst.
    apply (addresses_bound buf (char_size ch force_unicode)); [assumption|].
    rewrite <- (Hge Hs). apply in_map. assumption.
Qed.

(** The format "xi": the padding field adds nothing to the size in either
    pass, although the writing pass stores its name prefix, and the unpacking
    returns 0 with the buffer allocated. *)
Lemma alloc_unpack_padding :
  let buffer := [0x00; 0x85] in
  let fmt := [chr "x"; chr "i"] in
  __json_struct_size padded_iter buffer 2 fmt (key_names json0) 1 0
    = Returned (0, 12) /\
  fst (__json_unpack_put pv_pad 4096 13 key0) <> [] /\
  snd (__json_unpack_put pv_pad 4096 13 key0) = 0 /\
  __wt_json_alloc_unpack padded_iter realloc_ok buffer 2 fmt json0 1 0
    = Returned (0, {| key_buf := 4096; value_buf := 0;
                      key_names := key_names json0;
                      value_names := value_names json0 |}).
Proof. cbv zeta. repeat split; vm_compute; try reflexivity; discriminate. Qed.

(** C3, at an input where it fails: the second of two integers cannot be
    read.  [__json_struct_size] returns 0 and leaves [needed] as it was, and
    [__wt_json_alloc_unpack] stops at the assertion [jsize <= jbufsize] when
    [needed] held 0, at the assertion [jbufsize >= 3] when it held 10. *)
Theorem alloc_unpack_assertion_fails :
  let buffer := [0x81; 0xc0] in
  let fmt := [chr "i"; chr "i"] in
  __json_struct_size truncated_iter buffer 2 fmt (key_names json0) 1 0
    = Returned (0, 0) /\
  __wt_json_alloc_unpack truncated_iter realloc_ok buffer 2 fmt json0 1 0
    = AssertFailed jsize_le_jbufsize /\
  __wt_json_alloc_unpack truncated_iter realloc_ok buffer 2 fmt json0 1 10
    = AssertFailed jbufsize_ge_3.
Proof. cbv zeta. repeat split; vm_compute; reflexivity. Qed.

End Json.

(** ** [src/mongo/db/catalog/index_key_validate.cpp] *)

Module IndexKeyValidate.
Local Open Scope string_scope.
Local Open Scope Z_scope.

(** *** The BSON interface used by the validator

    [BSONObj], [BSONElement], [FieldRef] and [IndexNames] come from headers
    the file includes.  They are modelled by the data they expose: an object
    is the sequence of its elements, an element is a field name and a typed
    value. *)

(** The value of an element.  A number carries what its type stores; every
    type other than the numbers and the string is [BOther], with its type
    byte and the size of its value. *)
Inductive BSONValue :=
| BNumberDouble (d : spec_float)
| BNumberInt (i : Z)
| BNumberLong (i : Z)
| BNumberDecimal (toDouble : spec_float)
| BString (s : string)
| BOther (type : Z) (valuesize : nat).

Record BSONElement := {
  fieldName : string;
  value : BSONValue
}.

Definition BSONObj := list BSONElement.

(** [BSONElement::isNumber]. *)
Definition isNumber (e : BSONElement) : bool :=
  match value e with
  | BNumberDouble _ | BNumberInt _ | BNumberLong _ | BNumberDecimal _ => true
  | _ => false
  end.

Definition isString (e : BSONElement) : bool :=
  match value e with BString _ => true | _ => false end.

(** The double nearest to an integer (binary64: precision 53, exponents up
    to 1024). *)
Definition double_of_Z (i : Z) : spec_float :=
  binary_normalize 53 1024 i 0 false.

(** [BSONElement::number]: the value as a double, 0 when not a number. *)
Definition number (e : BSONElement) : spec_float :=
  match value e with
  | BNumberDouble d => d
  | BNumberInt i => double_of_Z i
  | BNumberLong i => double_of_Z i
  | BNumberDecimal d => d
  | _ => S754_zero false
  end.

(** [std::isnan(value)] and [value == 0.0]. *)
Definition isnan (d : spec_float) : bool :=
  match d with S754_nan => true | _ => false end.

Definition is_zero (d : spec_float) : bool :=
  match d with S754_zero _ => true | _ => false end.

(** [BSONElement::str]: the string of a String element, empty otherwise. *)
Definition str (e : BSONElement) : string :=
  match value e with BString s => s | _ => "" end.

(** A [const char*] read as a C string stops at the first NUL. *)
Fixpoint c_string (s : string) : string :=
  match s with
  | EmptyString => EmptyString
  | String c rest =>
      if Ascii.eqb c "000"%char then EmptyString else String c (c_string rest)
  end.

(** [BSONElement::valuestrsafe]: a [const char*] to the string of a String
    element, to the empty string otherwise. *)
Definition valuestrsafe (e : BSONElement) : string := c_string (str e).

(** Sizes in bytes: a type byte, the field name and its NUL, the value. *)
Definition valuesize (v : BSONValue) : Z :=
  match v with
  | BNumberDouble _ => 8
  | BNumberInt _ => 4
  | BNumberLong _ => 8
  | BNumberDecimal _ => 16
  | BString s => 4 + Z.of_nat (String.length s) + 1
  | BOther _ n => Z.of_nat n
  end.

Definition element_size (e : BSONElement) : Z :=
  1 + (Z.of_nat (String.length (fieldName e)) + 1) + valuesize (value e).

(** [BSONObj::objsize]: the length word, the elements, the closing EOO. *)
Definition objsize (key : BSONObj) : Z :=
  4 + List.fold_right (fun e n => element_size e + n) 0 key + 1.

(** [BSONObj::isEmpty]. *)
Definition isEmpty (key : BSONObj) : bool := objsize key <=? 5.

(** [IndexNames]. *)
Definition GEO_2D : string := "2d".
Definition GEO_HAYSTACK : string := "geoHaystack".
Definition GEO_2DSPHERE : string := "2dsphere".
Definition TEXT : string := "text".
Definition HASHED : string := "hashed".
Definition BTREE : string := "".

(** [IndexNames::findPluginName]: the string of the first String element,
    BTREE when there is none. *)
Fixpoint findPluginName (key : BSONObj) : string :=
  match key with
  | [] => BTREE
  | e :: rest =>
      match value e with
      | BString s => s
      | _ => findPluginName rest
      end
  end.

(** [IndexNames::isKnownName]. *)
Definition isKnownName (name : string) : bool :=
  String.eqb name GEO_2D || String.eqb name GEO_2DSPHERE ||
  String.eqb name TEXT || String.eqb name HASHED ||
  String.eqb name GEO_HAYSTACK || String.eqb name BTREE.

(** [FieldRef::parse]: the parts of a dotted path; no part for the empty
    path, and an empty part wherever two delimiters meet or the path starts
    or ends with one. *)
Fixpoint parse_parts (path : string) : list string :=
  match path with
  | EmptyString => [EmptyString]
  | String c rest =>
      if Ascii.eqb c "."%char then EmptyString :: parse_parts rest
      else
        match parse_parts rest with
        | part :: parts => String c part :: parts
        | [] => [String c EmptyString]
        end
  end.

Definition FieldRef (path : string) : list string :=
  match path with
  | EmptyString => []
  | _ => parse_parts path
  end.

(** *** Status *)

Inductive ErrorCodes :=
| BadValue
| FailedToParse
| TypeMismatch
| CannotCreateIndex.

Inductive Status :=
| OK
| Error (code : ErrorCodes) (reason : string).

Definition isOK (s : Status) : bool :=
  match s with OK => true | Error _ _ => false end.

(** *** validateKeyPattern *)

Definition starts_with_dollar (part : string) : bool :=
  match part with
  | String c _ => Ascii.eqb c "$"%char
  | EmptyString => false
  end.

(** The loop over the parts of a field path, from part [i]. *)
Fixpoint check_parts (code : ErrorCodes) (i : nat) (parts : list string)
  : Status :=
  match parts with
  | [] => OK
  | part :: rest =>
      if String.eqb part "" then
        Error code "Index keys cannot contain an empty field."
      else if negb (starts_with_dollar part) then check_parts code (S i) rest
      else
        let mightBePartOfDbRef :=
          negb (Nat.eqb i 0) &&
          (String.eqb part "$db" || String.eqb part "$id" ||
           String.eqb part "$ref") in
        if negb mightBePartOfDbRef then
          Error code
            "Index key contains an illegal field name: field name starts with '$'."
        else check_parts code (S i) rest
  end.

(** The body of the loop over the elements, for one element.  The type name
    streamed into the message of a wrongly typed value is left out. *)
Definition check_element (code : ErrorCodes) (pluginName : string)
    (keyElement : BSONElement) : Status :=
  let typeStatus :=
    if isNumber keyElement then
      let value := number keyElement in
      if isnan value then
        Error code "Values in the index key pattern cannot be NaN."
      else if is_zero value then
        Error code "Values in the index key pattern cannot be 0."
      else OK
    else if negb (isString keyElement) then
      Error code
        "Values in index key pattern cannot be of type . Only numbers > 0, numbers < 0, and strings are allowed."
    else OK in
  if negb (isOK typeStatus) then typeStatus
  else if isString keyElement && negb (String.eqb pluginName (str keyElement))
  then Error code "Can't use more than one index plugin for a single index."
  else
    let keyField := FieldRef (fieldName keyElement) in
    let numParts := List.length keyField in
    if Nat.eqb numParts 0 then
      Error code "Index keys cannot be an empty field."
    else if String.eqb (fieldName keyElement) "$**" &&
            String.eqb (valuestrsafe keyElement) TEXT
    then OK
    else if String.eqb (fieldName keyElement) "_fts" &&
            negb (String.eqb (valuestrsafe keyElement) TEXT)
    then Error code "Index key contains an illegal field name: '_fts'"
    else check_parts code 0 keyField.

(** The loop over the elements: the first failure is returned. *)
Fixpoint check_elements (code : ErrorCodes) (pluginName : string)
    (elements : list BSONElement) : Status :=
  match elements with
  | [] => OK
  | keyElement :: rest =>
      match check_element code pluginName keyElement with
      | OK => check_elements code pluginName rest
      | failure => failure
      end
  end.

Definition validateKeyPattern (key : BSONObj) : Status :=
  let code := CannotCreateIndex in
  if 2048 <? objsize key then Error code "Index key pattern too large."
  else if isEmpty key then Error code "Index keys cannot be empty."
  else
    let pluginName := findPluginName key in
    if negb (Nat.eqb (String.length pluginName) 0) &&
       negb (isKnownName pluginName)
    then Error code ("Unknown index plugin '" ++ pluginName ++ "'")
    else check_elements code pluginName key.

(** *** The accepted key patterns, as the property states them *)

(** A number that is neither NaN nor 0. *)
Definition good_number (e : BSONElement) : Prop :=
  isNumber e = true /\ isnan (number e) = false /\ is_zero (number e) = false.

(** A component used by a DBRef. *)
Definition dbref_part (part : string) : Prop :=
  part = "$db" \/ part = "$id" \/ part = "$ref".

(** The whole field name "$**" with the value "text". *)
Definition text_wildcard (e : BSONElement) : Prop :=
  fieldName e = "$**" /\ value e = BString "text".

(** The conditions on the field path of an element. *)
Definition path_ok (e : BSONElement) : Prop :=
  let parts := FieldRef (fieldName e) in
  parts <> [] /\
  ~ In "" parts /\
  (forall i part, nth_error parts i = Some part ->
      starts_with_dollar part = true ->
      text_wildcard e \/ (i <> 0%nat /\ dbref_part part)) /\
  (fieldName e = "_fts" -> value e = BString "text").

Definition valid_key_pattern (key : BSONObj) : Prop :=
  objsize key <= 2048 /\
  key <> [] /\
  (exists plugin, isKnownName plugin = true /\
      forall e, In e key -> good_number e \/ value e = BString plugin) /\
  (forall e, In e key -> path_ok e).

(** *** The two halves of the loop body, for the proofs *)

(** The two checks on the value. *)
Definition value_checks (P : string) (e : BSONElement) : bool :=
  (if isNumber e
   then negb (isnan (number e)) && negb (is_zero (number e))
   else isString e)
  && negb (isString e && negb (String.eqb P (str e))).

(** The checks on the field name. *)
Definition path_checks (code : ErrorCodes) (e : BSONElement) : Status :=
  let keyField := FieldRef (fieldName e) in
  if Nat.eqb (List.length keyField) 0 then
    Error code "Index keys cannot be an empty field."
  else if String.eqb (fieldName e) "$**" && String.eqb (valuestrsafe e) TEXT
  then OK
  else if String.eqb (fieldName e) "_fts" &&
          negb (String.eqb (valuestrsafe e) TEXT)
  then Error code "Index key contains an illegal field name: '_fts'"
  else check_parts code 0 keyField.

(** *** Properties of the validator *)

Lemma check_parts_code code i parts c r :
  check_parts code i parts = Error c r -> c = code.
Proof.
  revert i. induction parts as [|part rest IH]; intros i H; simpl in H.
  - discriminate.
  - repeat match type of H with
           | (if ?b then _ else _) = _ => destruct b
           end; try (injection H; intros; subst; reflexivity); eauto.
Qed.

Lemma check_element_code code P e c r :
  check_element code P e = Error c r -> c = code.
Proof.
  unfold check_element. intros H.
  repeat match type of H with
         | (if ?b then _ else _) = _ => destruct b
         | context [if ?b then _ else _] => destruct b
         end; simpl in H;
    try discriminate; try (injection H; intros; subst; reflexivity);
    eauto using check_parts_code.
Qed.

Lemma check_elements_code code P es c r :
  check_elements code P es = Error c r -> c = code.
Proof.
  induction es as [|e rest IH]; simpl; intros H; [discriminate|].
  destruct (check_element code P e) eqn:E; [auto|].
  injection H; intros; subst. eauto using check_element_code.
Qed.

Lemma validate_code key c r :
  validateKeyPattern key = Error c r -> c = CannotCreateIndex.
Proof.
  unfold validateKeyPattern. intros H.
  repeat match type of H with
         | (if ?b then _ else _) = _ => destruct b
         end; try (injection H; intros; subst; reflexivity).
  eauto using check_elements_code.
Qed.

Lemma check_parts_ok code parts :
  forall i,
    check_parts code i parts = OK <->
    (~ In "" parts /\
     forall j part, nth_error parts j = Some part ->
       starts_with_dollar part = true ->
       (i + j <> 0)%nat /\ dbref_part part).
Proof.
  induction parts as [|part rest IH]; intros i; simpl.
  - split; [|reflexivity]. intros _. split; [tauto|].
    intros [|j] p H; discriminate H.
  - destruct (String.eqb_spec part "") as [->|Hne].
    { split; [discriminate|]. intros [H _]. exfalso. apply H. left. reflexivity. }
    destruct (starts_with_dollar part) eqn:Hd; simpl.
    + destruct (Nat.eqb_spec i 0) as [->|Hi]; simpl.
      { split; [discriminate|]. intros [_ H].
        destruct (H 0%nat part eq_refl Hd) as [H0 _]. exfalso. apply H0. reflexivity. }
      destruct (String.eqb_spec part "$db") as [->|H1]; simpl.
      { rewrite IH. split.
        - intros [Hin Hall]. split; [intros [H|H]; [discriminate H|tauto]|].
          intros [|j] p Hn Hp; simpl in Hn.
          + injection Hn as <-. split; [lia|]. left. reflexivity.
          + destruct (Hall j p Hn Hp). split; [lia|assumption].
        - intros [Hin Hall]. split; [tauto|].
          intros j p Hn Hp. destruct (Hall (S j) p Hn Hp). split; [lia|assumption]. }
      destruct (String.eqb_spec part "$id") as [->|H2]; simpl.
      { rewrite IH. split.
        - intros [Hin Hall]. split; [intros [H|H]; [discriminate H|tauto]|].
          intros [|j] p Hn Hp; simpl in Hn.
          + injection Hn as <-. split; [lia|]. right. left. reflexivity.
          + destruct (Hall j p Hn Hp). split; [lia|assumption].
        - intros [Hin Hall]. split; [tauto|].
          intros j p Hn Hp. destruct (Hall (S j) p Hn Hp). split; [lia|assumption]. }
      destruct (String.eqb_spec part "$ref") as [->|H3]; simpl.
      { rewrite IH. split.
        - intros [Hin Hall]. split; [intros [H|H]; [discriminate H|tauto]|].
          intros [|j] p Hn Hp; simpl in Hn.
          + injection Hn as <-. split; [lia|]. right. right. reflexivity.
          + destruct (Hall j p Hn Hp). split; [lia|assumption].
        - intros [Hin Hall]. split; [tauto|].
          intros j p Hn Hp. destruct (Hall (S j) p Hn Hp). split; [lia|assumption]. }
      split; [discriminate|]. intros [_ H].
      destruct (H 0%nat part eq_refl Hd) as [_ [?|[?|?]]]; contradiction.
    + rewrite IH. split.
      * intros [Hin Hall]. split; [intros [H|H]; [congruence|tauto]|].
        intros [|j] p Hn Hp; simpl in Hn.
        -- injection Hn as <-. congruence.
        -- destruct (Hall j p Hn Hp). split; [lia|assumption].
      * intros [Hin Hall]. split; [tauto|].
        intros j p Hn Hp. destruct (Hall (S j) p Hn Hp). split; [lia|assumption].
Qed.

Lemma check_elements_ok code P es :
  check_elements code P es = OK <->
  forall e, In e es -> check_element code P e = OK.
Proof.
  induction es as [|e rest IH]; simpl.
  - split; [intros _ e []|reflexivity].
  - destruct (check_element code P e) eqn:E.
    + rewrite IH. split.
      * intros H e' [<-|Hin]; [assumption|apply H; assumption].
      * intros H e' Hin. apply H. right. assumption.
    + split; [discriminate|]. intros H.
      specialize (H e (or_introl eq_refl)). congruence.
Qed.

Lemma known_c_string P : isKnownName P = true -> c_string P = P.
Proof.
  unfold isKnownName. intros H.
  repeat (apply orb_prop in H as [H|H]);
    apply String.eqb_eq in H; subst; reflexivity.
Qed.

Lemma good_number_not_string e s : good_number e -> value e <> BString s.
Proof.
  intros [H _] E. unfold isNumber in H. rewrite E in H. discriminate.
Qed.


Lemma value_checks_ok P e :
  value_checks P e = true <-> good_number e \/ value e = BString P.
Proof.
  unfold value_checks, good_number, isNumber, isString, str.
  destruct (value e) as [d|i|i|d|s|t n] eqn:Ev; simpl;
    try (destruct (isnan (number e)), (is_zero (number e)); simpl;
         intuition congruence).
  destruct (String.eqb_spec P s) as [->|Hne]; simpl; intuition congruence.
Qed.

Lemma valuestrsafe_text P e :
  isKnownName P = true ->
  good_number e \/ value e = BString P ->
  (String.eqb (valuestrsafe e) TEXT = true <-> value e = BString "text").
Proof.
  intros HP [Hn|Hs].
  - pose proof (good_number_not_string e "text" Hn) as Hne.
    destruct Hn as [Hn _]. unfold isNumber in Hn.
    unfold valuestrsafe, str.
    destruct (value e); try discriminate; simpl; split; intros; congruence.
  - unfold valuestrsafe, str. rewrite Hs. rewrite (known_c_string P HP).
    rewrite String.eqb_eq. unfold TEXT. split; congruence.
Qed.


Lemma check_element_split code P e :
  check_element code P e = OK <->
  value_checks P e = true /\ path_checks code e = OK.
Proof.
  unfold check_element, value_checks, path_checks.
  destruct (isNumber e); simpl.
  - destruct (isnan (number e)); simpl; [split; [discriminate|intros [H _]; discriminate]|].
    destruct (is_zero (number e)); simpl; [split; [discriminate|intros [H _]; discriminate]|].
    destruct (isString e && negb (P =? str e)%string); simpl;
      [split; [discriminate|intros [H _]; discriminate]|].
    tauto.
  - destruct (isString e); simpl; [|split; [discriminate|intros [H _]; discriminate]].
    destruct (negb (P =? str e)%string); simpl;
      [split; [discriminate|intros [H _]; discriminate]|].
    tauto.
Qed.

Lemma path_checks_ok code P e :
  isKnownName P = true ->
  good_number e \/ value e = BString P ->
  (path_checks code e = OK <-> path_ok e).
Proof.
  intros HP Hv. pose proof (valuestrsafe_text P e HP Hv) as Htxt.
  unfold path_checks, path_ok, text_wildcard. cbv zeta.
  destruct (FieldRef (fieldName e)) as [|p0 parts] eqn:Ef.
  { simpl. split; [discriminate|]. intros [H _]. congruence. }
  cbn [List.length Nat.eqb].
  destruct (String.eqb_spec (fieldName e) "$**") as [Hw|Hw].
  - destruct (String.eqb (valuestrsafe e) TEXT) eqn:Et; cbn [andb].
    + assert (Hval : value e = BString "text") by (apply Htxt; reflexivity).
      rewrite Hw in Ef. vm_compute in Ef. injection Ef as <- <-.
      split; [intros _|reflexivity].
      split; [discriminate|].
      split; [intros [H|[]]; discriminate H|].
      split; [intros; left; split; assumption|].
      rewrite Hw. discriminate.
    + assert (Hval : value e <> BString "text").
      { intros H. apply Htxt in H. discriminate. }
      replace (String.eqb (fieldName e) "_fts") with false
        by (rewrite Hw; reflexivity).
      cbn [andb]. rewrite check_parts_ok. split.
      * intros [Hin Hall]. split; [discriminate|]. split; [assumption|].
        split; [|rewrite Hw; discriminate].
        intros i part Hn Hd. right. destruct (Hall i part Hn Hd). split; [lia|assumption].
      * intros (_ & Hin & Hall & _). split; [assumption|].
        intros j part Hn Hd. destruct (Hall j part Hn Hd) as [[_ H]|[H1 H2]];
          [contradiction|]. split; [lia|assumption].
  - cbn [andb].
    destruct (String.eqb_spec (fieldName e) "_fts") as [Hf|Hf].
    + destruct (String.eqb (valuestrsafe e) TEXT) eqn:Et; cbn [andb negb].
      * assert (Hval : value e = BString "text") by (apply Htxt; reflexivity).
        rewrite check_parts_ok. split.
        -- intros [Hin Hall]. split; [discriminate|]. split; [assumption|].
           split; [|intros; assumption].
           intros i part Hn Hd. right. destruct (Hall i part Hn Hd). split; [lia|assumption].
        -- intros (_ & Hin & Hall & _). split; [assumption|].
           intros j part Hn Hd. destruct (Hall j part Hn Hd) as [[H _]|[H1 H2]];
             [contradiction|]. split; [lia|assumption].
      * assert (Hval : value e <> BString "text").
        { intros H. apply Htxt in H. discriminate. }
        split; [discriminate|]. intros (_ & _ & _ & H). exfalso. auto.
    + cbn [andb]. rewrite check_parts_ok. split.
      * intros [Hin Hall]. split; [discriminate|]. split; [assumption|].
        split; [|intros; contradiction].
        intros i part Hn Hd. right. destruct (Hall i part Hn Hd). split; [lia|assumption].
      * intros (_ & Hin & Hall & _). split; [assumption|].
        intros j part Hn Hd. destruct (Hall j part Hn Hd) as [[H _]|[H1 H2]];
          [contradiction|]. split; [lia|assumption].
Qed.

Lemma element_size_min (e : BSONElement) : 2 <= element_size e.
Proof.
  unfold element_size.
  assert (0 <= valuesize (value e)) by (destruct (value e); cbn [valuesize]; lia).
  lia.
Qed.

Lemma elements_size_nonneg (key : BSONObj) :
  0 <= List.fold_right (fun e n => element_size e + n) 0 key.
Proof.
  induction key as [|e rest IH]; simpl; [lia|].
  pose proof (element_size_min e). lia.
Qed.

Lemma isEmpty_nil (key : BSONObj) : isEmpty key = true <-> key = [].
Proof.
  unfold isEmpty, objsize. destruct key as [|e rest].
  - split; reflexivity.
  - cbn [List.fold_right].
    pose proof (elements_size_nonneg rest).
    pose proof (element_size_min e).
    split; [rewrite Z.leb_le; lia|discriminate].
Qed.

Lemma findPluginName_shared (Q : string) (key : BSONObj) :
  (forall e, In e key -> good_number e \/ value e = BString Q) ->
  findPluginName key = Q \/
  (findPluginName key = "" /\ forall e, In e key -> good_number e).
Proof.
  induction key as [|e rest IH]; intros H; simpl.
  - right. split; [reflexivity|]. intros e [].
  - destruct (H e (or_introl eq_refl)) as [Hn|Hs].
    + pose proof Hn as [Hnum _]. unfold isNumber in Hnum.
      destruct IH as [IH|[IH1 IH2]].
      * intros e' Hin. apply H. right. assumption.
      * left. destruct (value e); try discriminate; assumption.
      * right. split; [destruct (value e); try discriminate; assumption|].
        intros e' [<-|Hin]; auto.
    + rewrite Hs. left. reflexivity.
Qed.


(** C5: [validateKeyPattern] returns OK exactly for the key patterns that
    are at most 2048 bytes, not empty, whose every element is a number neither
    NaN nor 0 or a string equal to one known plugin name shared by all the
    string elements, and whose field paths are not empty, have no empty
    component, and have no component starting with '$' other than the whole
    field name "$**" with value "text" and the components $db, $id, $ref
    after the first, "_fts" being allowed only with value "text"; every
    failure has the code CannotCreateIndex. *)
Theorem validateKeyPattern_ok_iff (key : BSONObj) :
  (validateKeyPattern key = OK <-> valid_key_pattern key) /\
  (forall code reason,
      validateKeyPattern key = Error code reason -> code = CannotCreateIndex).
Proof.
  split; [|intros; eapply validate_code; eassumption].
  unfold validateKeyPattern, valid_key_pattern.
  destruct (Z.ltb_spec 2048 (objsize key)) as [Hbig|Hsz].
  { split; [discriminate|]. intros [H _]. lia. }
  destruct (isEmpty key) eqn:Hemp.
  { apply isEmpty_nil in Hemp. split; [discriminate|]. intros (_ & H & _). contradiction. }
  assert (Hne : key <> []).
  { intros H. apply isEmpty_nil in H. congruence. }
  set (P := findPluginName key).
  destruct (isKnownName P) eqn:HP.
  - rewrite andb_false_r. rewrite check_elements_ok. split.
    + intros Hall. split; [assumption|]. split; [assumption|].
      split.
      * exists P. split; [assumption|]. intros e Hin.
        apply value_checks_ok. apply (check_element_split CannotCreateIndex).
        apply Hall. assumption.
      * intros e Hin. specialize (Hall e Hin).
        apply check_element_split in Hall as [Hv Hp].
        apply value_checks_ok in Hv.
        apply (path_checks_ok CannotCreateIndex P); assumption.
    + intros (_ & _ & (Q & HQ & Hvals) & Hpaths) e Hin.
      assert (Hv : good_number e \/ value e = BString P).
      { destruct (findPluginName_shared Q key Hvals) as [E|[_ Hnum]].
        - fold P in E. rewrite E. auto.
        - left. auto. }
      apply check_element_split. split.
      * apply value_checks_ok. assumption.
      * apply (path_checks_ok CannotCreateIndex P); auto.
  - assert (Hlen : Nat.eqb (String.length P) 0 = false).
    { destruct P; [discriminate HP|reflexivity]. }
    rewrite Hlen. simpl. split; [discriminate|].
    intros (_ & _ & (Q & HQ & Hvals) & _).
    destruct (findPluginName_shared Q key Hvals) as [E|[E _]]; fold P in E.
    + congruence.
    + rewrite E in HP. discriminate.
Qed.

End IndexKeyValidate.

(** ** The LSM tree and its merged cursor

    [lsm.h] declares the structures; the functions that switch, merge and
    read chunks are not among the sources.  They are modelled here from the
    specification of the engine, over the structures of [Lsm]. *)

Module LsmModel.
Import Bits Lsm.

(** *** Chunk lifecycle *)

(** The tree [t] with its chunk arrays, last allocated id and structural
    generation replaced. *)
Definition set_chunks (t : __wt_lsm_tree)
    (chunk' old_chunks' : list __wt_lsm_chunk) (last' dsk_gen' : Z)
  : __wt_lsm_tree :=
  {| name := name t; key_format := key_format t;
     value_format := value_format t; tree_refcnt := tree_refcnt t;
     queue_ref := queue_ref t; tree_dsk_gen := dsk_gen';
     ckpt_throttle := ckpt_throttle t; merge_throttle := merge_throttle t;
     chunk_fill_ms := chunk_fill_ms t;
     merge_progressing := merge_progressing t;
     bloom_bit_count := bloom_bit_count t;
     bloom_hash_count := bloom_hash_count t;
     chunk_size := chunk_size t; chunk_max := chunk_max t;
     merge_min := merge_min t; merge_max := merge_max t;
     merge_threads := merge_threads t; merge_idle := merge_idle t;
     bloom := bloom t;
     worker_sessions := worker_sessions t; worker_tids := worker_tids t;
     ckpt_session := ckpt_session t; ckpt_tid := ckpt_tid t;
     chunk := chunk'; chunk_alloc := chunk_alloc t;
     nchunks := Z.of_nat (List.length chunk');
     last := last'; modified := modified t;
     old_chunks := old_chunks'; old_alloc := old_alloc t;
     nold_chunks := Z.of_nat (List.length old_chunks');
     freeing_old_chunks := freeing_old_chunks t;
     merge_aggressiveness := merge_aggressiveness t;
     tree_flags := tree_flags t; flags_atomic := flags_atomic t |}.

Definition set_flags (c : __wt_lsm_chunk) (flags' : Z) : __wt_lsm_chunk :=
  {| uri := uri c; bloom_uri := bloom_uri c; create_ts := create_ts c;
     count := count c; size := size c; switch_txn := switch_txn c;
     id := id c; generation := generation c; refcnt := refcnt c;
     bloom_busy := bloom_busy c; empty := empty c; evicted := evicted c;
     flags := flags' |}.

Definition set_switch_txn (c : __wt_lsm_chunk) (txn : Z) : __wt_lsm_chunk :=
  {| uri := uri c; bloom_uri := bloom_uri c; create_ts := create_ts c;
     count := count c; size := size c; switch_txn := txn;
     id := id c; generation := generation c; refcnt := refcnt c;
     bloom_busy := bloom_busy c; empty := empty c; evicted := evicted c;
     flags := flags c |}.

Definition has_flag (c : __wt_lsm_chunk) (mask : Z) : bool :=
  negb (F_ISSET (flags c) mask =? 0).

(** Modelled from the spec: the chunk a switch creates (the function is not
    in the sources).  "Create: switch produces a new primary (generation 0,
    STABLE=0, ONDISK=0)". *)
Definition new_primary (t : __wt_lsm_tree) (new_id : Z) : __wt_lsm_chunk :=
  {| uri := name t; bloom_uri := None; create_ts := (0, 0);
     count := 0; size := 0; switch_txn := 0;
     id := new_id; generation := 0; refcnt := 0;
     bloom_busy := 0; empty := 0; evicted := 0;
     flags := 0 |}.

(** Modelled from the spec: the switch (the function is not in the sources).
    "Switch out: the previous primary acquires its switch_txn and becomes
    STABLE"; the new primary is appended, the active list being ordered
    oldest to newest, and its id is the last id plus one. *)
Definition switch_out (txn : Z) (c : __wt_lsm_chunk) : __wt_lsm_chunk :=
  set_flags (set_switch_txn c txn) (F_SET (flags c) WT_LSM_CHUNK_STABLE).

Fixpoint switch_last (txn : Z) (cs : list __wt_lsm_chunk)
  : list __wt_lsm_chunk :=
  match cs with
  | [] => []
  | [c] => [switch_out txn c]
  | c :: rest => c :: switch_last txn rest
  end.

Definition tree_switch (t : __wt_lsm_tree) (txn : Z) : __wt_lsm_tree :=
  set_chunks t
    (switch_last txn (chunk t) ++ [new_primary t (last t + 1)])
    (old_chunks t) (last t + 1) (tree_dsk_gen t + 1).

(** Modelled from the spec: flush and bloom set ONDISK and BLOOM on a STABLE
    chunk (the functions are not in the sources). *)
Fixpoint update_nth (i : nat) (f : __wt_lsm_chunk -> __wt_lsm_chunk)
    (cs : list __wt_lsm_chunk) : list __wt_lsm_chunk :=
  match cs, i with
  | [], _ => []
  | c :: rest, O => f c :: rest
  | c :: rest, S j => c :: update_nth j f rest
  end.

Definition tree_set_flag (mask : Z) (t : __wt_lsm_tree) (i : nat)
  : option __wt_lsm_tree :=
  match nth_error (chunk t) i with
  | Some c =>
      if has_flag c WT_LSM_CHUNK_STABLE then
        Some (set_chunks t
                (update_nth i (fun c => set_flags c (F_SET (flags c) mask))
                   (chunk t))
                (old_chunks t) (last t) (tree_dsk_gen t))
      else None
  | None => None
  end.

Definition tree_flush := tree_set_flag WT_LSM_CHUNK_ONDISK.
Definition tree_bloom := tree_set_flag WT_LSM_CHUNK_BLOOM.

(** The largest generation of a list of chunks. *)
Definition max_generation (cs : list __wt_lsm_chunk) : Z :=
  List.fold_right (fun c g => Z.max (generation c) g) 0 cs.

Definition total (f : __wt_lsm_chunk -> Z) (cs : list __wt_lsm_chunk) : Z :=
  List.fold_right (fun c n => f c + n) 0 cs.

(** Modelled from the spec: the chunk a merge produces (the function is not
    in the sources).  "merge outputs have generation =
    max(inputs.generation) + 1".  The id of the output is left to the
    caller. *)
Definition merge_output (t : __wt_lsm_tree) (inputs : list __wt_lsm_chunk)
    (out_id : Z) : __wt_lsm_chunk :=
  {| uri := name t; bloom_uri := None; create_ts := (0, 0);
     count := total count inputs; size := total size inputs;
     switch_txn := List.fold_right (fun c n => Z.max (switch_txn c) n) 0 inputs;
     id := out_id; generation := max_generation inputs + 1; refcnt := 0;
     bloom_busy := 0; empty := 0; evicted := 0;
     flags := Z.lor WT_LSM_CHUNK_ONDISK WT_LSM_CHUNK_STABLE |}.

(** The chunks that may be merged: a contiguous, non-empty run of the active
    array whose length is between [merge_min] and [merge_max], none of them
    MERGING, all of them STABLE, of combined size at most [chunk_max]. *)
Definition mergeable (t : __wt_lsm_tree) (inputs : list __wt_lsm_chunk) (n : nat)
  : bool :=
  Nat.ltb 0 n && Nat.eqb (List.length inputs) n &&
  (merge_min t <=? Z.of_nat n) && (Z.of_nat n <=? merge_max t) &&
  List.forallb (fun c => has_flag c WT_LSM_CHUNK_STABLE &&
                         negb (has_flag c WT_LSM_CHUNK_MERGING)) inputs &&
  (total size inputs <=? chunk_max t).

(** Modelled from the spec: the merge (the function is not in the sources).
    "selects a contiguous range of active chunks ..., produces one output
    chunk, atomically replaces the range in the active array with the output,
    moves originals to old_chunks", with MERGING cleared. *)
Definition tree_merge (t : __wt_lsm_tree) (start n : nat) (out_id : Z)
  : option __wt_lsm_tree :=
  let inputs := List.firstn n (List.skipn start (chunk t)) in
  if mergeable t inputs n then
    Some (set_chunks t
            (List.firstn start (chunk t) ++ [merge_output t inputs out_id]
               ++ List.skipn (start + n) (chunk t))
            (old_chunks t ++
               List.map (fun c => set_flags c (F_CLR (flags c) WT_LSM_CHUNK_MERGING))
                 inputs)
            (Z.max (last t) out_id) (tree_dsk_gen t + 1))
  else None.

(** Modelled from the spec: the drop (the function is not in the sources).
    Old chunks with no reference are removed. *)
Definition tree_drop (t : __wt_lsm_tree) : __wt_lsm_tree :=
  set_chunks t (chunk t)
    (List.filter (fun c => negb (refcnt c =? 0)) (old_chunks t))
    (last t) (tree_dsk_gen t).

(** Modelled from the spec: the tree as [open] leaves it (the function is not
    in the sources): one primary chunk, of id 1. *)
Definition tree_open (tree_name : string)
    (merge_min' merge_max' chunk_size' chunk_max' : Z) : __wt_lsm_tree :=
  let t0 :=
    {| name := tree_name; key_format := "u"; value_format := "u";
       tree_refcnt := 1; queue_ref := 0; tree_dsk_gen := 0;
       ckpt_throttle := 0; merge_throttle := 0; chunk_fill_ms := 0;
       merge_progressing := 0; bloom_bit_count := 16; bloom_hash_count := 8;
       chunk_size := chunk_size'; chunk_max := chunk_max';
       merge_min := merge_min'; merge_max := merge_max';
       merge_threads := 1; merge_idle := 0; bloom := 0;
       worker_sessions := Vector.const None WT_LSM_MAX_WORKERS;
       worker_tids := Vector.const 0 WT_LSM_MAX_WORKERS;
       ckpt_session := None; ckpt_tid := 0;
       chunk := []; chunk_alloc := 0; nchunks := 0; last := 0; modified := 0;
       old_chunks := []; old_alloc := 0; nold_chunks := 0;
       freeing_old_chunks := 0; merge_aggressiveness := 0;
       tree_flags := Z.lor WT_LSM_TREE_ACTIVE WT_LSM_TREE_OPEN;
       flags_atomic := 0 |} in
  set_chunks t0 [new_primary t0 1] [] 1 1.

(** The states a tree reaches from [open] by switches, flushes, bloom
    constructions, merges and drops. *)
Inductive reachable : __wt_lsm_tree -> Prop :=
| reach_open (tree_name : string) (mmin mmax csize cmax : Z) :
    reachable (tree_open tree_name mmin mmax csize cmax)
| reach_switch (t : __wt_lsm_tree) (txn : Z) :
    reachable t -> reachable (tree_switch t txn)
| reach_flush (t t' : __wt_lsm_tree) (i : nat) :
    reachable t -> tree_flush t i = Some t' -> reachable t'
| reach_bloom (t t' : __wt_lsm_tree) (i : nat) :
    reachable t -> tree_bloom t i = Some t' -> reachable t'
| reach_merge (t t' : __wt_lsm_tree) (start n : nat) (out_id : Z) :
    reachable t -> tree_merge t start n out_id = Some t' -> reachable t'
| reach_drop (t : __wt_lsm_tree) :
    reachable t -> reachable (tree_drop t).

(** Generations non-decreasing along the active array. *)
Definition generations_monotone (cs : list __wt_lsm_chunk) : Prop :=
  forall i a b,
    nth_error cs i = Some a -> nth_error cs (S i) = Some b ->
    generation a <= generation b.

(** Scenario: two switches, then a merge of the two sealed chunks. *)
Definition tree_before_merge : __wt_lsm_tree :=
  tree_switch (tree_switch (tree_open "t" 2 4 1000 10000) 10) 20.

Definition tree_after_merge : __wt_lsm_tree :=
  match tree_merge tree_before_merge 0 2 4 with
  | Some t => t
  | None => tree_before_merge
  end.

(** The inputs of a merge of [n] chunks from position [start]. *)
Definition merge_inputs (t : __wt_lsm_tree) (start n : nat)
  : list __wt_lsm_chunk :=
  List.firstn n (List.skipn start (chunk t)).

(** *** Merged cursor *)

(** Modelled from the spec: a write (the record store is not in the
    sources): its key, the id of the transaction that wrote it, and its
    value, [None] for a tombstone. *)
Record update := {
  u_key : Z;
  u_txn : Z;
  u_value : option Z
}.

(** Modelled from the spec: a chunk as a cursor reads it (the chunk files and
    the Bloom filter are not in the sources): its metadata, its writes
    (newest first) and the answer of its Bloom filter ([false]: absent). *)
Record chunk_view := {
  cv_chunk : __wt_lsm_chunk;
  cv_data : list update;
  cv_bloom : Z -> bool
}.

(** Modelled from the spec: the tree as a cursor reads it: the structural
    generation and the active chunks, oldest to newest. *)
Record lsm_view := {
  v_dsk_gen : Z;
  v_chunks : list chunk_view
}.

Inductive direction := forward | backward.

Inductive result :=
| FOUND (u : update)
| NOT_FOUND.

(** Modelled from the spec: the read view of a snapshot (the transaction
    subsystem is not in the sources).  "A reader opened with snapshot T sees
    all writes with txn_id <= T and no writes with txn_id > T"; a cursor
    without snapshot reads every write. *)
Definition visible (snapshot : option Z) (u : update) : bool :=
  match snapshot with
  | Some T => u_txn u <=? T
  | None => true
  end.

(** Modelled from the spec: the sub-cursor over one chunk (not in the
    sources), with the capabilities search, next and prev.  [sub_search]
    positions on the newest visible write of [key]. *)
Definition sub_search (snapshot : option Z) (cv : chunk_view) (key : Z)
  : option update :=
  List.find (fun u => (u_key u =? key) && visible snapshot u) (cv_data cv).

Definition beyond (dir : direction) (bound : option Z) (k : Z) : bool :=
  match bound, dir with
  | None, _ => true
  | Some b, forward => b <? k
  | Some b, backward => k <? b
  end.

(** [before dir k1 k2]: [k1] comes no later than [k2] in the direction. *)
Definition before (dir : direction) (k1 k2 : Z) : bool :=
  match dir with
  | forward => k1 <=? k2
  | backward => k2 <=? k1
  end.

Fixpoint first_key (dir : direction) (keys : list Z) (best : option Z)
  : option Z :=
  match keys with
  | [] => best
  | k :: rest =>
      first_key dir rest
        (match best with
         | None => Some k
         | Some b => if before dir k b then Some k else Some b
         end)
  end.

(** Modelled from the spec: the sub-cursor's next (or previous) position
    beyond [bound] (the sub-cursor is not in the sources), on the newest
    visible write of the nearest key. *)
Definition sub_step (dir : direction) (snapshot : option Z) (cv : chunk_view)
    (bound : option Z) : option update :=
  let keys :=
    List.map u_key
      (List.filter (fun u => visible snapshot u && beyond dir bound (u_key u))
         (cv_data cv)) in
  match first_key dir keys None with
  | Some k => sub_search snapshot cv k
  | None => None
  end.

(** Modelled from the spec: the state of a merged cursor that its operations
    use (they are not in the sources): the snapshot transaction id recorded
    under OPEN_SNAPSHOT, the flags, the structural generation captured, the
    current record, and the position of each sub-cursor. *)
Record clsm := {
  c_snapshot : option Z;
  c_flags : Z;
  c_dsk_gen : Z;
  c_current : option update;
  c_subs : list (option update)
}.

(** Modelled from the spec: opening a cursor (not in the sources).  "If
    OPEN_SNAPSHOT, it records the snapshot transaction id". *)
Definition clsm_open (flags txn_id dsk_gen : Z) : clsm :=
  {| c_snapshot :=
       if F_ISSET flags WT_CLSM_OPEN_SNAPSHOT =? 0 then None else Some txn_id;
     c_flags := flags; c_dsk_gen := dsk_gen; c_current := None;
     c_subs := [] |}.

(** Modelled from the spec: one sub-cursor per active chunk, "skipping
    empty" (the cursor's open is not in the sources). *)
Definition sub_chunks (view : lsm_view) : list chunk_view :=
  List.filter (fun cv => empty (cv_chunk cv) =? 0) (v_chunks view).

Definition clear_iterate (flags : Z) : Z :=
  F_CLR (F_CLR flags WT_CLSM_ITERATE_NEXT) WT_CLSM_ITERATE_PREV.

(** Modelled from the spec: structural invalidation (not in the sources).
    "Before every operation the cursor compares the tree's current dsk_gen
    against its captured value; on mismatch it rebuilds its sub-cursor
    array". *)
Definition clsm_enter (view : lsm_view) (c : clsm) : clsm :=
  if c_dsk_gen c =? v_dsk_gen view then c
  else
    {| c_snapshot := c_snapshot c;
       c_flags := clear_iterate (c_flags c);
       c_dsk_gen := v_dsk_gen view;
       c_current := c_current c;
       c_subs := List.map (fun _ => None) (sub_chunks view) |}.

(** Modelled from the spec: the point lookup (not in the sources).  "iterate
    sub-cursors newest to oldest; if a sub-cursor's chunk has a Bloom filter
    and the filter reports absent, skip it; otherwise position the
    sub-cursor; on hit, check whether the record is a tombstone (return
    NOT_FOUND) else return the value".  [chunks] is newest first. *)
Fixpoint lookup (snapshot : option Z) (key : Z) (chunks : list chunk_view)
  : option update :=
  match chunks with
  | [] => None
  | cv :: older =>
      if has_flag (cv_chunk cv) WT_LSM_CHUNK_BLOOM && negb (cv_bloom cv key)
      then lookup snapshot key older
      else
        match sub_search snapshot cv key with
        | Some u => Some u
        | None => lookup snapshot key older
        end
  end.

Definition clsm_search (view : lsm_view) (c : clsm) (key : Z) : clsm * result :=
  let c := clsm_enter view c in
  let hit := lookup (c_snapshot c) key (List.rev (sub_chunks view)) in
  let r :=
    match hit with
    | Some u => match u_value u with Some _ => FOUND u | None => NOT_FOUND end
    | None => NOT_FOUND
    end in
  ({| c_snapshot := c_snapshot c;
      c_flags := clear_iterate (c_flags c);
      c_dsk_gen := c_dsk_gen c;
      c_current := match r with FOUND u => Some u | NOT_FOUND => None end;
      c_subs := c_subs c |}, r).

(** Modelled from the spec: the first half of an iteration step (not in the
    sources): "advance every sub-cursor that currently reports the same key
    as current". *)
Fixpoint advance (dir : direction) (snapshot : option Z)
    (chunks : list chunk_view) (subs : list (option update)) (cur : option Z)
  : list (option update) :=
  match chunks, subs with
  | cv :: chunks', pos :: subs' =>
      (match pos, cur with
       | Some p, Some k =>
           if u_key p =? k then sub_step dir snapshot cv (Some k) else pos
       | _, _ => pos
       end) :: advance dir snapshot chunks' subs' cur
  | _, _ => []
  end.

(** Modelled from the spec: the second half of an iteration step (not in the
    sources): "choose the new current as the sub-cursor with the smallest
    (forward) or largest (reverse) key ...; within ties, the newest chunk
    wins".  [subs] is oldest to newest. *)
Fixpoint choose (dir : direction) (subs : list (option update))
    (best : option update) : option update :=
  match subs with
  | [] => best
  | None :: rest => choose dir rest best
  | Some u :: rest =>
      choose dir rest
        (match best with
         | None => Some u
         | Some b => if before dir (u_key u) (u_key b) then Some u else Some b
         end)
  end.

(** Modelled from the spec: the steps of an iteration until a record is
    returned (not in the sources): "Tombstones are skipped unless MINOR_MERGE
    is set".  [fuel] bounds the number of tombstones passed over in one
    call. *)
Fixpoint iterate (fuel : nat) (dir : direction) (snapshot : option Z)
    (minor : bool) (chunks : list chunk_view) (subs : list (option update))
    (cur : option Z) : list (option update) * option update :=
  match fuel with
  | O => (subs, None)
  | S fuel' =>
      let subs := advance dir snapshot chunks subs cur in
      match choose dir subs None with
      | None => (subs, None)
      | Some u =>
          match u_value u with
          | None =>
              if minor then (subs, Some u)
              else iterate fuel' dir snapshot minor chunks subs (Some (u_key u))
          | Some _ => (subs, Some u)
          end
      end
  end.

Definition iterate_flag (dir : direction) : Z :=
  match dir with
  | forward => WT_CLSM_ITERATE_NEXT
  | backward => WT_CLSM_ITERATE_PREV
  end.

Definition same_key_count (k : Z) (subs : list (option update)) : nat :=
  List.length
    (List.filter (fun pos => match pos with
                             | Some p => u_key p =? k
                             | None => false
                             end) subs).

(** Modelled from the spec: a step of the ordered iteration (not in the
    sources).  A cursor not yet iterating in the direction positions every
    sub-cursor beyond the current key first. *)
Definition clsm_step (dir : direction) (view : lsm_view) (c : clsm)
  : clsm * result :=
  let c := clsm_enter view c in
  let chunks := sub_chunks view in
  let cur := option_map u_key (c_current c) in
  let iterating := negb (F_ISSET (c_flags c) (iterate_flag dir) =? 0) in
  let subs :=
    if iterating then c_subs c
    else List.map (fun cv => sub_step dir (c_snapshot c) cv cur) chunks in
  let fuel :=
    S (List.length chunks +
       List.fold_right (fun cv n => (List.length (cv_data cv) + n)%nat) 0%nat
         chunks) in
  let minor := negb (F_ISSET (c_flags c) WT_CLSM_MINOR_MERGE =? 0) in
  let '(subs, hit) := iterate fuel dir (c_snapshot c) minor chunks subs cur in
  let flags := F_SET (clear_iterate (c_flags c)) (iterate_flag dir) in
  let flags :=
    match hit with
    | Some u =>
        if Nat.ltb 1 (same_key_count (u_key u) subs)
        then F_SET flags WT_CLSM_MULTIPLE
        else F_CLR flags WT_CLSM_MULTIPLE
    | None => F_CLR flags WT_CLSM_MULTIPLE
    end in
  ({| c_snapshot := c_snapshot c;
      c_flags := flags;
      c_dsk_gen := c_dsk_gen c;
      c_current := hit;
      c_subs := subs |},
   match hit with Some u => FOUND u | None => NOT_FOUND end).

Definition clsm_next := clsm_step forward.
Definition clsm_prev := clsm_step backward.

(** Modelled from the spec: reset (not in the sources). *)
Definition clsm_reset (c : clsm) : clsm :=
  {| c_snapshot := c_snapshot c;
     c_flags := clear_iterate (c_flags c);
     c_dsk_gen := c_dsk_gen c;
     c_current := None;
     c_subs := List.map (fun _ => None) (c_subs c) |}.

(** The cursor states reached from [open] by searches, steps and resets,
    over any views of the tree. *)
Inductive cursor_reachable : clsm -> Prop :=
| cr_open (flags txn_id dsk_gen : Z) :
    cursor_reachable (clsm_open flags txn_id dsk_gen)
| cr_search (view : lsm_view) (c : clsm) (key : Z) :
    cursor_reachable c -> cursor_reachable (fst (clsm_search view c key))
| cr_step (dir : direction) (view : lsm_view) (c : clsm) :
    cursor_reachable c -> cursor_reachable (fst (clsm_step dir view c))
| cr_reset (c : clsm) :
    cursor_reachable c -> cursor_reachable (clsm_reset c).

(** Every position of the cursor is a write its snapshot sees. *)
Definition seen (snapshot : option Z) (pos : option update) : Prop :=
  match pos with
  | Some u => visible snapshot u = true
  | None => True
  end.

Definition positions_seen (c : clsm) : Prop :=
  Forall (seen (c_snapshot c)) (c_subs c).

(** Scenario: a sealed chunk holding, among others, the write of key 7 by
    transaction 6, and the primary; cursor A reads at snapshot 5, cursor B at
    snapshot 7. *)
Definition scenario_chunk (chunk_id chunk_flags txn : Z) : __wt_lsm_chunk :=
  {| uri := "t"; bloom_uri := None; create_ts := (0, 0);
     count := 0; size := 0; switch_txn := txn;
     id := chunk_id; generation := 0; refcnt := 0;
     bloom_busy := 0; empty := 0; evicted := 0;
     flags := chunk_flags |}.

Definition wrote (k txn : Z) (v : option Z) : update :=
  {| u_key := k; u_txn := txn; u_value := v |}.

Definition scenario_view : lsm_view :=
  {| v_dsk_gen := 2;
     v_chunks :=
       [ {| cv_chunk := scenario_chunk 1 WT_LSM_CHUNK_STABLE 6;
            cv_data := [wrote 7 6 (Some 98); wrote 3 2 (Some 1);
                        wrote 5 4 None; wrote 9 1 (Some 4)];
            cv_bloom := fun _ => true |};
         {| cv_chunk := scenario_chunk 2 0 0;
            cv_data := [wrote 3 5 (Some 33); wrote 8 9 (Some 5)];
            cv_bloom := fun _ => true |} ] |}.

Definition cursor_A : clsm :=
  clsm_open (Z.lor WT_CLSM_OPEN_READ WT_CLSM_OPEN_SNAPSHOT) 5 1.

Definition cursor_B : clsm :=
  clsm_open (Z.lor WT_CLSM_OPEN_READ WT_CLSM_OPEN_SNAPSHOT) 7 1.

(** *** Properties of the chunk lifecycle *)

Lemma max_generation_ge (cs : list __wt_lsm_chunk) (c : __wt_lsm_chunk) :
  In c cs -> generation c <= max_generation cs.
Proof.
  induction cs as [|c0 rest IH]; simpl; [intros []|].
  intros [->|Hin]; [lia|]. specialize (IH Hin). lia.
Qed.

Lemma reachable_before_merge : reachable tree_before_merge.
Proof. unfold tree_before_merge. do 2 apply reach_switch. apply reach_open. Qed.

Lemma merge_scenario :
  tree_merge tree_before_merge 0 2 4 = Some tree_after_merge.
Proof. vm_compute. reflexivity. Qed.

Lemma reachable_after_merge : reachable tree_after_merge.
Proof.
  eapply reach_merge; [apply reachable_before_merge | apply merge_scenario].
Qed.

(** C2 as stated fails: after two switches and a merge of the two sealed
    chunks, the active array holds the merge output, of generation 1, before
    the primary, of generation 0. *)
Lemma generations_not_monotone :
  ~ (forall t, reachable t ->
       generations_monotone (chunk t) /\
       forall start n out_id t',
         tree_merge t start n out_id = Some t' ->
         exists out, nth_error (chunk t') start = Some out /\
           generation out = max_generation (merge_inputs t start n) + 1).
Proof.
  intros H.
  destruct (H tree_after_merge reachable_after_merge) as [Hmono _].
  assert (Hgen : List.map generation (chunk tree_after_merge) = [1; 0])
    by (vm_compute; reflexivity).
  destruct (chunk tree_after_merge) as [|a [|b [|c rest]]];
    try discriminate Hgen.
  injection Hgen as Ha Hb.
  specialize (Hmono 0%nat a b eq_refl eq_refl). lia.
Qed.

(** C2, amended: at every reachable state, the chunk a merge puts in place
    of its inputs has generation equal to the largest generation of the
    inputs plus 1, above the generation of every input; the chunks before
    and after the merged range are unchanged.  Nothing is claimed on the
    order of generations along the active array. *)
Theorem merge_output_generation
    (t t' : __wt_lsm_tree) (start n : nat) (out_id : Z) :
  reachable t ->
  tree_merge t start n out_id = Some t' ->
  exists out,
    nth_error (chunk t') start = Some out /\
    generation out = max_generation (merge_inputs t start n) + 1 /\
    (forall c, In c (merge_inputs t start n) -> generation c < generation out) /\
    chunk t' = List.firstn start (chunk t) ++ out
                 :: List.skipn (start + n) (chunk t).
Proof.
  intros _ Hm. unfold tree_merge in Hm. fold (merge_inputs t start n) in Hm.
  destruct (mergeable t (merge_inputs t start n) n) eqn:Hok; [|discriminate].
  injection Hm as <-.
  exists (merge_output t (merge_inputs t start n) out_id).
  unfold mergeable in Hok.
  repeat (apply andb_prop in Hok as [Hok ?]).
  apply Nat.ltb_lt in Hok.
  match goal with H : Nat.eqb _ n = true |- _ => apply Nat.eqb_eq in H; rename H into Hlen end.
  assert (Hstart : List.length (List.firstn start (chunk t)) = start).
  { apply List.firstn_length_le.
    unfold merge_inputs in Hlen. rewrite List.length_firstn, List.length_skipn in Hlen.
    lia. }
  split; [|split; [reflexivity|split; [|reflexivity]]].
  - simpl chunk. rewrite nth_error_app2 by lia.
    rewrite Hstart, Nat.sub_diag. reflexivity.
  - intros c Hin. simpl. pose proof (max_generation_ge _ _ Hin). lia.
Qed.

Lemma merge_output_generation_witness :
  exists out,
    nth_error (chunk tree_after_merge) 0 = Some out /\
    generation out = max_generation (merge_inputs tree_before_merge 0 2) + 1 /\
    (forall c, In c (merge_inputs tree_before_merge 0 2) ->
       generation c < generation out) /\
    chunk tree_after_merge =
      List.firstn 0 (chunk tree_before_merge) ++ out
        :: List.skipn (0 + 2) (chunk tree_before_merge).
Proof.
  apply (merge_output_generation tree_before_merge tree_after_merge 0 2 4).
  - unfold tree_before_merge. do 2 apply reach_switch. apply reach_open.
  - vm_compute. reflexivity.
Defined.

(** *** Properties of the merged cursor *)

Lemma sub_search_seen snapshot cv key u :
  sub_search snapshot cv key = Some u ->
  In u (cv_data cv) /\ u_key u = key /\ visible snapshot u = true.
Proof.
  unfold sub_search. intros H. apply List.find_some in H as [Hin Hb].
  apply andb_prop in Hb as [Hk Hv]. apply Z.eqb_eq in Hk. auto.
Qed.

Lemma sub_step_seen dir snapshot cv bound :
  seen snapshot (sub_step dir snapshot cv bound).
Proof.
  unfold sub_step.
  destruct (first_key dir _ None) as [k|]; [|exact I].
  destruct (sub_search snapshot cv k) as [u|] eqn:E; [|exact I].
  apply sub_search_seen in E. simpl. tauto.
Qed.

Lemma lookup_seen snapshot key chunks u :
  lookup snapshot key chunks = Some u ->
  visible snapshot u = true /\ u_key u = key /\
  exists cv, In cv chunks /\ In u (cv_data cv).
Proof.
  induction chunks as [|cv older IH]; simpl; [discriminate|].
  destruct (has_flag (cv_chunk cv) WT_LSM_CHUNK_BLOOM && negb (cv_bloom cv key)).
  - intros H. destruct (IH H) as (Hv & Hk & cv' & Hin & Hu).
    repeat split; trivial. exists cv'. auto.
  - destruct (sub_search snapshot cv key) as [u'|] eqn:E.
    + intros H. injection H as ->. apply sub_search_seen in E.
      destruct E as (Hin & Hk & Hv). repeat split; trivial. exists cv. auto.
    + intros H. destruct (IH H) as (Hv & Hk & cv' & Hin & Hu).
      repeat split; trivial. exists cv'. auto.
Qed.

Lemma advance_seen dir snapshot chunks :
  forall subs cur,
    Forall (seen snapshot) subs ->
    Forall (seen snapshot) (advance dir snapshot chunks subs cur).
Proof.
  induction chunks as [|cv chunks' IH]; intros subs cur Hs; simpl.
  - apply Forall_nil.
  - destruct subs as [|pos subs']; [apply Forall_nil|].
    inversion Hs as [|? ? Hpos Hrest]; subst.
    apply Forall_cons; [|apply IH; assumption].
    destruct pos as [p|]; [|assumption].
    destruct cur as [k|]; [|assumption].
    destruct (u_key p =? k); [apply sub_step_seen|assumption].
Qed.

Lemma choose_seen dir snapshot subs :
  forall best,
    Forall (seen snapshot) subs -> seen snapshot best ->
    seen snapshot (choose dir subs best).
Proof.
  induction subs as [|pos rest IH]; intros best Hs Hb; simpl; [assumption|].
  inversion Hs as [|? ? Hpos Hrest]; subst.
  destruct pos as [u|]; [|apply IH; assumption].
  apply IH; [assumption|].
  destruct best as [b|]; [|assumption].
  destruct (before dir (u_key u) (u_key b)); assumption.
Qed.

Lemma iterate_seen fuel dir snapshot minor chunks :
  forall subs cur,
    Forall (seen snapshot) subs ->
    Forall (seen snapshot) (fst (iterate fuel dir snapshot minor chunks subs cur)) /\
    seen snapshot (snd (iterate fuel dir snapshot minor chunks subs cur)).
Proof.
  induction fuel as [|fuel' IH]; intros subs cur Hs; simpl.
  - split; [assumption|exact I].
  - pose proof (advance_seen dir snapshot chunks subs cur Hs) as Ha.
    pose proof (choose_seen dir snapshot _ None Ha I) as Hc.
    destruct (choose dir (advance dir snapshot chunks subs cur) None) as [u|];
      [|split; [assumption|exact I]].
    destruct (u_value u).
    + split; assumption.
    + destruct minor; [split; assumption|]. apply IH. assumption.
Qed.

Lemma enter_snapshot view c : c_snapshot (clsm_enter view c) = c_snapshot c.
Proof. unfold clsm_enter. destruct (c_dsk_gen c =? v_dsk_gen view); reflexivity. Qed.

Lemma enter_seen view c : positions_seen c -> positions_seen (clsm_enter view c).
Proof.
  unfold positions_seen, clsm_enter.
  destruct (c_dsk_gen c =? v_dsk_gen view); [trivial|]. intros _. simpl.
  induction (sub_chunks view); simpl; constructor; [exact I|assumption].
Qed.

Lemma search_snapshot view c key :
  c_snapshot (fst (clsm_search view c key)) = c_snapshot c.
Proof. unfold clsm_search. simpl. apply enter_snapshot. Qed.

Lemma step_snapshot dir view c :
  c_snapshot (fst (clsm_step dir view c)) = c_snapshot c.
Proof.
  unfold clsm_step.
  destruct (iterate _ _ _ _ _ _ _) as [subs hit]. simpl. apply enter_snapshot.
Qed.

Lemma step_seen dir view c :
  positions_seen c ->
  positions_seen (fst (clsm_step dir view c)) /\
  forall u, snd (clsm_step dir view c) = FOUND u ->
            visible (c_snapshot c) u = true.
Proof.
  intros Hc. apply (enter_seen view) in Hc.
  unfold clsm_step, positions_seen in *.
  rewrite <- (enter_snapshot view c).
  set (c1 := clsm_enter view c) in *.
  match goal with
  | |- context [iterate ?f ?d ?s ?m ?ch ?sb ?cu] =>
      pose proof (iterate_seen f d s m ch sb cu) as Hit;
      destruct (iterate f d s m ch sb cu) as [subs hit]
  end.
  simpl in *.
  destruct Hit as [Hsubs Hhit].
  { destruct (negb (F_ISSET (c_flags c1) (iterate_flag dir) =? 0));
      [assumption|].
    induction (sub_chunks view); simpl; constructor;
      [apply sub_step_seen|assumption]. }
  split; [assumption|].
  intros u Hu. destruct hit as [u'|]; [|discriminate].
  injection Hu as ->. assumption.
Qed.

Lemma reachable_seen c : cursor_reachable c -> positions_seen c.
Proof.
  induction 1 as [flags txn_id dsk_gen|view c key Hr IH|dir view c Hr IH|c Hr IH].
  - apply Forall_nil.
  - unfold positions_seen. rewrite search_snapshot.
    unfold clsm_search. simpl.
    pose proof (enter_seen view c IH) as H. unfold positions_seen in H.
    rewrite enter_snapshot in H. assumption.
  - apply step_seen. assumption.
  - unfold positions_seen, clsm_reset in *. simpl.
    induction (c_subs c) as [|pos rest IHrest]; simpl; constructor; [exact I|].
    apply IHrest. inversion IH; assumption.
Qed.

(** C1: for a cursor opened with snapshot transaction id T, whatever the
    chunks of the tree hold when it reads, every record that search, next or
    prev returns was written by a transaction with id at most T; the record a
    search returns has the key searched and is a write of one of the chunks. *)
Theorem snapshot_reads_bounded (c : clsm) (T : Z) (view : lsm_view) (u : update) :
  cursor_reachable c ->
  c_snapshot c = Some T ->
  (forall key, snd (clsm_search view c key) = FOUND u ->
     u_txn u <= T /\ u_key u = key /\
     exists cv, In cv (v_chunks view) /\ In u (cv_data cv)) /\
  (snd (clsm_next view c) = FOUND u -> u_txn u <= T) /\
  (snd (clsm_prev view c) = FOUND u -> u_txn u <= T).
Proof.
  intros Hr HT. pose proof (reachable_seen c Hr) as Hseen.
  split; [|split].
  - intros key. unfold clsm_search. simpl. rewrite enter_snapshot, HT.
    destruct (lookup (Some T) key (rev (sub_chunks view))) as [u'|] eqn:E;
      [|discriminate].
    destruct (u_value u'); [|discriminate].
    intros H. injection H as ->.
    apply lookup_seen in E as (Hv & Hk & cv & Hin & Hu).
    simpl in Hv. apply Z.leb_le in Hv.
    repeat split; trivial. exists cv. split; [|assumption].
    apply in_rev in Hin. unfold sub_chunks in Hin.
    apply filter_In in Hin. tauto.
  - intros H. destruct (step_seen forward view c Hseen) as [_ Hv].
    specialize (Hv u H). rewrite HT in Hv. simpl in Hv.
    apply Z.leb_le. assumption.
  - intros H. destruct (step_seen backward view c Hseen) as [_ Hv].
    specialize (Hv u H). rewrite HT in Hv. simpl in Hv.
    apply Z.leb_le. assumption.
Qed.

(** The snapshot scenario of the specification: the write of key 7 by
    transaction 6 is not found at snapshot 5 and is found at snapshot 7. *)
Lemma scenario_snapshot_isolation :
  snd (clsm_search scenario_view cursor_A 7) = NOT_FOUND /\
  snd (clsm_search scenario_view cursor_B 7) = FOUND (wrote 7 6 (Some 98)).
Proof. split; vm_compute; reflexivity. Qed.

Lemma snapshot_reads_bounded_witness :
  let c := fst (clsm_next scenario_view cursor_A) in
  let u := wrote 9 1 (Some 4) in
  (forall key, snd (clsm_search scenario_view c key) = FOUND u ->
     u_txn u <= 5 /\ u_key u = key /\
     exists cv, In cv (v_chunks scenario_view) /\ In u (cv_data cv)) /\
  (snd (clsm_next scenario_view c) = FOUND u -> u_txn u <= 5) /\
  (snd (clsm_prev scenario_view c) = FOUND u -> u_txn u <= 5).
Proof.
  apply (snapshot_reads_bounded
           (fst (clsm_next scenario_view cursor_A)) 5 scenario_view
           (wrote 9 1 (Some 4))).
  - apply cr_step. apply cr_open.
  - vm_compute. reflexivity.
Defined.

End LsmModel.

(** ** The worker pool of a tree, modelled from the specification *)

Module LsmWorkers.
Import Bits Lsm.

(** [v] with its entry [i] replaced by [x]; [v] itself when it has no entry
    [i]. *)
Fixpoint vector_set {A : Type} {n : nat} (v : Vector.t A n) (i : nat) (x : A)
  : Vector.t A n :=
  match v with
  | Vector.nil _ => Vector.nil _
  | Vector.cons _ a _ rest =>
      match i with
      | O => Vector.cons _ x _ rest
      | S j => Vector.cons _ a _ (vector_set rest j x)
      end
  end.

(** The tree [t] with its worker arrays and its flags replaced. *)
Definition set_workers (t : __wt_lsm_tree)
    (sessions : Vector.t ptr WT_LSM_MAX_WORKERS)
    (tids : Vector.t pthread_t WT_LSM_MAX_WORKERS) (flags' : Z)
  : __wt_lsm_tree :=
  {| name := name t; key_format := key_format t;
     value_format := value_format t; tree_refcnt := tree_refcnt t;
     queue_ref := queue_ref t; tree_dsk_gen := tree_dsk_gen t;
     ckpt_throttle := ckpt_throttle t; merge_throttle := merge_throttle t;
     chunk_fill_ms := chunk_fill_ms t;
     merge_progressing := merge_progressing t;
     bloom_bit_count := bloom_bit_count t;
     bloom_hash_count := bloom_hash_count t;
     chunk_size := chunk_size t; chunk_max := chunk_max t;
     merge_min := merge_min t; merge_max := merge_max t;
     merge_threads := merge_threads t; merge_idle := merge_idle t;
     bloom := bloom t;
     worker_sessions := sessions; worker_tids := tids;
     ckpt_session := ckpt_session t; ckpt_tid := ckpt_tid t;
     chunk := chunk t; chunk_alloc := chunk_alloc t;
     nchunks := nchunks t;
     last := last t; modified := modified t;
     old_chunks := old_chunks t; old_alloc := old_alloc t;
     nold_chunks := nold_chunks t;
     freeing_old_chunks := freeing_old_chunks t;
     merge_aggressiveness := merge_aggressiveness t;
     tree_flags := flags'; flags_atomic := flags_atomic t |}.

(** The manager [m] with its count of workers replaced. *)
Definition set_lsm_workers (m : __wt_lsm_manager) (n : Z) : __wt_lsm_manager :=
  {| switchqh := switchqh m; appqh := appqh m; managerqh := managerqh m;
     switch_lock := switch_lock m; app_lock := app_lock m;
     manager_lock := manager_lock m; work_cond := work_cond m;
     lsm_workers := n; lsm_workers_max := lsm_workers_max m;
     lsm_worker_cookies := lsm_worker_cookies m |}.

(** Modelled from the spec: the worker pool of a tree (the functions that
    start and stop the workers are not in the sources, which only declare
    the arrays and the counts).  Its state is the manager, the tree, and the
    worker threads that run, in the order they were started.  The checkpoint
    worker of a tree, which the spec counts apart ("plus one checkpoint worker
    per tree") and for which the tree has [ckpt_session] and [ckpt_tid], is
    not one of them. *)
Record pool := {
  pool_manager : __wt_lsm_manager;
  pool_tree : __wt_lsm_tree;
  pool_threads : list pthread_t
}.

(** Modelled from the spec: the pool as [open] leaves it (the function is
    not in the sources): no worker runs, no worker is recorded, and
    [lsm_workers_max] is as configured. *)
Definition pool_open (m : __wt_lsm_manager) (t : __wt_lsm_tree)
    (workers_max : Z) : pool :=
  {| pool_manager :=
       {| switchqh := switchqh m; appqh := appqh m; managerqh := managerqh m;
          switch_lock := switch_lock m; app_lock := app_lock m;
          manager_lock := manager_lock m; work_cond := work_cond m;
          lsm_workers := 0; lsm_workers_max := workers_max;
          lsm_worker_cookies := lsm_worker_cookies m |};
     pool_tree :=
       set_workers t (Vector.const None WT_LSM_MAX_WORKERS)
         (Vector.const 0 WT_LSM_MAX_WORKERS)
         (F_SET (tree_flags t) (Z.lor WT_LSM_TREE_ACTIVE WT_LSM_TREE_OPEN));
     pool_threads := [] |}.

(** Modelled from the spec: the start of a worker (the function is not in
    the sources).  "[lsm_workers_max] caps total workers" and the pool is "a
    bounded pool of worker threads (at most WT_LSM_MAX_WORKERS, configurable
    up to [lsm_workers_max])": a worker is started only while the count of
    workers is below both.  The worker takes the next entry of the arrays of
    the tree: its session in [worker_sessions] ("Passed to thread_create"),
    its thread in [worker_tids] ("LSM worker thread(s)"), and "Current number
    of LSM workers" counts it. *)
Definition worker_start (s : pool) (session : handle) (tid : pthread_t)
  : option pool :=
  let m := pool_manager s in
  let t := pool_tree s in
  let n := lsm_workers m in
  if (n <? lsm_workers_max m) && (n <? Z.of_nat WT_LSM_MAX_WORKERS) then
    Some {| pool_manager := set_lsm_workers m (n + 1);
            pool_tree :=
              set_workers t
                (vector_set (worker_sessions t) (Z.to_nat n) (Some session))
                (vector_set (worker_tids t) (Z.to_nat n) tid)
                (tree_flags t);
            pool_threads := pool_threads s ++ [tid] |}
  else None.

(** Modelled from the spec: "[worker_stop] clears ACTIVE, signals the
    condition variable broadcast, and joins every worker thread" (the
    function is not in the sources): no worker runs afterwards. *)
Definition worker_stop (s : pool) : pool :=
  let t := pool_tree s in
  {| pool_manager := set_lsm_workers (pool_manager s) 0;
     pool_tree :=
       set_workers t (worker_sessions t) (worker_tids t)
         (F_CLR (tree_flags t) WT_LSM_TREE_ACTIVE);
     pool_threads := [] |}.

(** The states a pool reaches from [open] by starting workers and stopping
    them. *)
Inductive reachable : pool -> Prop :=
| reach_open (m : __wt_lsm_manager) (t : __wt_lsm_tree) (workers_max : Z) :
    reachable (pool_open m t workers_max)
| reach_start (s s' : pool) (session : handle) (tid : pthread_t) :
    reachable s -> worker_start s session tid = Some s' -> reachable s'
| reach_stop (s : pool) :
    reachable s -> reachable (worker_stop s).

(** What holds of every reachable pool: the count of workers is the number
    of threads that run and is within the arrays, and the thread started
    [i]-th has entry [i] of both arrays. *)
Definition pool_inv (s : pool) : Prop :=
  let n := lsm_workers (pool_manager s) in
  let t := pool_tree s in
  0 <= n <= Z.of_nat WT_LSM_MAX_WORKERS /\
  n <= Z.max 0 (lsm_workers_max (pool_manager s)) /\
  Z.of_nat (List.length (pool_threads s)) = n /\
  forall i tid,
    nth_error (pool_threads s) i = Some tid ->
    nth_error (Vector.to_list (worker_tids t)) i = Some tid /\
    exists session,
      nth_error (Vector.to_list (worker_sessions t)) i = Some (Some session).

(** A manager and a tree to open a pool from. *)
Definition manager0 : __wt_lsm_manager :=
  {| switchqh := []; appqh := []; managerqh := [];
     switch_lock := false; app_lock := false; manager_lock := false;
     work_cond := None; lsm_workers := 0; lsm_workers_max := 0;
     lsm_worker_cookies := None |}.

Definition tree0 : __wt_lsm_tree :=
  {| name := "t"; key_format := "u"; value_format := "u";
     tree_refcnt := 1; queue_ref := 0; tree_dsk_gen := 0;
     ckpt_throttle := 0; merge_throttle := 0; chunk_fill_ms := 0;
     merge_progressing := 0; bloom_bit_count := 16; bloom_hash_count := 8;
     chunk_size := 1000; chunk_max := 10000;
     merge_min := 2; merge_max := 4;
     merge_threads := 1; merge_idle := 0; bloom := 0;
     worker_sessions := Vector.const None WT_LSM_MAX_WORKERS;
     worker_tids := Vector.const 0 WT_LSM_MAX_WORKERS;
     ckpt_session := None; ckpt_tid := 0;
     chunk := []; chunk_alloc := 0; nchunks := 0; last := 0; modified := 0;
     old_chunks := []; old_alloc := 0; nold_chunks := 0;
     freeing_old_chunks := 0; merge_aggressiveness := 0;
     tree_flags := 0; flags_atomic := 0 |}.

(** [k] workers started one after the other, with sessions and threads
    numbered from [from]. *)
Fixpoint start_workers (k : nat) (from : Z) (s : pool) : pool :=
  match k with
  | O => s
  | S k' =>
      match worker_start s from from with
      | Some s' => start_workers k' (from + 1) s'
      | None => s
      end
  end.

(** A pool configured for 64 workers in which twelve starts were asked. *)
Definition crowded_pool : pool :=
  start_workers 12 100 (pool_open manager0 tree0 64).

(** *** Properties of the pool *)

Lemma to_list_vector_set (A : Type) (x : A) :
  forall n (v : Vector.t A n) i j,
    nth_error (Vector.to_list (vector_set v i x)) j =
    if Nat.eqb j i then (if Nat.ltb i n then Some x else None)
    else nth_error (Vector.to_list v) j.
Proof.
  induction v as [|a n v IH]; intros i j.
  - destruct (Nat.eqb j i); destruct j; reflexivity.
  - destruct i as [|i]; cbn [vector_set]; rewrite !Vector.to_list_cons.
    + destruct j; reflexivity.
    + destruct j as [|j]; [reflexivity|]. cbn [nth_error Nat.eqb].
      rewrite IH. reflexivity.
Qed.

Lemma filter_prefix_length (A : Type) (p : A -> bool) :
  forall (l : list A) (n : nat),
    (forall i, (i < n)%nat -> exists x, nth_error l i = Some x /\ p x = true) ->
    (n <= List.length (List.filter p l))%nat.
Proof.
  induction l as [|a l IH]; intros n H.
  - destruct n; [lia|]. destruct (H 0%nat ltac:(lia)) as (x & Hx & _).
    discriminate Hx.
  - destruct n as [|n]; [lia|]. cbn [List.filter].
    destruct (H 0%nat ltac:(lia)) as (x & Hx & Hp). injection Hx as ->.
    rewrite Hp. cbn [List.length]. apply le_n_S. apply IH.
    intros i Hi. apply (H (S i)). lia.
Qed.

Lemma reachable_inv (s : pool) : reachable s -> pool_inv s.
Proof.
  induction 1 as [m t wmax|s s' session tid Hr IH Hstart|s Hr IH].
  - unfold pool_inv, pool_open. cbn [pool_manager pool_tree pool_threads
      lsm_workers lsm_workers_max List.length].
    split; [lia|]. split; [lia|]. split; [lia|].
    intros i tid' Hnth. destruct i; discriminate Hnth.
  - unfold worker_start in Hstart.
    destruct ((lsm_workers (pool_manager s) <? lsm_workers_max (pool_manager s))
              && (lsm_workers (pool_manager s) <? Z.of_nat WT_LSM_MAX_WORKERS))
      eqn:Hg; [|discriminate].
    apply andb_true_iff in Hg as [Hmax Hcap].
    apply Z.ltb_lt in Hmax, Hcap.
    injection Hstart as <-.
    destruct IH as (Hn & Hle & Hlen & Hslots).
    cbv zeta in Hn, Hle, Hlen, Hslots.
    set (n := lsm_workers (pool_manager s)) in *.
    unfold pool_inv.
    cbn [pool_manager pool_tree pool_threads set_lsm_workers set_workers
         lsm_workers lsm_workers_max worker_tids worker_sessions].
    rewrite List.length_app. cbn [List.length].
    split; [lia|]. split; [lia|]. split; [lia|].
    intros i tid' Hi. rewrite !to_list_vector_set.
    assert (Hlen' : List.length (pool_threads s) = Z.to_nat n) by lia.
    assert (Hlt : Nat.ltb (Z.to_nat n) WT_LSM_MAX_WORKERS = true)
      by (apply Nat.ltb_lt; lia).
    rewrite Hlt.
    destruct (Nat.eqb_spec i (Z.to_nat n)) as [->|Hne].
    + rewrite List.nth_error_app2 in Hi by lia.
      rewrite Hlen', Nat.sub_diag in Hi. injection Hi as <-.
      split; [reflexivity|]. exists session. reflexivity.
    + assert (Hin : (i < List.length (pool_threads s))%nat).
      { assert (Hsome : nth_error (pool_threads s ++ [tid]) i <> None)
          by congruence.
        apply List.nth_error_Some in Hsome.
        rewrite List.length_app in Hsome. cbn [List.length] in Hsome. lia. }
      rewrite List.nth_error_app1 in Hi by assumption.
      apply Hslots. assumption.
  - unfold pool_inv, worker_stop.
    cbn [pool_manager pool_tree pool_threads set_lsm_workers lsm_workers
         lsm_workers_max List.length].
    split; [lia|]. split; [lia|]. split; [lia|].
    intros i tid' Hnth. destruct i; discriminate Hnth.
Qed.

(** At the cap no worker is started. *)
Lemma worker_start_refused (s : pool) (session : handle) (tid : pthread_t) :
  Z.of_nat WT_LSM_MAX_WORKERS <= lsm_workers (pool_manager s) ->
  worker_start s session tid = None.
Proof.
  intros H. unfold worker_start.
  destruct (Z.ltb_spec (lsm_workers (pool_manager s))
              (Z.of_nat WT_LSM_MAX_WORKERS)); [lia|].
  rewrite andb_false_r. reflexivity.
Qed.

Lemma start_workers_reachable k :
  forall from s, reachable s -> reachable (start_workers k from s).
Proof.
  induction k as [|k IH]; intros from s Hr; [exact Hr|].
  cbn [start_workers].
  destruct (worker_start s from from) as [s'|] eqn:E; [|exact Hr].
  apply IH. exact (reach_start s s' from from Hr E).
Qed.

(** C9: in every state a pool reaches from [open] by starting and stopping
    workers, the number of worker threads that run is the count the manager
    keeps and never exceeds WT_LSM_MAX_WORKERS, which is 10: the session and
    thread-id arrays of the tree hold exactly WT_LSM_MAX_WORKERS entries,
    every thread that runs has an entry of its own in both, and no state of
    the tree records more than 10 workers. *)
Theorem tree_workers_bounded (s : pool) :
  reachable s ->
  WT_LSM_MAX_WORKERS = 10%nat /\
  List.length (Vector.to_list (worker_sessions (pool_tree s)))
    = WT_LSM_MAX_WORKERS /\
  List.length (Vector.to_list (worker_tids (pool_tree s)))
    = WT_LSM_MAX_WORKERS /\
  Z.of_nat (List.length (pool_threads s)) = lsm_workers (pool_manager s) /\
  (List.length (pool_threads s) <= WT_LSM_MAX_WORKERS)%nat /\
  (forall i tid,
     nth_error (pool_threads s) i = Some tid ->
     nth_error (Vector.to_list (worker_tids (pool_tree s))) i = Some tid /\
     exists session,
       nth_error (Vector.to_list (worker_sessions (pool_tree s))) i
       = Some (Some session)) /\
  (List.length (pool_threads s) <= recorded_workers (pool_tree s) <= 10)%nat.
Proof.
  intros Hr. apply reachable_inv in Hr.
  destruct Hr as (Hn & Hle & Hlen & Hslots). cbv zeta in *.
  pose proof (Vector.length_to_list _ _ (worker_sessions (pool_tree s))) as Hs.
  pose proof (Vector.length_to_list _ _ (worker_tids (pool_tree s))) as Ht.
  split; [reflexivity|]. split; [exact Hs|]. split; [exact Ht|].
  split; [exact Hlen|]. split; [lia|]. split; [exact Hslots|].
  unfold recorded_workers. split.
  - apply filter_prefix_length. intros i Hi.
    destruct (nth_error (pool_threads s) i) as [tid|] eqn:E.
    + destruct (Hslots i tid E) as (_ & session & Hsess).
      exists (Some session). split; [exact Hsess|reflexivity].
    + apply List.nth_error_None in E. lia.
  - pose proof (filter_length_le is_set
                  (Vector.to_list (worker_sessions (pool_tree s)))) as Hf.
    rewrite Hs in Hf. exact Hf.
Qed.

Lemma tree_workers_bounded_witness :
  WT_LSM_MAX_WORKERS = 10%nat /\
  List.length (Vector.to_list (worker_sessions (pool_tree crowded_pool)))
    = WT_LSM_MAX_WORKERS /\
  List.length (Vector.to_list (worker_tids (pool_tree crowded_pool)))
    = WT_LSM_MAX_WORKERS /\
  Z.of_nat (List.length (pool_threads crowded_pool))
    = lsm_workers (pool_manager crowded_pool) /\
  (List.length (pool_threads crowded_pool) <= WT_LSM_MAX_WORKERS)%nat /\
  (forall i tid,
     nth_error (pool_threads crowded_pool) i = Some tid ->
     nth_error (Vector.to_list (worker_tids (pool_tree crowded_pool))) i
       = Some tid /\
     exists session,
       nth_error (Vector.to_list (worker_sessions (pool_tree crowded_pool))) i
       = Some (Some session)) /\
  (List.length (pool_threads crowded_pool)
     <= recorded_workers (pool_tree crowded_pool) <= 10)%nat.
Proof.
  apply (tree_workers_bounded crowded_pool).
  apply start_workers_reachable. apply reach_open.
Defined.

End LsmWorkers.

(** ** [src/cursor/cur_json.c]: what the formatter stores *)

Module JsonBuffer.
Import Json.

(** The characters stored by one call, in program order. *)
Definition stored (w : stores) : list Z := List.map snd w.

Definition hex_value (c : Z) : Z :=
  if ch_A <=? c then c - ch_A + 10 else c - ch_0.

(** The character a JSON reader takes from one escape. *)
Definition unescape (text : list Z) : Z :=
  match text with
  | [c] => c
  | [_; c] =>
      if c =? ch_f then ch_ff
      else if c =? ch_n then ch_nl
      else if c =? ch_r then ch_cr
      else if c =? ch_t then ch_tab
      else c
  | [_; _; _; _; h; l] => 16 * hex_value h + hex_value l
  | _ => 0
  end.

(** All the stores of [w] fall in [lo, hi). *)
Definition within (lo hi : Z) (w : stores) : Prop :=
  Forall (fun st => lo <= fst st < hi) w.

(** The characters of the escape of [ch], as [__wt_json_unpack_char] stores
    them when it has room. *)
Definition escape (ch force_unicode : Z) : list Z :=
  stored (fst (__wt_json_unpack_char ch 0 6 force_unicode)).

(** A string between double quotes, each character escaped. *)
Definition quoted (force_unicode : Z) (chars : list Z) : list Z :=
  ch_dquote :: List.flat_map (fun c => escape c force_unicode) chars
    ++ [ch_dquote].

(** The JSON text of a field: the name prefix, then the quoted string or the
    decimal number; no text for the padding type or an unknown type. *)
Definition json_field (pv : WT_PACK_VALUE) (name : WT_CONFIG_ITEM)
  : option (list Z) :=
  let t := pv_type pv in
  if t =? chr "x" then None
  else if is_in t [chr "s"; chr "S"] then
    let chars :=
      if (t =? chr "s") || havesize pv
      then List.firstn (Z.to_nat (pv_size pv)) (u_s pv)
      else c_str (u_s pv) in
    Some (fmt_name name ++ quoted 0 chars)
  else if is_in t [chr "U"; chr "u"] then
    Some (fmt_name name ++ quoted 1 (u_item pv))
  else if is_in t [chr "b"; chr "h"; chr "i"; chr "l"; chr "q"] then
    Some (fmt_name name ++ fmt_PRId64 (u_i pv))
  else if is_in t [chr "B"; chr "t"; chr "H"; chr "I"; chr "L"; chr "Q";
                   chr "r"; chr "R"] then
    Some (fmt_name name ++ fmt_PRId64 (u_u pv))
  else None.

(** [w] lays [text] at [buf]: it stores nowhere but at the positions of the
    text and the one after, leaves the text there, and leaves a NUL after the
    text when one was there. *)
Definition lays (w : stores) (buf : Z) (text : list Z) : Prop :=
  within buf (buf + Z.of_nat (List.length text) + 1) w /\
  (forall m i, (i < List.length text)%nat ->
     poke m w (buf + Z.of_nat i) = List.nth i text 0) /\
  (forall m, m (buf + Z.of_nat (List.length text)) = ch_NUL ->
     poke m w (buf + Z.of_nat (List.length text)) = ch_NUL).

(** The error of a run of the pack iterator: that of the initialisation or of
    the call that ended the loop, 0 when the format ended with
    WT_NOTFOUND. *)
Definition run_error (run : pack_run) : Z :=
  if negb (init_ret run =? 0) then init_ret run
  else
    match stop run with
    | pack_next_ret ret => if ret =? WT_NOTFOUND then 0 else ret
    | unpack_read_ret ret => ret
    | pack_name_next_ret ret => ret
    end.

(** The text of the field key0 holding the integer 1. *)
Definition key0_int1 : list Z :=
  [ch_dquote; chr "k"; chr "e"; chr "y"; chr "0"; ch_dquote; ch_space;
   ch_colon; ch_space; chr "1"].

(** The JSON text of the fields still to be written: the texts of the
    fields, a comma and a newline before each but the first field of the
    entry; no text when a field has none. *)
Fixpoint rest_text (needcr : bool) (fs : list (WT_PACK_VALUE * WT_CONFIG_ITEM))
  : option (list Z) :=
  match fs with
  | [] => Some []
  | (pv, name) :: rest =>
      match json_field pv name, rest_text true rest with
      | Some t, Some ts =>
          Some ((if needcr then [ch_comma; ch_nl] else []) ++ t ++ ts)
      | _, _ => None
      end
  end.

Definition json_text (fs : list (WT_PACK_VALUE * WT_CONFIG_ITEM))
  : option (list Z) := rest_text false fs.

(** A run over the format "ii": the integers 1 and 5. *)
Definition two_ints_run : pack_run :=
  {| init_ret := 0; fields := [(pv_int 1, key0); (pv_int 5, key1)];
     stop := pack_next_ret WT_NOTFOUND; p_end := 2 |}.

Definition two_ints_iter (buffer : list Z) (size : Z) (fmt : list Z)
    (names : WT_CONFIG_ITEM) (iskey : Z) : pack_run := two_ints_run.

Definition two_ints_text : list Z :=
  key0_int1 ++
  [ch_comma; ch_nl; ch_dquote; chr "k"; chr "e"; chr "y"; chr "1"; ch_dquote;
   ch_space; ch_colon; ch_space; chr "5"].

(** A run over the format "xx": two padding bytes. *)
Definition two_pads_run : pack_run :=
  {| init_ret := 0; fields := [(pv_pad, key0); (pv_pad, key1)];
     stop := pack_next_ret WT_NOTFOUND; p_end := 2 |}.

Definition two_pads_iter (buffer : list Z) (size : Z) (fmt : list Z)
    (names : WT_CONFIG_ITEM) (iskey : Z) : pack_run := two_pads_run.

(** *** Properties *)

Lemma land_nibble (x : Z) : Z.land x 0xF = x mod 16.
Proof. apply (Z.land_ones x 4). lia. Qed.

Lemma nibble_range (x : Z) : 0 <= Z.land x 0xF <= 15.
Proof.
  rewrite land_nibble.
  pose proof (Z.mod_pos_bound x 16 ltac:(lia)). lia.
Qed.

Lemma hex_digit_range (h : Z) :
  0 <= h <= 15 ->
  (ch_0 <= hex_digit h <= ch_0 + 9 \/ ch_A <= hex_digit h <= ch_A + 5) /\
  hex_value (hex_digit h) = h.
Proof.
  intros Hh. unfold hex_digit, hex_value, ch_0, ch_A.
  destruct (Z.leb_spec 10 h).
  - destruct (Z.leb_spec 65 (65 + (h - 10))); split; lia.
  - destruct (Z.leb_spec 65 (48 + h)); split; lia.
Qed.

Lemma byte_nibbles (x : Z) :
  0 <= x < 256 ->
  16 * Z.land (Z.shiftr x 4) 0xF + Z.land x 0xF = x.
Proof.
  intros Hx. rewrite !land_nibble. rewrite Z.shiftr_div_pow2 by lia.
  change (2 ^ 4) with 16.
  rewrite (Z.mod_small (x / 16) 16) by (split; [apply Z.div_pos; lia | apply Z.div_lt_upper_bound; lia]).
  pose proof (Z.div_mod x 16 ltac:(lia)). lia.
Qed.

Lemma u_char_range (ch : Z) : 0 <= u_char ch < 256.
Proof. unfold u_char. apply Z.mod_pos_bound. lia. Qed.

Lemma unescape_unicode (ch buf : Z) :
  unescape
    (stored
       [(buf, ch_backslash); (buf + 1, ch_u); (buf + 2, ch_0); (buf + 3, ch_0);
        (buf + 4, hex_digit (Z.land (Z.shiftr (u_char ch) 4) 0xF));
        (buf + 5, hex_digit (Z.land (u_char ch) 0xF))]) = u_char ch.
Proof.
  cbn [stored List.map snd unescape].
  destruct (hex_digit_range _ (nibble_range (Z.shiftr (u_char ch) 4))) as [_ ->].
  destruct (hex_digit_range _ (nibble_range (u_char ch))) as [_ ->].
  apply byte_nibbles. apply u_char_range.
Qed.

Lemma unescape_escape (ch buf bufsz force_unicode : Z) :
  6 <= bufsz ->
  unescape (stored (fst (__wt_json_unpack_char ch buf bufsz force_unicode)))
  = u_char ch.
Proof.
  intros Hsz. unfold __wt_json_unpack_char.
  assert (H6 : (6 <=? bufsz) = true) by (apply Z.leb_le; lia).
  assert (H2 : (2 <=? bufsz) = true) by (apply Z.leb_le; lia).
  assert (H1 : (1 <=? bufsz) = true) by (apply Z.leb_le; lia).
  rewrite H6, H2, H1.
  destruct (force_unicode =? 0); [|apply unescape_unicode].
  unfold isprint.
  destruct (Z.leb_spec 32 ch), (Z.leb_spec ch 126); simpl andb.
  all: unfold ch_backslash, ch_dquote, ch_ff, ch_nl, ch_cr, ch_tab, ch_NUL,
         ch_f, ch_n, ch_r, ch_t.
  all: destruct (Z.eqb_spec ch 92) as [->|?]; [reflexivity|].
  all: destruct (Z.eqb_spec ch 34) as [->|?]; [reflexivity|].
  all: simpl andb; simpl orb; cbv iota.
  1: { cbn [fst stored List.map snd unescape]. unfold u_char.
       symmetry. apply Z.mod_small. lia. }
  all: destruct (Z.eqb_spec ch 12) as [->|?]; [reflexivity|].
  all: destruct (Z.eqb_spec ch 10) as [->|?]; [reflexivity|].
  all: destruct (Z.eqb_spec ch 13) as [->|?]; [reflexivity|].
  all: destruct (Z.eqb_spec ch 9) as [->|?]; [reflexivity|].
  all: apply (unescape_unicode ch buf).
Qed.

(** X2: with room for the longest escape, the characters stored determine
    the character escaped: two characters given the same text are equal
    modulo 256, whatever [force_unicode] was. *)
Theorem escape_determines_char
    (ch1 ch2 buf1 buf2 bufsz1 bufsz2 fu1 fu2 : Z) :
  6 <= bufsz1 -> 6 <= bufsz2 ->
  stored (fst (__wt_json_unpack_char ch1 buf1 bufsz1 fu1)) =
  stored (fst (__wt_json_unpack_char ch2 buf2 bufsz2 fu2)) ->
  u_char ch1 = u_char ch2.
Proof.
  intros H1 H2 E.
  rewrite <- (unescape_escape ch1 buf1 bufsz1 fu1 H1).
  rewrite <- (unescape_escape ch2 buf2 bufsz2 fu2 H2).
  rewrite E. reflexivity.
Qed.

Lemma hex_digit_printable (x : Z) :
  isprint (hex_digit (Z.land x 0xF)) = true.
Proof.
  destruct (hex_digit_range _ (nibble_range x)) as [H _].
  unfold isprint, ch_0, ch_A in *.
  apply andb_true_intro. split; apply Z.leb_le; lia.
Qed.

(** The shapes of an escape: nothing (no room), the character itself, a
    backslash and a letter, or the six characters of a unicode escape. *)
Lemma escape_shape (ch buf bufsz force_unicode : Z) :
  let text := stored (fst (__wt_json_unpack_char ch buf bufsz force_unicode)) in
  text = [] \/
  (text = [ch] /\ isprint ch = true /\ ch <> ch_backslash /\ ch <> ch_dquote) \/
  (exists a, text = [ch_backslash; a] /\
             In a [ch_backslash; ch_dquote; ch_f; ch_n; ch_r; ch_t]) \/
  text = [ch_backslash; ch_u; ch_0; ch_0;
          hex_digit (Z.land (Z.shiftr (u_char ch) 4) 0xF);
          hex_digit (Z.land (u_char ch) 0xF)].
Proof.
  cbv zeta. unfold __wt_json_unpack_char.
  unfold ch_NUL, ch_backslash, ch_dquote, ch_ff, ch_nl, ch_cr, ch_tab,
    ch_f, ch_n, ch_r, ch_t.
  destruct (force_unicode =? 0).
  2:{ destruct (6 <=? bufsz);
        [right; right; right; reflexivity|left; reflexivity]. }
  destruct (isprint ch && negb (ch =? 92) && negb (ch =? 34)) eqn:Hp.
  { apply andb_prop in Hp as [Hp Hq]. apply andb_prop in Hp as [Hp Hb].
    apply negb_true_iff, Z.eqb_neq in Hq, Hb.
    destruct (1 <=? bufsz); [right; left; auto|left; reflexivity]. }
  destruct (Z.eqb_spec ch 92) as [->|?].
  { simpl. destruct (2 <=? bufsz); [right; right; left|left; reflexivity].
    eexists. split; [reflexivity|simpl; auto]. }
  destruct (Z.eqb_spec ch 34) as [->|?].
  { simpl. destruct (2 <=? bufsz); [right; right; left|left; reflexivity].
    eexists. split; [reflexivity|simpl; auto]. }
  cbn [orb].
  destruct (ch =? 12).
  { simpl. destruct (2 <=? bufsz); [right; right; left|left; reflexivity].
    eexists. split; [reflexivity|simpl; auto]. }
  destruct (ch =? 10).
  { simpl. destruct (2 <=? bufsz); [right; right; left|left; reflexivity].
    eexists. split; [reflexivity|simpl; auto 10]. }
  destruct (ch =? 13).
  { simpl. destruct (2 <=? bufsz); [right; right; left|left; reflexivity].
    eexists. split; [reflexivity|simpl; auto 10]. }
  destruct (ch =? 9).
  { simpl. destruct (2 <=? bufsz); [right; right; left|left; reflexivity].
    eexists. split; [reflexivity|simpl; auto 10]. }
  cbn [Z.eqb negb].
  destruct (6 <=? bufsz); [right; right; right; reflexivity|left; reflexivity].
Qed.

(** X1: every character [__wt_json_unpack_char] stores is printable ASCII; a
    character stored alone is neither the double quote nor the backslash, and
    an escape of several characters starts with a backslash. *)
Theorem escape_is_printable (ch buf bufsz force_unicode : Z) :
  let text := stored (fst (__wt_json_unpack_char ch buf bufsz force_unicode)) in
  Forall (fun c => isprint c = true) text /\
  (forall c, text = [c] -> c <> ch_dquote /\ c <> ch_backslash) /\
  (forall c rest, text = c :: rest -> rest <> [] -> c = ch_backslash).
Proof.
  cbv zeta.
  destruct (escape_shape ch buf bufsz force_unicode)
    as [E|[(E & Hp & Hb & Hq)|[(a & E & Ha)|E]]]; cbv zeta in E; rewrite E.
  - split; [apply Forall_nil|split]; intros; discriminate.
  - split; [|split].
    + apply Forall_cons; [assumption|apply Forall_nil].
    + intros c H. injection H as <-. split; assumption.
    + intros c rest H Hr. injection H as _ <-. contradiction.
  - split; [|split].
    + apply Forall_cons; [reflexivity|].
      apply Forall_cons; [|apply Forall_nil].
      simpl in Ha. repeat destruct Ha as [<-|Ha]; try reflexivity. contradiction.
    + intros c H. discriminate H.
    + intros c rest H _. injection H as <- _. reflexivity.
  - split; [|split].
    + repeat (apply Forall_cons; [try reflexivity; apply hex_digit_printable|]).
      apply Forall_nil.
    + intros c H. discriminate H.
    + intros c rest H _. injection H as <- _. reflexivity.
Qed.

Lemma within_app lo hi w1 w2 :
  within lo hi w1 -> within lo hi w2 -> within lo hi (w1 ++ w2).
Proof. unfold within. intros. apply Forall_app. split; assumption. Qed.

Lemma within_weaken lo hi lo' hi' w :
  lo' <= lo -> hi <= hi' -> within lo hi w -> within lo' hi' w.
Proof.
  unfold within. intros Hl Hh H. eapply Forall_impl; [|exact H].
  intros st Hst. simpl in Hst. lia.
Qed.

Lemma unpack_char_within (ch buf bufsz fu : Z) :
  within buf (buf + bufsz) (fst (__wt_json_unpack_char ch buf bufsz fu)).
Proof.
  destruct (unpack_char_stores ch buf bufsz fu) as [Hge Hlt]. cbv zeta in *.
  destruct (Z.lt_ge_cases bufsz (char_size ch fu)) as [Hs|Hs].
  - rewrite (Hlt Hs). apply Forall_nil.
  - apply Forall_forall. intros st Hst.
    apply (addresses_bound buf (char_size ch fu)); [assumption|].
    rewrite <- (Hge Hs). apply in_map. assumption.
Qed.

Lemma combine_addresses_within (buf k : Z) (text : list Z) :
  within buf (buf + k) (List.combine (addresses buf k) text).
Proof.
  apply Forall_forall. intros [a v] Hin.
  apply in_combine_l in Hin. simpl.
  apply (addresses_bound buf k); [lia|assumption].
Qed.

Lemma snprintf_within (buf bufsz : Z) (text : list Z) :
  within buf (buf + bufsz) (fst (snprintf buf bufsz text)).
Proof.
  unfold snprintf. cbn [fst].
  destruct (Z.leb_spec bufsz 0); [apply Forall_nil|].
  set (k := Z.min (Z.of_nat (List.length text)) (bufsz - 1)).
  assert (0 <= k <= bufsz - 1) by (unfold k; lia).
  apply within_app.
  - apply (within_weaken buf (buf + k)); [lia|lia|].
    apply combine_addresses_within.
  - apply Forall_cons; [simpl; lia|apply Forall_nil].
Qed.

Lemma put_quote_within lo hi w buf bufsz :
  within lo hi w -> lo <= buf -> buf + Z.max 0 bufsz <= hi ->
  let '(w', buf', bufsz') := put_quote w buf bufsz in
  within lo hi w' /\ lo <= buf' /\ buf' + Z.max 0 bufsz' <= hi.
Proof.
  intros Hw Hlo Hhi. unfold put_quote.
  destruct (Z.ltb_spec 0 bufsz).
  - split; [|lia]. apply within_app; [assumption|].
    apply Forall_cons; [simpl; lia|apply Forall_nil].
  - auto.
Qed.

Lemma put_chars_within fu chars :
  forall lo hi w buf bufsz s,
    within lo hi w -> lo <= buf -> buf + Z.max 0 bufsz <= hi ->
    let '(w', buf', bufsz', _) := put_chars fu chars w buf bufsz s in
    within lo hi w' /\ lo <= buf' /\ buf' + Z.max 0 bufsz' <= hi.
Proof.
  induction chars as [|ch rest IH]; intros lo hi w buf bufsz s Hw Hlo Hhi.
  - simpl. auto.
  - simpl.
    pose proof (unpack_char_within ch buf bufsz fu) as Hc.
    pose proof (unpack_char_size ch buf bufsz fu) as Hn.
    destruct (__wt_json_unpack_char ch buf bufsz fu) as [w1 n].
    cbn [fst snd] in Hc, Hn.
    assert (Hpos : 1 <= n).
    { subst n. destruct (char_size_cases ch fu) as [H _]. cbv zeta in H. lia. }
    assert (Hw' : within lo hi (w ++ w1)).
    { apply within_app; [assumption|].
      destruct w1 as [|st w1']; [apply Forall_nil|].
      apply (within_weaken buf (buf + bufsz)); [lia| |assumption].
      assert (0 < bufsz).
      { inversion Hc as [|? ? Hst _]; subst. lia. }
      lia. }
    destruct (Z.ltb_spec bufsz n).
    + apply IH; [assumption|lia|lia].
    + apply IH; [assumption|lia|lia].
Qed.

Lemma snprintf_within_range lo hi buf bufsz text :
  lo <= buf -> buf + Z.max 0 bufsz <= hi ->
  within lo hi (fst (snprintf buf bufsz text)).
Proof.
  intros Hlo Hhi. destruct (Z.le_gt_cases bufsz 0) as [Hneg|Hpos].
  - unfold snprintf. cbn [fst].
    destruct (Z.leb_spec bufsz 0); [apply Forall_nil|lia].
  - apply (within_weaken buf (buf + bufsz)); [lia|lia|apply snprintf_within].
Qed.

Lemma put_quoted_within lo hi fu chars w buf bufsz s :
  within lo hi w -> lo <= buf -> buf + Z.max 0 bufsz <= hi ->
  within lo hi (fst (put_quoted fu chars w buf bufsz s)).
Proof.
  intros Hw Hlo Hhi. unfold put_quoted.
  pose proof (put_quote_within lo hi w buf bufsz Hw Hlo Hhi) as H1.
  destruct (put_quote w buf bufsz) as [[w1 buf1] bufsz1].
  destruct H1 as (Hw1 & Hlo1 & Hhi1).
  pose proof (put_chars_within fu chars lo hi w1 buf1 bufsz1 (size_t (s + 2))
                Hw1 Hlo1 Hhi1) as H2.
  destruct (put_chars fu chars w1 buf1 bufsz1 (size_t (s + 2)))
    as [[[w2 buf2] bufsz2] s2].
  destruct H2 as (Hw2 & Hlo2 & Hhi2).
  pose proof (put_quote_within lo hi w2 buf2 bufsz2 Hw2 Hlo2 Hhi2) as H3.
  destruct (put_quote w2 buf2 bufsz2) as [[w3 buf3] bufsz3].
  cbn [fst]. tauto.
Qed.

Lemma unpack_put_within lo hi pv buf bufsz name :
  lo <= buf -> buf + Z.max 0 bufsz <= hi ->
  within lo hi (fst (__json_unpack_put pv buf bufsz name)).
Proof.
  intros Hlo Hhi. unfold __json_unpack_put.
  pose proof (snprintf_within_range lo hi buf bufsz (fmt_name name) Hlo Hhi) as H0.
  destruct (snprintf buf bufsz (fmt_name name)) as [w s] eqn:Es.
  assert (Hs : 0 <= s).
  { unfold snprintf in Es. injection Es as _ <-. lia. }
  cbn [fst] in H0.
  assert (Hnext :
    let '(buf1, bufsz1) :=
      (if s <=? bufsz then (buf + s, bufsz - s) else (buf, 0)) in
    lo <= buf1 /\ buf1 + Z.max 0 bufsz1 <= hi).
  { destruct (Z.leb_spec s bufsz); lia. }
  destruct (if s <=? bufsz then (buf + s, bufsz - s) else (buf, 0))
    as [buf1 bufsz1].
  destruct Hnext as [Hlo1 Hhi1].
  destruct (pv_type pv =? chr "x"); [assumption|].
  destruct (is_in (pv_type pv) [chr "s"; chr "S"]);
    [apply put_quoted_within; assumption|].
  destruct (is_in (pv_type pv) [chr "U"; chr "u"]);
    [apply put_quoted_within; assumption|].
  destruct (is_in (pv_type pv) [chr "b"; chr "h"; chr "i"; chr "l"; chr "q"]).
  { pose proof (snprintf_within_range lo hi buf1 bufsz1 (fmt_PRId64 (u_i pv))
                  Hlo1 Hhi1) as H1.
    destruct (snprintf buf1 bufsz1 (fmt_PRId64 (u_i pv))) as [w1 n].
    cbn [fst] in *. apply within_app; assumption. }
  destruct (is_in (pv_type pv) _).
  { pose proof (snprintf_within_range lo hi buf1 bufsz1 (fmt_PRId64 (u_u pv))
                  Hlo1 Hhi1) as H1.
    destruct (snprintf buf1 bufsz1 (fmt_PRId64 (u_u pv))) as [w1 n].
    cbn [fst] in *. apply within_app; assumption. }
  assumption.
Qed.

(** X3: [__json_unpack_put] stores only inside [buf .. buf + bufsz - 1], and
    stores nothing when [bufsz] is zero. *)
Theorem unpack_put_stays_in_buffer
    (pv : WT_PACK_VALUE) (buf bufsz : Z) (name : WT_CONFIG_ITEM) :
  within buf (buf + bufsz) (fst (__json_unpack_put pv buf bufsz name)) /\
  (bufsz <= 0 -> fst (__json_unpack_put pv buf bufsz name) = []).
Proof.
  pose proof (unpack_put_within buf (buf + Z.max 0 bufsz) pv buf bufsz name
                ltac:(lia) ltac:(lia)) as H.
  split.
  - eapply Forall_impl; [|exact H]. intros st Hst. simpl in Hst.
    destruct (Z.le_gt_cases bufsz 0); lia.
  - intros Hneg. replace (Z.max 0 bufsz) with 0 in H by lia.
    destruct (fst (__json_unpack_put pv buf bufsz name)) as [|st w];
      [reflexivity|].
    inversion H as [|? ? Hst _]; subst. lia.
Qed.

(** X4: the size [__json_unpack_put] returns is the same for every buffer
    and buffer size, so the sizing call and the writing call agree; it is a
    [size_t] value. *)
Theorem unpack_put_size_any_buffer
    (pv : WT_PACK_VALUE) (name : WT_CONFIG_ITEM) (buf bufsz buf' bufsz' : Z) :
  snd (__json_unpack_put pv buf bufsz name) =
  snd (__json_unpack_put pv buf' bufsz' name) /\
  0 <= snd (__json_unpack_put pv buf bufsz name) <= SIZE_MAX.
Proof.
  split.
  - rewrite (unpack_put_size pv buf bufsz name).
    rewrite (unpack_put_size pv buf' bufsz' name). reflexivity.
  - apply unpack_put_range.
Qed.

Lemma poke_app m w1 w2 : poke m (w1 ++ w2) = poke (poke m w1) w2.
Proof. unfold poke. apply List.fold_left_app. Qed.

Lemma poke_outside w : forall m a,
  Forall (fun st => fst st <> a) w -> poke m w a = m a.
Proof.
  induction w as [|st w IH]; intros m a H; [reflexivity|].
  inversion H as [|? ? Hst Hw]; subst. simpl.
  change (poke (fun a0 => if a0 =? fst st then snd st else m a0) w a
          = m a).
  rewrite IH by assumption.
  destruct (Z.eqb_spec a (fst st)); [congruence|reflexivity].
Qed.

Lemma lays_nil buf : lays [] buf [].
Proof.
  split; [apply Forall_nil|]. split.
  - intros m i H. inversion H.
  - intros m H. exact H.
Qed.

Lemma lays_app w1 w2 buf t1 t2 :
  lays w1 buf t1 -> lays w2 (buf + text_len t1) t2 ->
  lays (w1 ++ w2) buf (t1 ++ t2).
Proof.
  unfold lays, text_len. intros (Hw1 & Hc1 & Hz1) (Hw2 & Hc2 & Hz2).
  rewrite List.length_app, Nat2Z.inj_add.
  split; [|split].
  - apply within_app.
    + eapply within_weaken; [| |exact Hw1]; lia.
    + eapply within_weaken; [| |exact Hw2]; lia.
  - intros m i Hi. rewrite poke_app.
    destruct (Nat.lt_ge_cases i (List.length t1)) as [Hlt|Hge].
    + rewrite List.app_nth1 by assumption.
      rewrite poke_outside; [apply Hc1; assumption|].
      eapply Forall_impl; [|exact Hw2]. intros st Hst. simpl in Hst. lia.
    + rewrite List.app_nth2 by assumption.
      replace (buf + Z.of_nat i)
        with (buf + Z.of_nat (List.length t1)
              + Z.of_nat (i - List.length t1)) by lia.
      apply Hc2. lia.
  - intros m Hm. rewrite poke_app, Z.add_assoc. apply Hz2.
    destruct t2 as [|c t2].
    + cbn [List.length] in *. rewrite Z.add_0_r in *. apply Hz1. exact Hm.
    + rewrite poke_outside; [rewrite <- Z.add_assoc; exact Hm|].
      eapply Forall_impl; [|exact Hw1]. intros st Hst. simpl in Hst.
      cbn [List.length]. lia.
Qed.

Lemma lays_one buf c : lays [(buf, c)] buf [c].
Proof.
  split; [|split].
  - apply Forall_cons; [simpl; lia|apply Forall_nil].
  - intros m [|i] Hi; [|simpl in Hi; lia].
    simpl. rewrite Z.add_0_r, Z.eqb_refl. reflexivity.
  - intros m Hm. simpl.
    destruct (Z.eqb_spec (buf + 1) buf); [lia|exact Hm].
Qed.

(** The terminating NUL after the text does not change the text. *)
Lemma lays_terminated w buf text :
  lays w buf text -> lays (w ++ [(buf + text_len text, ch_NUL)]) buf text.
Proof.
  intros H. rewrite <- (List.app_nil_r text) at 2.
  apply lays_app; [assumption|].
  split; [apply Forall_cons; [simpl; lia|apply Forall_nil]|]. split.
  - intros m i Hi. inversion Hi.
  - intros m _. simpl. rewrite Z.add_0_r, Z.eqb_refl. reflexivity.
Qed.

Lemma addresses_succ (buf : Z) (n : nat) :
  addresses buf (Z.of_nat (S n)) = buf :: addresses (buf + 1) (Z.of_nat n).
Proof.
  unfold addresses. rewrite !Nat2Z.id. simpl.
  rewrite Z.add_0_r. f_equal.
  rewrite <- List.seq_shift, List.map_map.
  apply List.map_ext. intros i. lia.
Qed.

Lemma seq_stores_cons buf c text :
  seq_stores buf (c :: text) = (buf, c) :: seq_stores (buf + 1) text.
Proof.
  unfold seq_stores, text_len. cbn [List.length]. rewrite addresses_succ.
  reflexivity.
Qed.

Lemma lays_seq text : forall buf, lays (seq_stores buf text) buf text.
Proof.
  induction text as [|c text IH]; intros buf.
  - apply lays_nil.
  - rewrite seq_stores_cons.
    change ((buf, c) :: seq_stores (buf + 1) text)
      with ([(buf, c)] ++ seq_stores (buf + 1) text).
    change (c :: text) with ([c] ++ text).
    apply lays_app; [apply lays_one|]. apply IH.
Qed.

Lemma snprintf_lays buf bufsz text :
  text_len text < bufsz ->
  lays (fst (snprintf buf bufsz text)) buf text /\
  snd (snprintf buf bufsz text) = text_len text.
Proof.
  intros Hroom. unfold snprintf. cbn [fst snd]. fold (text_len text).
  split; [|reflexivity].
  assert (0 <= text_len text) by (unfold text_len; lia).
  destruct (Z.leb_spec bufsz 0); [lia|].
  replace (Z.min (text_len text) (bufsz - 1)) with (text_len text) by lia.
  unfold text_len at 2. rewrite Nat2Z.id, List.firstn_all.
  apply lays_terminated. apply lays_seq.
Qed.

Lemma escape_length (ch fu : Z) : text_len (escape ch fu) = char_size ch fu.
Proof.
  unfold text_len, escape, stored. rewrite List.length_map.
  destruct (unpack_char_stores ch 0 6 fu) as [Hge _]. cbv zeta in Hge.
  assert (Hn : char_size ch fu <= 6).
  { destruct (char_size_cases ch fu) as [H _]. cbv zeta in H. lia. }
  specialize (Hge Hn).
  rewrite <- (List.length_map fst), Hge.
  unfold addresses. rewrite List.length_map, List.length_seq.
  destruct (char_size_cases ch fu) as [H _]. cbv zeta in H. lia.
Qed.

Lemma combine_fst_snd (w : stores) :
  List.combine (List.map fst w) (List.map snd w) = w.
Proof.
  induction w as [|[a v] w IH]; [reflexivity|]. simpl. rewrite IH. reflexivity.
Qed.

Lemma unpack_char_content (ch buf bufsz buf' bufsz' fu : Z) :
  char_size ch fu <= bufsz -> char_size ch fu <= bufsz' ->
  stored (fst (__wt_json_unpack_char ch buf bufsz fu)) =
  stored (fst (__wt_json_unpack_char ch buf' bufsz' fu)).
Proof.
  intros H1 H2.
  destruct (char_size_cases ch fu) as [H _]. cbv zeta in H.
  unfold char_size in H, H1, H2. unfold __wt_json_unpack_char.
  destruct (fu =? 0).
  - destruct (isprint ch && negb (ch =? ch_backslash) && negb (ch =? ch_dquote)).
    + replace (1 <=? bufsz) with true by (symmetry; apply Z.leb_le; lia).
      replace (1 <=? bufsz') with true by (symmetry; apply Z.leb_le; lia).
      reflexivity.
    + unfold is_in, abbreviated in H1, H2. cbn [List.existsb] in H1, H2.
      unfold ch_backslash, ch_dquote, ch_ff, ch_nl, ch_cr, ch_tab, ch_NUL,
        ch_f, ch_n, ch_r, ch_t in *.
      rewrite orb_false_r in H1, H2.
      destruct (Z.eqb_spec ch 92) as [->|?];
        [simpl in *;
         replace (2 <=? bufsz) with true by (symmetry; apply Z.leb_le; lia);
         replace (2 <=? bufsz') with true by (symmetry; apply Z.leb_le; lia);
         reflexivity|].
      destruct (Z.eqb_spec ch 34) as [->|?];
        [simpl in *;
         replace (2 <=? bufsz) with true by (symmetry; apply Z.leb_le; lia);
         replace (2 <=? bufsz') with true by (symmetry; apply Z.leb_le; lia);
         reflexivity|].
      cbn [orb] in *.
      destruct (ch =? 12);
        [simpl in *;
         replace (2 <=? bufsz) with true by (symmetry; apply Z.leb_le; lia);
         replace (2 <=? bufsz') with true by (symmetry; apply Z.leb_le; lia);
         reflexivity|].
      destruct (ch =? 10);
        [simpl in *;
         replace (2 <=? bufsz) with true by (symmetry; apply Z.leb_le; lia);
         replace (2 <=? bufsz') with true by (symmetry; apply Z.leb_le; lia);
         reflexivity|].
      destruct (ch =? 13);
        [simpl in *;
         replace (2 <=? bufsz) with true by (symmetry; apply Z.leb_le; lia);
         replace (2 <=? bufsz') with true by (symmetry; apply Z.leb_le; lia);
         reflexivity|].
      destruct (ch =? 9);
        [simpl in *;
         replace (2 <=? bufsz) with true by (symmetry; apply Z.leb_le; lia);
         replace (2 <=? bufsz') with true by (symmetry; apply Z.leb_le; lia);
         reflexivity|].
      cbn [Z.eqb negb]. cbn [orb] in H1, H2.
      replace (6 <=? bufsz) with true by (symmetry; apply Z.leb_le; lia).
      replace (6 <=? bufsz') with true by (symmetry; apply Z.leb_le; lia).
      reflexivity.
  - replace (6 <=? bufsz) with true by (symmetry; apply Z.leb_le; lia).
    replace (6 <=? bufsz') with true by (symmetry; apply Z.leb_le; lia).
    reflexivity.
Qed.

Lemma unpack_char_seq (ch buf bufsz fu : Z) :
  char_size ch fu <= bufsz ->
  fst (__wt_json_unpack_char ch buf bufsz fu) = seq_stores buf (escape ch fu).
Proof.
  intros Hroom.
  destruct (unpack_char_stores ch buf bufsz fu) as [Hge _]. cbv zeta in Hge.
  specialize (Hge Hroom).
  rewrite <- (combine_fst_snd (fst (__wt_json_unpack_char ch buf bufsz fu))).
  rewrite Hge. unfold seq_stores. rewrite escape_length. f_equal.
  unfold escape. apply unpack_char_content; [assumption|].
  destruct (char_size_cases ch fu) as [H _]. cbv zeta in H. lia.
Qed.

Lemma put_chars_room fu chars :
  forall w buf bufsz s,
    let text := List.flat_map (fun c => escape c fu) chars in
    text_len text <= bufsz -> 0 <= s -> s + text_len text <= SIZE_MAX ->
    exists w',
      put_chars fu chars w buf bufsz s =
        (w ++ w', buf + text_len text, bufsz - text_len text, s + text_len text) /\
      lays w' buf text.
Proof.
  induction chars as [|ch rest IH]; intros w buf bufsz s text Hroom Hs Hmax.
  - exists []. subst text. unfold text_len. simpl.
    rewrite List.app_nil_r, !Z.add_0_r, Z.sub_0_r. split; [reflexivity|apply lays_nil].
  - subst text. cbn [List.flat_map] in *.
    unfold text_len in *. rewrite List.length_app, Nat2Z.inj_add in *.
    fold (text_len (escape ch fu)) in *. rewrite escape_length in *.
    set (rest_len := Z.of_nat (List.length (List.flat_map (fun c => escape c fu) rest))) in *.
    assert (Hn : 1 <= char_size ch fu).
    { destruct (char_size_cases ch fu) as [H _]. cbv zeta in H. lia. }
    assert (Hr : 0 <= rest_len) by (unfold rest_len; lia).
    cbn [put_chars].
    pose proof (unpack_char_size ch buf bufsz fu) as Hsz.
    pose proof (unpack_char_seq ch buf bufsz fu ltac:(lia)) as Hseq.
    destruct (__wt_json_unpack_char ch buf bufsz fu) as [w1 n].
    cbn [fst snd] in Hsz, Hseq. subst n w1.
    destruct (Z.ltb_spec bufsz (char_size ch fu)); [lia|].
    rewrite size_t_small by lia.
    destruct (IH (w ++ seq_stores buf (escape ch fu)) (buf + char_size ch fu)
                (bufsz - char_size ch fu) (s + char_size ch fu))
      as (w' & Heq & Hlay); cbv zeta; fold rest_len; try lia.
    exists (seq_stores buf (escape ch fu) ++ w'). split.
    + rewrite Heq. fold rest_len. rewrite List.app_assoc.
      f_equal; [f_equal; [f_equal|]|]; lia.
    + apply lays_app; [apply lays_seq|].
      rewrite escape_length. assumption.
Qed.

Lemma put_quoted_room fu chars w buf bufsz s :
  text_len (quoted fu chars) <= bufsz -> 0 <= s ->
  s + text_len (quoted fu chars) <= SIZE_MAX ->
  exists w',
    put_quoted fu chars w buf bufsz s = (w ++ w', s + text_len (quoted fu chars)) /\
    lays w' buf (quoted fu chars).
Proof.
  unfold quoted, text_len. cbn [List.length].
  rewrite List.length_app. cbn [List.length].
  set (body := List.flat_map (fun c => escape c fu) chars).
  intros Hroom Hs Hmax.
  assert (Hb : 0 <= text_len body) by (unfold text_len; lia).
  assert (Hlen : Z.of_nat (S (List.length body + 1)) = text_len body + 2)
    by (unfold text_len; lia).
  rewrite Hlen in *.
  unfold put_quoted. rewrite size_t_small by lia.
  unfold put_quote at 1.
  destruct (Z.ltb_spec 0 bufsz); [|lia].
  destruct (put_chars_room fu chars (w ++ [(buf, ch_dquote)]) (buf + 1)
              (bufsz - 1) (s + 2)) as (w' & Heq & Hlay);
    cbv zeta; fold body; try lia.
  rewrite Heq. unfold put_quote. fold body.
  destruct (Z.ltb_spec 0 (bufsz - 1 - text_len body)); [|lia].
  exists ([(buf, ch_dquote)] ++ w' ++ [(buf + 1 + text_len body, ch_dquote)]).
  split.
  - f_equal; [|lia]. rewrite <- !List.app_assoc. reflexivity.
  - change (ch_dquote :: body ++ [ch_dquote])
      with ([ch_dquote] ++ body ++ [ch_dquote]).
    apply lays_app; [apply lays_one|].
    apply lays_app; [exact Hlay|].
    change (text_len [ch_dquote]) with 1.
    apply lays_one.
Qed.

Lemma lays_read w buf text m i :
  lays w buf text -> (i < List.length text)%nat ->
  poke m w (buf + Z.of_nat i) = List.nth i text 0.
Proof. intros (_ & H & _). apply H. Qed.

Lemma some_eq (A : Type) (a b : A) : Some a = Some b -> a = b.
Proof. intros H. injection H as H. exact H. Qed.

(** With room for the text of a field and one more character,
    [__json_unpack_put] returns the length of the text and lays the text at
    [buf]. *)
Lemma unpack_put_lays
    (pv : WT_PACK_VALUE) (buf bufsz : Z) (name : WT_CONFIG_ITEM)
    (text : list Z) :
  json_field pv name = Some text ->
  text_len text < bufsz -> bufsz <= SIZE_MAX ->
  snd (__json_unpack_put pv buf bufsz name) = text_len text /\
  lays (fst (__json_unpack_put pv buf bufsz name)) buf text.
Proof.
  intros Hf Hroom Hmax.
  unfold json_field in Hf. unfold __json_unpack_put.
  assert (Hname : text_len (fmt_name name) <= text_len text).
  { cbv zeta in Hf.
    repeat match type of Hf with
           | (if ?b then _ else _) = _ => destruct b
           end; try discriminate; apply some_eq in Hf; subst text;
      unfold text_len; rewrite List.length_app; lia. }
  destruct (snprintf_lays buf bufsz (fmt_name name) ltac:(lia)) as [Hl0 Hs0].
  destruct (snprintf buf bufsz (fmt_name name)) as [w0 s0].
  cbn [fst snd] in Hl0, Hs0. subst s0.
  assert (H0 : 0 <= text_len (fmt_name name)) by (unfold text_len; lia).
  destruct (Z.leb_spec (text_len (fmt_name name)) bufsz); [|lia].
  cbv zeta in Hf |- *.
  destruct (pv_type pv =? chr "x"); [discriminate|].
  destruct (is_in (pv_type pv) [chr "s"; chr "S"]).
  { apply some_eq in Hf; subst text.
    match goal with
    | |- context [put_quoted 0 ?chars w0 ?b ?bs ?s] =>
        destruct (put_quoted_room 0 chars w0 b bs s) as (w' & Heq & Hlay)
    end;
      try (unfold text_len in *; rewrite List.length_app in *; lia).
    rewrite Heq. cbn [fst snd]. split.
    - unfold text_len. rewrite List.length_app. unfold text_len. lia.
    - apply lays_app; assumption. }
  destruct (is_in (pv_type pv) [chr "U"; chr "u"]).
  { apply some_eq in Hf; subst text.
    destruct (put_quoted_room 1 (u_item pv) w0 (buf + text_len (fmt_name name))
                (bufsz - text_len (fmt_name name)) (text_len (fmt_name name)))
      as (w' & Heq & Hlay);
      try (unfold text_len in *; rewrite List.length_app in *; lia).
    rewrite Heq. cbn [fst snd]. split.
    - unfold text_len. rewrite List.length_app. unfold text_len. lia.
    - apply lays_app; assumption. }
  destruct (is_in (pv_type pv) [chr "b"; chr "h"; chr "i"; chr "l"; chr "q"]).
  { apply some_eq in Hf; subst text.
    destruct (snprintf_lays (buf + text_len (fmt_name name))
                (bufsz - text_len (fmt_name name)) (fmt_PRId64 (u_i pv)))
      as [Hl1 Hs1];
      [unfold text_len in *; rewrite List.length_app in *; lia|].
    destruct (snprintf _ _ (fmt_PRId64 (u_i pv))) as [w1 n].
    cbn [fst snd] in *. subst n. split.
    - rewrite size_t_small; unfold text_len in *;
        rewrite List.length_app in *; lia.
    - apply lays_app; assumption. }
  destruct (is_in (pv_type pv) _); [|discriminate].
  apply some_eq in Hf; subst text.
  destruct (snprintf_lays (buf + text_len (fmt_name name))
              (bufsz - text_len (fmt_name name)) (fmt_PRId64 (u_u pv)))
    as [Hl1 Hs1];
    [unfold text_len in *; rewrite List.length_app in *; lia|].
  destruct (snprintf _ _ (fmt_PRId64 (u_u pv))) as [w1 n].
  cbn [fst snd] in *. subst n. split.
  - rewrite size_t_small; unfold text_len in *;
      rewrite List.length_app in *; lia.
  - apply lays_app; assumption.
Qed.

(** X5: when the buffer has room for the JSON text of the field and one
    more character, [__json_unpack_put] returns the length of the text and
    leaves the text at [buf]: the name prefix, then the quoted escaped string
    or the decimal number. *)
Theorem unpack_put_writes_field
    (pv : WT_PACK_VALUE) (buf bufsz : Z) (name : WT_CONFIG_ITEM)
    (text : list Z) :
  json_field pv name = Some text ->
  text_len text < bufsz -> bufsz <= SIZE_MAX ->
  snd (__json_unpack_put pv buf bufsz name) = text_len text /\
  forall m i, (i < List.length text)%nat ->
    poke m (fst (__json_unpack_put pv buf bufsz name)) (buf + Z.of_nat i)
    = List.nth i text 0.
Proof.
  intros Hf Hroom Hmax.
  destruct (unpack_put_lays pv buf bufsz name text Hf Hroom Hmax) as [Hs Hl].
  split; [exact Hs|].
  intros m i Hi. apply lays_read; assumption.
Qed.

Lemma struct_size_returns_0 pack_iter buffer size fmt names iskey presult r :
  __json_struct_size pack_iter buffer size fmt names iskey presult = Returned r ->
  fst r = 0.
Proof.
  unfold __json_struct_size.
  destruct (negb (init_ret _ =? 0)); [intros H; injection H as <-; reflexivity|].
  destruct (stop _); try (intros H; injection H as <-; reflexivity).
  unfold WT_ASSERT. destruct (p_end _ <=? size); simpl;
    [intros H; injection H as <-; reflexivity|discriminate].
Qed.

Lemma struct_unpackv_returns pack_iter buffer size fmt names mem jbuf jbufsize
    iskey r :
  __json_struct_unpackv pack_iter buffer size fmt names mem jbuf jbufsize iskey
    = Returned r ->
  fst (fst r) = run_error (pack_iter buffer size fmt names iskey).
Proof.
  unfold __json_struct_unpackv, run_error.
  destruct (negb (init_ret _ =? 0)); [intros H; injection H as <-; reflexivity|].
  destruct (struct_unpackv_loop _ _ _ false [] jbuf jbufsize)
    as [[[[w jb] js] cr]| |]; [|discriminate|discriminate].
  cbn [bind]. unfold WT_ASSERT.
  destruct (stop _) as [ret|ret|ret].
  - destruct (p_end _ <=? size); cbn [bind]; [|discriminate].
    destruct (js =? 1); cbn [bind]; [|discriminate].
    intros H; injection H as <-; reflexivity.
  - destruct (separator _ _ cr w jb js) as [[[w1 jb1] js1]| |]; cbn [bind];
      try discriminate.
    intros H; injection H as <-; reflexivity.
  - destruct (separator _ _ cr w jb js) as [[[w1 jb1] js1]| |]; cbn [bind];
      try discriminate.
    intros H; injection H as <-; reflexivity.
Qed.

(** X7: with an allocator that succeeds, whenever [__wt_json_alloc_unpack]
    returns, it returns the error of the pack iterator's run (0 only when the
    format ended with WT_NOTFOUND), although [__json_struct_size] has
    returned 0; the names are unchanged, and so is the buffer [iskey] does
    not select. *)
Theorem alloc_unpack_returns_run_error
    (pack_iter : list Z -> Z -> list Z -> WT_CONFIG_ITEM -> Z -> pack_run)
    (realloc : Z -> Z -> Z * Z * (Z -> Z))
    (buffer : list Z) (size : Z) (fmt : list Z) (json json' : WT_CURSOR_JSON)
    (iskey needed ret : Z) :
  (forall bytes p, fst (fst (realloc bytes p)) = 0) ->
  __wt_json_alloc_unpack pack_iter realloc buffer size fmt json iskey needed
    = Returned (ret, json') ->
  let names := if negb (iskey =? 0) then key_names json else value_names json in
  ret = run_error (pack_iter buffer size fmt names iskey) /\
  key_names json' = key_names json /\
  value_names json' = value_names json /\
  (iskey = 0 -> key_buf json' = key_buf json) /\
  (iskey <> 0 -> value_buf json' = value_buf json).
Proof.
  intros Halloc. unfold __wt_json_alloc_unpack. cbv zeta.
  set (names := if negb (iskey =? 0) then key_names json else value_names json).
  destruct (__json_struct_size pack_iter buffer size fmt names iskey needed)
    as [[sret n]| |] eqn:Esize; [|discriminate|discriminate].
  apply struct_size_returns_0 in Esize. cbn [fst] in Esize. subst sret.
  cbn [bind Z.eqb negb].
  set (jb := if negb (iskey =? 0) then key_buf json else value_buf json).
  specialize (Halloc (size_t (n + 1)) jb).
  destruct (realloc (size_t (n + 1)) jb) as [[rret p] mem].
  cbn [fst] in Halloc. subst rret. cbn [Z.eqb negb].
  destruct (__json_struct_unpackv pack_iter buffer size fmt names mem p
              (size_t (n + 1)) iskey) as [[[uret va] w]| |] eqn:Eunpack;
    [|discriminate|discriminate].
  apply struct_unpackv_returns in Eunpack. cbn [fst] in Eunpack.
  cbn [bind].
  destruct (Z.eqb_spec uret 0) as [E0|E0]; cbn [negb];
    intros H; injection H as <- <-; (split; [congruence|]);
    destruct (Z.eqb_spec iskey 0); cbn [negb];
    cbn [key_names value_names key_buf value_buf]; repeat split;
    intros; try reflexivity; contradiction.
Qed.

Lemma alloc_unpack_returns_run_error_witness :
  ENOMEM = run_error (truncated_iter [0x81; 0xc0] 2 [chr "i"; chr "i"]
                        (key_names json0) 1) /\
  key_names json0 = key_names json0 /\
  value_names json0 = value_names json0 /\
  (1 = 0 -> 4096 = key_buf json0) /\
  (1 <> 0 -> value_buf json0 = value_buf json0).
Proof.
  apply (alloc_unpack_returns_run_error truncated_iter realloc_ok
           [0x81; 0xc0] 2 [chr "i"; chr "i"] json0
           {| key_buf := 4096; value_buf := 0;
              key_names := key_names json0;
              value_names := value_names json0 |} 1 100 ENOMEM).
  - intros bytes p. reflexivity.
  - vm_compute. reflexivity.
Defined.

Lemma escape_determines_char_witness : u_char 65 = u_char 321.
Proof.
  apply (escape_determines_char 65 321 0 100 6 6 1 1).
  - lia.
  - lia.
  - vm_compute. reflexivity.
Defined.

Lemma unpack_put_writes_field_witness :
  snd (__json_unpack_put (pv_int 1) 4096 11 key0) = text_len key0_int1 /\
  forall m i, (i < List.length key0_int1)%nat ->
    poke m (fst (__json_unpack_put (pv_int 1) 4096 11 key0))
      (4096 + Z.of_nat i)
    = List.nth i key0_int1 0.
Proof.
  apply (unpack_put_writes_field (pv_int 1) 4096 11 key0 key0_int1).
  - vm_compute. reflexivity.
  - vm_compute. reflexivity.
  - vm_compute. discriminate.
Defined.

(** X8: for the padding type 'x' [__json_unpack_put] returns 0, yet the name
    prefix has been stored into the buffer when the buffer is not empty. *)
Theorem unpack_put_padding
    (pv : WT_PACK_VALUE) (buf bufsz : Z) (name : WT_CONFIG_ITEM) :
  pv_type pv = chr "x" ->
  snd (__json_unpack_put pv buf bufsz name) = 0 /\
  fst (__json_unpack_put pv buf bufsz name)
    = fst (snprintf buf bufsz (fmt_name name)) /\
  (0 < bufsz -> fst (__json_unpack_put pv buf bufsz name) <> []).
Proof.
  intros Hx. unfold __json_unpack_put.
  destruct (snprintf buf bufsz (fmt_name name)) as [w s] eqn:Es.
  destruct (if s <=? bufsz then (buf + s, bufsz - s) else (buf, 0))
    as [buf1 bufsz1].
  rewrite Hx, Z.eqb_refl. cbn [fst snd].
  split; [reflexivity|]. split; [reflexivity|].
  intros Hpos. unfold snprintf in Es. injection Es as <- _.
  destruct (Z.leb_spec bufsz 0); [lia|].
  intros E. apply List.app_eq_nil in E as [_ E]. discriminate E.
Qed.

Lemma unpack_put_padding_witness :
  snd (__json_unpack_put pv_pad 4096 13 key0) = 0 /\
  fst (__json_unpack_put pv_pad 4096 13 key0)
    = fst (snprintf 4096 13 (fmt_name key0)) /\
  (0 < 13 -> fst (__json_unpack_put pv_pad 4096 13 key0) <> []).
Proof.
  apply (unpack_put_padding pv_pad 4096 13 key0). reflexivity.
Defined.

(** *** The whole entry *)

Lemma lays_zero_tail m w buf text hi :
  lays w buf text ->
  (forall a, buf <= a < hi -> m a = ch_NUL) ->
  forall a, buf + text_len text <= a < hi -> poke m w a = ch_NUL.
Proof.
  intros (Hw & _ & Hz) Hm a Ha. unfold text_len in *.
  destruct (Z.eq_dec a (buf + Z.of_nat (List.length text))) as [->|Hne].
  - apply Hz. apply Hm. lia.
  - rewrite poke_outside; [apply Hm; lia|].
    eapply Forall_impl; [|exact Hw]. intros st Hst. simpl in Hst. lia.
Qed.

Lemma first_NUL_here mem a n :
  (0 < n)%nat -> mem a = ch_NUL -> first_NUL mem a n = Some a.
Proof.
  destruct n; [lia|]. intros _ H. simpl. rewrite H. reflexivity.
Qed.

(** The separator, when [jbuf] points to a NUL with room for three
    characters. *)
Lemma separator_lays mem hi w jbuf jbufsize :
  3 <= jbufsize <= SIZE_MAX -> hi = jbuf + jbufsize ->
  poke mem w jbuf = ch_NUL ->
  exists w1,
    separator mem hi true w jbuf jbufsize
      = Returned (w ++ w1, jbuf + 2, jbufsize - 2) /\
    lays w1 jbuf [ch_comma; ch_nl].
Proof.
  intros Hj Hhi Hz. unfold separator, WT_ASSERT.
  replace (3 <=? jbufsize) with true by (symmetry; apply Z.leb_le; lia).
  cbn [bind]. unfold strncat.
  rewrite first_NUL_here; [|lia|assumption].
  assert (Ht : List.firstn (Z.to_nat jbufsize) (c_str [ch_comma; ch_nl])
               = [ch_comma; ch_nl]).
  { destruct (Z.to_nat jbufsize) as [|[|n]] eqn:E;
      [lia|lia|destruct n; reflexivity]. }
  rewrite Ht. cbn [List.app].
  change (text_len [ch_comma; ch_nl; ch_NUL]) with 3.
  replace (jbuf + 3 <=? hi) with true by (symmetry; apply Z.leb_le; lia).
  cbn [bind]. rewrite size_t_small by lia.
  exists (seq_stores jbuf [ch_comma; ch_nl; ch_NUL]). split; [reflexivity|].
  change (seq_stores jbuf [ch_comma; ch_nl; ch_NUL])
    with (seq_stores jbuf [ch_comma; ch_nl]
          ++ [(jbuf + text_len [ch_comma; ch_nl], ch_NUL)]).
  apply lays_terminated, lays_seq.
Qed.

(** The loop of [__json_struct_unpackv] over fields that all have a text,
    in a block of exactly the size of the text and its terminator whose
    bytes from [jbuf] on are NUL: the text is laid at [jbuf] and one byte is
    left. *)
Lemma unpackv_loop_lays mem hi fs :
  forall needcr w jbuf jbufsize rt,
    rest_text needcr fs = Some rt ->
    jbufsize = text_len rt + 1 -> jbufsize <= SIZE_MAX ->
    hi = jbuf + jbufsize ->
    (forall a, jbuf <= a < hi -> poke mem w a = ch_NUL) ->
    exists w' needcr',
      struct_unpackv_loop mem hi fs needcr w jbuf jbufsize
        = Returned (w ++ w', jbuf + text_len rt, 1, needcr') /\
      lays w' jbuf rt.
Proof.
  induction fs as [|[pv name] rest IH];
    intros needcr w jbuf jbufsize rt Hrt Hj Hmax Hhi Hzero.
  - cbn [rest_text] in Hrt. apply some_eq in Hrt. subst rt.
    exists [], needcr. cbn [struct_unpackv_loop].
    change (text_len []) with 0 in *.
    rewrite List.app_nil_r, Z.add_0_r. subst jbufsize.
    split; [reflexivity|apply lays_nil].
  - cbn [rest_text] in Hrt.
    destruct (json_field pv name) as [t|] eqn:Ef; [|discriminate].
    destruct (rest_text true rest) as [ts|] eqn:Ets; [|discriminate].
    apply some_eq in Hrt.
    set (sep := if needcr then [ch_comma; ch_nl] else []) in *.
    assert (Hlen : text_len rt = text_len sep + text_len t + text_len ts).
    { subst rt. unfold text_len. rewrite !List.length_app. lia. }
    assert (Ht0 : 0 <= text_len t) by (unfold text_len; lia).
    assert (Hts0 : 0 <= text_len ts) by (unfold text_len; lia).
    assert (Hsep :
      exists w1,
        separator mem hi needcr w jbuf jbufsize
          = Returned (w ++ w1, jbuf + text_len sep, jbufsize - text_len sep) /\
        lays w1 jbuf sep).
    { subst sep. destruct needcr.
      - change (text_len [ch_comma; ch_nl]) with 2 in *.
        apply separator_lays; [lia|assumption|]. apply Hzero. lia.
      - exists []. change (text_len []) with 0.
        rewrite List.app_nil_r, Z.add_0_r, Z.sub_0_r.
        split; [reflexivity|apply lays_nil]. }
    destruct Hsep as (w1 & Esep & Hl1).
    assert (Hsep0 : 0 <= text_len sep) by (unfold text_len; lia).
    cbn [struct_unpackv_loop]. rewrite Esep. cbn [bind].
    destruct (unpack_put_lays pv (jbuf + text_len sep)
                (jbufsize - text_len sep) name t Ef ltac:(lia) ltac:(lia))
      as [Hs Hlp].
    destruct (__json_unpack_put pv (jbuf + text_len sep)
                (jbufsize - text_len sep) name) as [wp jsize].
    cbn [fst snd] in Hs, Hlp. subst jsize.
    unfold WT_ASSERT.
    replace (text_len t <=? jbufsize - text_len sep) with true
      by (symmetry; apply Z.leb_le; lia).
    cbn [bind]. rewrite size_t_small by lia.
    pose proof (lays_app w1 wp jbuf sep t Hl1 Hlp) as Hl.
    destruct (IH true ((w ++ w1) ++ wp) (jbuf + text_len sep + text_len t)
                (jbufsize - text_len sep - text_len t) ts Ets)
      as (w' & needcr' & Eloop & Hl'); try lia.
    { intros a Ha. rewrite <- List.app_assoc, poke_app.
      apply (lays_zero_tail (poke mem w) (w1 ++ wp) jbuf (sep ++ t) hi Hl).
      - intros a' Ha'. apply Hzero. exact Ha'.
      - unfold text_len in *. rewrite List.length_app. lia. }
    exists ((w1 ++ wp) ++ w'), needcr'. split.
    + rewrite Eloop. rewrite <- !List.app_assoc.
      f_equal. f_equal. f_equal. f_equal. lia.
    + subst rt. rewrite List.app_assoc. apply lays_app; [exact Hl|].
      replace (jbuf + text_len (sep ++ t))
        with (jbuf + text_len sep + text_len t)
        by (unfold text_len; rewrite List.length_app; lia).
      exact Hl'.
Qed.

(** The sizes [__json_struct_size] adds up are the lengths of the texts. *)
Lemma remaining_text fs :
  forall needcr rt,
    rest_text needcr fs = Some rt -> text_len rt < SIZE_MAX ->
    remaining needcr fs = text_len rt.
Proof.
  induction fs as [|[pv name] rest IH]; intros needcr rt Hrt Hmax.
  - cbn [rest_text] in Hrt. apply some_eq in Hrt. subst rt. reflexivity.
  - rewrite remaining_cons. cbn [rest_text] in Hrt.
    destruct (json_field pv name) as [t|] eqn:Ef; [|discriminate].
    destruct (rest_text true rest) as [ts|] eqn:Ets; [|discriminate].
    apply some_eq in Hrt. subst rt.
    set (sep := if needcr then [ch_comma; ch_nl] else []) in *.
    assert (Hlen : text_len (sep ++ t ++ ts)
                   = text_len sep + text_len t + text_len ts).
    { unfold text_len. rewrite !List.length_app. lia. }
    rewrite Hlen in *.
    assert (Ht0 : 0 <= text_len t) by (unfold text_len; lia).
    assert (Hts0 : 0 <= text_len ts) by (unfold text_len; lia).
    assert (Hsep0 : 0 <= text_len sep) by (unfold text_len; lia).
    rewrite (IH true ts Ets) by lia.
    rewrite <- (unpack_put_size pv 0 SIZE_MAX name).
    destruct (unpack_put_lays pv 0 SIZE_MAX name t Ef ltac:(lia) ltac:(lia))
      as [-> _].
    subst sep. destruct needcr; unfold text_len; cbn [List.length]; lia.
Qed.

Lemma json_total_text fs text :
  json_text fs = Some text -> text_len text < SIZE_MAX ->
  json_total fs = text_len text.
Proof.
  intros Ht Hmax. rewrite <- (remaining_text fs false text Ht Hmax).
  unfold remaining. destruct fs; [|lia].
  reflexivity.
Qed.

(** X6: when the pack iterator reports no error before the end of the format,
    [p] has not passed [end], every field has a JSON text (no padding byte,
    no unknown type), the text with its terminator fits a [size_t], and the
    allocator returns a cleared block, [__wt_json_alloc_unpack] returns: no
    assertion fails, no store leaves the block, and the block holds the texts
    of the fields, a comma and a newline between them, and a NUL. *)
Theorem alloc_unpack_writes_text
    (pack_iter : list Z -> Z -> list Z -> WT_CONFIG_ITEM -> Z -> pack_run)
    (realloc : Z -> Z -> Z * Z * (Z -> Z))
    (buffer : list Z) (size : Z) (fmt : list Z) (json : WT_CURSOR_JSON)
    (iskey needed : Z) (text : list Z) (p : Z) (mem : Z -> Z) :
  let names := if negb (iskey =? 0) then key_names json else value_names json in
  let json_buf := if negb (iskey =? 0) then key_buf json else value_buf json in
  let run := pack_iter buffer size fmt names iskey in
  init_ret run = 0 ->
  (exists r, stop run = pack_next_ret r) ->
  p_end run <= size ->
  json_text (fields run) = Some text ->
  text_len text < SIZE_MAX ->
  realloc (text_len text + 1) json_buf = (0, p, mem) ->
  (forall a, p <= a <= p + text_len text -> mem a = ch_NUL) ->
  exists w json',
    __json_struct_unpackv pack_iter buffer size fmt names mem p
      (text_len text + 1) iskey = Returned (run_error run, p, w) /\
    __wt_json_alloc_unpack pack_iter realloc buffer size fmt json iskey needed
      = Returned (run_error run, json') /\
    (if negb (iskey =? 0) then key_buf json' else value_buf json') = p /\
    within p (p + text_len text + 1) w /\
    (forall i, (i < List.length text)%nat ->
       poke mem w (p + Z.of_nat i) = List.nth i text 0) /\
    poke mem w (p + text_len text) = ch_NUL.
Proof.
  intros names json_buf run Hinit [r Hstop] Hp Htext Hmax Halloc Hclear.
  assert (Ht0 : 0 <= text_len text) by (unfold text_len; lia).
  pose proof (json_total_text (fields run) text Htext Hmax) as Htot.
  destruct (unpackv_loop_lays mem (p + (text_len text + 1)) (fields run)
              false [] p (text_len text + 1) text Htext eq_refl
              ltac:(lia) eq_refl) as (w & needcr' & Eloop & Hlays).
  { intros a Ha. apply Hclear. lia. }
  cbn [List.app] in Eloop.
  assert (Hpe : (p_end run <=? size) = true) by (apply Z.leb_le; assumption).
  assert (Eunpack :
    __json_struct_unpackv pack_iter buffer size fmt names mem p
      (text_len text + 1) iskey = Returned (run_error run, p, w)).
  { unfold __json_struct_unpackv, run_error. fold run.
    rewrite Hinit, Hstop. cbn [Z.eqb negb]. rewrite Eloop. cbn [bind].
    unfold WT_ASSERT. rewrite Hpe. cbn [bind Z.eqb]. reflexivity. }
  pose proof (struct_size_total pack_iter buffer size fmt names iskey needed
                Hinit (ex_intro _ r Hstop) Hp ltac:(fold run; lia)) as Esize.
  fold run in Esize. rewrite Htot in Esize.
  set (json' :=
    if negb (iskey =? 0)
    then {| key_buf := p; value_buf := value_buf json;
            key_names := key_names json; value_names := value_names json |}
    else {| key_buf := key_buf json; value_buf := p;
            key_names := key_names json; value_names := value_names json |}).
  exists w, json'. split; [exact Eunpack|]. split; [|split; [|split; [|split]]].
  - unfold __wt_json_alloc_unpack. fold names json_buf. rewrite Esize.
    cbn [bind Z.eqb negb]. rewrite size_t_small by lia.
    rewrite Halloc. cbn [Z.eqb negb]. rewrite Eunpack. cbn [bind].
    fold json'. destruct (negb (run_error run =? 0)) eqn:E; [reflexivity|].
    apply negb_false_iff, Z.eqb_eq in E. rewrite E. reflexivity.
  - subst json'. destruct (negb (iskey =? 0)); reflexivity.
  - destruct Hlays as (Hw & _ & _). exact Hw.
  - intros i Hi. apply lays_read; assumption.
  - destruct Hlays as (_ & _ & Hz). apply Hz. apply Hclear.
    unfold text_len. lia.
Qed.

Lemma alloc_unpack_writes_text_witness :
  exists w json',
    __json_struct_unpackv two_ints_iter [0x81; 0x85] 2 [chr "i"; chr "i"]
      (key_names json0) (fun _ => 0) 4096 (text_len two_ints_text + 1) 1
      = Returned (run_error two_ints_run, 4096, w) /\
    __wt_json_alloc_unpack two_ints_iter realloc_ok [0x81; 0x85] 2
      [chr "i"; chr "i"] json0 1 0
      = Returned (run_error two_ints_run, json') /\
    key_buf json' = 4096 /\
    within 4096 (4096 + text_len two_ints_text + 1) w /\
    (forall i, (i < List.length two_ints_text)%nat ->
       poke (fun _ => 0) w (4096 + Z.of_nat i) = List.nth i two_ints_text 0) /\
    poke (fun _ => 0) w (4096 + text_len two_ints_text) = ch_NUL.
Proof.
  apply (alloc_unpack_writes_text two_ints_iter realloc_ok [0x81; 0x85] 2
           [chr "i"; chr "i"] json0 1 0 two_ints_text 4096 (fun _ => 0)).
  - reflexivity.
  - exists WT_NOTFOUND. reflexivity.
  - vm_compute. discriminate.
  - vm_compute. reflexivity.
  - vm_compute. reflexivity.
  - reflexivity.
  - intros a _. reflexivity.
Defined.

(** *** A padding byte at the start of an entry *)

Lemma c_str_no_NUL l : Forall (fun c => c <> ch_NUL) (c_str l).
Proof.
  induction l as [|c l IH]; [apply Forall_nil|]. cbn [c_str].
  destruct (Z.eqb_spec c ch_NUL); [apply Forall_nil|].
  apply Forall_cons; assumption.
Qed.

Lemma fmt_name_no_NUL name : Forall (fun c => c <> ch_NUL) (fmt_name name).
Proof.
  unfold fmt_name. apply Forall_cons; [discriminate|].
  apply Forall_app. split.
  - destruct (to_int (len name) <? 0); apply c_str_no_NUL.
  - repeat (apply Forall_cons; [discriminate|]). apply Forall_nil.
Qed.

Lemma first_NUL_found mem k :
  forall a n,
    (k < n)%nat ->
    (forall i, (i < k)%nat -> mem (a + Z.of_nat i) <> ch_NUL) ->
    mem (a + Z.of_nat k) = ch_NUL ->
    first_NUL mem a n = Some (a + Z.of_nat k).
Proof.
  induction k as [|k IH]; intros a n Hk Hnz Hz.
  - rewrite Z.add_0_r in *. apply first_NUL_here; [lia|assumption].
  - destruct n as [|n]; [lia|]. cbn [first_NUL].
    specialize (Hnz 0%nat ltac:(lia)) as H0. rewrite Z.add_0_r in H0.
    destruct (Z.eqb_spec (mem a) ch_NUL); [contradiction|].
    rewrite (IH (a + 1) n); [f_equal; lia|lia| |].
    + intros i Hi. replace (a + 1 + Z.of_nat i) with (a + Z.of_nat (S i)) by lia.
      apply Hnz. lia.
    + replace (a + 1 + Z.of_nat k) with (a + Z.of_nat (S k)) by lia. exact Hz.
Qed.

(** What [snprintf] leaves in a buffer that is not empty: the characters
    that fit, and a NUL. *)
Lemma snprintf_memory m buf bufsz text :
  0 < bufsz ->
  let k := Z.min (text_len text) (bufsz - 1) in
  (forall i, (i < Z.to_nat k)%nat ->
     poke m (fst (snprintf buf bufsz text)) (buf + Z.of_nat i)
     = List.nth i text 0) /\
  poke m (fst (snprintf buf bufsz text)) (buf + k) = ch_NUL.
Proof.
  intros Hpos k. unfold snprintf. cbn [fst]. fold (text_len text). fold k.
  destruct (Z.leb_spec bufsz 0); [lia|].
  assert (Hk : 0 <= k <= text_len text) by (unfold k, text_len; lia).
  set (shown := List.firstn (Z.to_nat k) text).
  assert (Hlen : text_len shown = k).
  { unfold shown, text_len in *. rewrite List.length_firstn. lia. }
  assert (Hl : lays (List.combine (addresses buf k) shown
                     ++ [(buf + k, ch_NUL)]) buf shown).
  { rewrite <- Hlen. apply lays_terminated. apply lays_seq. }
  split.
  - intros i Hi.
    rewrite (lays_read _ buf shown m i Hl)
      by (unfold text_len in Hlen; lia).
    unfold shown. rewrite List.nth_firstn.
    destruct (Nat.ltb_spec i (Z.to_nat k)); [reflexivity|lia].
  - rewrite poke_app. simpl. rewrite Z.eqb_refl. reflexivity.
Qed.

Lemma padding_put pv buf bufsz name :
  pv_type pv = chr "x" ->
  __json_unpack_put pv buf bufsz name
    = (fst (snprintf buf bufsz (fmt_name name)), 0).
Proof.
  intros Hx. unfold __json_unpack_put.
  destruct (snprintf buf bufsz (fmt_name name)) as [w s].
  destruct (if s <=? bufsz then (buf + s, bufsz - s) else (buf, 0)).
  rewrite Hx, Z.eqb_refl. reflexivity.
Qed.

(** After a padding field that is the first of an entry, in a buffer that
    cannot hold the name prefix and three more characters, the separator is
    stored past the end of the buffer. *)
Lemma padding_overrun_loop mem hi pv name f2 rest jbuf jbufsize :
  pv_type pv = chr "x" -> hi = jbuf + jbufsize ->
  3 <= jbufsize <= SIZE_MAX ->
  jbufsize < text_len (fmt_name name) + 3 ->
  struct_unpackv_loop mem hi ((pv, name) :: f2 :: rest) false [] jbuf jbufsize
    = OutOfBounds.
Proof.
  intros Hx Hhi Hj Hshort. destruct f2 as [pv2 name2].
  cbn [struct_unpackv_loop]. unfold separator at 1. cbn [bind].
  rewrite (padding_put pv jbuf jbufsize name Hx).
  unfold WT_ASSERT at 1.
  replace (0 <=? jbufsize) with true by (symmetry; apply Z.leb_le; lia).
  cbn [bind List.app]. rewrite Z.add_0_r, Z.sub_0_r, size_t_small by lia.
  unfold separator, WT_ASSERT.
  replace (3 <=? jbufsize) with true by (symmetry; apply Z.leb_le; lia).
  cbn [bind]. unfold strncat.
  destruct (snprintf_memory mem jbuf jbufsize (fmt_name name) ltac:(lia))
    as [Hchars Hnul].
  set (k := Z.min (text_len (fmt_name name)) (jbufsize - 1)) in *.
  assert (Hk : jbufsize - 2 <= k <= jbufsize - 1) by (unfold k; lia).
  rewrite (first_NUL_found _ (Z.to_nat k)).
  - assert (Ht : List.firstn (Z.to_nat jbufsize) (c_str [ch_comma; ch_nl])
                 = [ch_comma; ch_nl]).
    { destruct (Z.to_nat jbufsize) as [|[|n]] eqn:E;
        [lia|lia|destruct n; reflexivity]. }
    rewrite Ht. cbn [List.app].
    change (text_len [ch_comma; ch_nl; ch_NUL]) with 3.
    destruct (Z.leb_spec (jbuf + Z.of_nat (Z.to_nat k) + 3) hi); [lia|].
    reflexivity.
  - lia.
  - intros i Hi. rewrite Hchars by assumption.
    pose proof (fmt_name_no_NUL name) as Hnn.
    rewrite Forall_forall in Hnn. apply Hnn. apply List.nth_In.
    unfold k, text_len in *. lia.
  - rewrite Z2Nat.id by lia. exact Hnul.
Qed.

(** X16: an entry that starts with a padding byte and whose other fields
    take less room than the name prefix of the padding: the sizing pass
    counts nothing for the padding, the writing pass stores its name prefix
    all the same, and the separator that [strncat] appends after this prefix
    falls outside the allocated block. *)
Theorem alloc_unpack_padding_overrun
    (pack_iter : list Z -> Z -> list Z -> WT_CONFIG_ITEM -> Z -> pack_run)
    (realloc : Z -> Z -> Z * Z * (Z -> Z))
    (buffer : list Z) (size : Z) (fmt : list Z) (json : WT_CURSOR_JSON)
    (iskey needed : Z) (pv : WT_PACK_VALUE) (name : WT_CONFIG_ITEM)
    (rest : list (WT_PACK_VALUE * WT_CONFIG_ITEM)) :
  let names := if negb (iskey =? 0) then key_names json else value_names json in
  let run := pack_iter buffer size fmt names iskey in
  init_ret run = 0 ->
  (exists r, stop run = pack_next_ret r) ->
  p_end run <= size ->
  fields run = (pv, name) :: rest -> rest <> [] ->
  pv_type pv = chr "x" ->
  json_total rest < text_len (fmt_name name) ->
  json_total rest + 3 <= SIZE_MAX ->
  (forall bytes q, fst (fst (realloc bytes q)) = 0) ->
  __wt_json_alloc_unpack pack_iter realloc buffer size fmt json iskey needed
    = OutOfBounds.
Proof.
  intros names run Hinit Hstop Hp Hfields Hrest Hx Hshort Hmax Halloc.
  pose proof (json_total_nonneg rest) as Hnn.
  assert (Htot : json_total (fields run) = json_total rest + 2).
  { rewrite Hfields. destruct rest as [|f2 rest']; [contradiction|].
    change (json_total ((pv, name) :: f2 :: rest'))
      with (snd (__json_unpack_put pv 0 0 name)
            + (2 + json_total (f2 :: rest'))).
    rewrite (padding_put pv 0 0 name Hx). cbn [snd]. lia. }
  pose proof (struct_size_total pack_iter buffer size fmt names iskey needed
                Hinit Hstop Hp ltac:(fold run; lia)) as Esize.
  fold run in Esize. rewrite Htot in Esize.
  unfold __wt_json_alloc_unpack. fold names. rewrite Esize.
  cbn [bind Z.eqb negb]. rewrite size_t_small by lia.
  set (jb := if negb (iskey =? 0) then key_buf json else value_buf json).
  specialize (Halloc (json_total rest + 2 + 1) jb).
  destruct (realloc (json_total rest + 2 + 1) jb) as [[rret p] mem].
  cbn [fst] in Halloc. subst rret. cbn [Z.eqb negb].
  unfold __json_struct_unpackv. fold run. rewrite Hinit, Hfields.
  cbn [Z.eqb negb].
  destruct rest as [|f2 rest']; [contradiction|].
  rewrite (padding_overrun_loop mem _ pv name f2 rest' p
             (json_total (f2 :: rest') + 2 + 1) Hx eq_refl);
    [reflexivity|lia|lia].
Qed.

Lemma alloc_unpack_padding_overrun_witness :
  __wt_json_alloc_unpack two_pads_iter realloc_ok [0x00; 0x00] 2
    [chr "x"; chr "x"] json0 1 0 = OutOfBounds.
Proof.
  apply (alloc_unpack_padding_overrun two_pads_iter realloc_ok [0x00; 0x00] 2
           [chr "x"; chr "x"] json0 1 0 pv_pad key0 [(pv_pad, key1)]).
  - reflexivity.
  - exists WT_NOTFOUND. reflexivity.
  - vm_compute. discriminate.
  - reflexivity.
  - discriminate.
  - reflexivity.
  - vm_compute. reflexivity.
  - vm_compute. discriminate.
  - intros bytes q. reflexivity.
Defined.

End JsonBuffer.

(** ** [src/mongo/db/catalog/index_key_validate.cpp]: validateIndexSpec *)

Module IndexSpec.
Import IndexKeyValidate.
Local Open Scope string_scope.
Local Open Scope Z_scope.

(** The types of element other than the numbers, the string and the
    object. *)
Inductive OtherType :=
| MinKey | Array | BinData | Undefined | jstOID | Bool | Date | jstNULL
| RegEx | DBRef | Code | Symbol | CodeWScope | bsonTimestamp | MaxKey.

(** The types of number. *)
Inductive NumberType := NumberDouble | NumberInt | NumberLong | NumberDecimal.

(** The value of an element of an index specification, by what the validator
    reads of it: the elements of an Object, the characters of a String, the
    type of a number and the [int] that [numberInt] converts it to, the type
    of anything else. *)
Inductive SpecValue :=
| SObject (obj : BSONObj)
| SString (s : string)
| SNumber (type : NumberType) (numberInt : Z)
| SOther (type : OtherType).

(** [BSONType], as the sum of the cases of [SpecValue]. *)
Inductive BSONType :=
| Object
| StringType
| Number (t : NumberType)
| Other (t : OtherType).

(** [BSONElement::type]. *)
Definition type (v : SpecValue) : BSONType :=
  match v with
  | SObject _ => Object
  | SString _ => StringType
  | SNumber t _ => Number t
  | SOther t => Other t
  end.

Record SpecElement := {
  specFieldName : string;
  specValue : SpecValue
}.

Definition IndexSpecObj := list SpecElement.

(** [StatusWith<BSONObj>]. *)
Inductive StatusWith :=
| SWError (code : ErrorCodes) (reason : string)
| SWValue (obj : IndexSpecObj).

Definition kIndexVersionV0 : Z := 0.
Definition kKeyPatternFieldName : string := "key".
Definition kNamespaceFieldName : string := "ns".
Definition kVersionFieldName : string := "v".

(** The loop over the elements of the key pattern: the first field name
    found in [keys], the names seen so far. *)
Fixpoint find_repeated (keys : list string) (elems : BSONObj) : option string :=
  match elems with
  | [] => None
  | keyElem :: rest =>
      let keyElemFieldName := fieldName keyElem in
      if List.existsb (String.eqb keyElemFieldName) keys
      then Some keyElemFieldName
      else find_repeated (keys ++ [keyElemFieldName]) rest
  end.

Section Validate.

(** What the messages stream is text: [typeName] gives the name of a type,
    and an object streamed into a message is given by its [toString].  Both
    are defined outside the file; [toString_key] is [toString] on a key
    pattern, [toString_spec] on an index specification. *)
Variable typeName : BSONType -> string.
Variable toString_key : BSONObj -> string.
Variable toString_spec : IndexSpecObj -> string.

(** The body of the loop over the elements of the specification
    [indexSpec], for one element: a failure, or the two flags. *)
Definition check_spec_element (expectedNamespace : string)
    (indexSpec : IndexSpecObj)
    (indexSpecElem : SpecElement) (hasKeyPatternField hasNamespaceField : bool)
  : (ErrorCodes * string) + (bool * bool) :=
  let indexSpecElemFieldName := specFieldName indexSpecElem in
  if String.eqb kKeyPatternFieldName indexSpecElemFieldName then
    match specValue indexSpecElem with
    | SObject obj =>
        match find_repeated [] obj with
        | Some keyElemFieldName =>
            inl (BadValue,
                 "The field '" ++ keyElemFieldName ++
                 "' appears multiple times in the index key pattern " ++
                 toString_key obj)
        | None => inr (true, hasNamespaceField)
        end
    | _ =>
        inl (TypeMismatch,
             "The field '" ++ kKeyPatternFieldName ++
             "' must be an object, but got " ++
             typeName (type (specValue indexSpecElem)))
    end
  else if String.eqb kNamespaceFieldName indexSpecElemFieldName then
    match specValue indexSpecElem with
    | SString ns =>
        if String.eqb ns "" then
          inl (BadValue,
               "The field '" ++ kNamespaceFieldName ++
               "' cannot be an empty string")
        else if negb (String.eqb ns expectedNamespace) then
          inl (BadValue,
               "The value of the field '" ++ kNamespaceFieldName ++ "' (" ++
               ns ++ ") doesn't match the namespace '" ++ expectedNamespace ++
               "'")
        else inr (hasKeyPatternField, true)
    | _ =>
        inl (TypeMismatch,
             "The field '" ++ kNamespaceFieldName ++
             "' must be a string, but got " ++
             typeName (type (specValue indexSpecElem)))
    end
  else if String.eqb kVersionFieldName indexSpecElemFieldName then
    match specValue indexSpecElem with
    | SNumber _ numberInt =>
        if kIndexVersionV0 =? numberInt then
          inl (CannotCreateIndex,
               "Invalid index specification " ++ toString_spec indexSpec ++
               "; cannot create an index with " ++
               kVersionFieldName ++ "=" ++ "0")
        else inr (hasKeyPatternField, hasNamespaceField)
    | _ =>
        inl (TypeMismatch,
             "The field '" ++ kVersionFieldName ++
             "' must be a number, but got " ++
             typeName (type (specValue indexSpecElem)))
    end
  else inr (hasKeyPatternField, hasNamespaceField).

(** The loop over the elements [elems] of [indexSpec] still to be seen. *)
Fixpoint spec_loop (expectedNamespace : string) (indexSpec : IndexSpecObj)
    (elems : IndexSpecObj) (hasKeyPatternField hasNamespaceField : bool)
  : (ErrorCodes * string) + (bool * bool) :=
  match elems with
  | [] => inr (hasKeyPatternField, hasNamespaceField)
  | indexSpecElem :: rest =>
      match check_spec_element expectedNamespace indexSpec indexSpecElem
              hasKeyPatternField hasNamespaceField with
      | inl failure => inl failure
      | inr (hasKey, hasNs) =>
          spec_loop expectedNamespace indexSpec rest hasKey hasNs
      end
  end.

(** [validateIndexSpec]; [expectedNamespace] is [expectedNamespace.ns()]. *)
Definition validateIndexSpec (indexSpec : IndexSpecObj)
    (expectedNamespace : string) : StatusWith :=
  match spec_loop expectedNamespace indexSpec indexSpec false false with
  | inl (code, reason) => SWError code reason
  | inr (hasKeyPatternField, hasNamespaceField) =>
      if negb hasKeyPatternField then
        SWError FailedToParse
          ("The '" ++ kKeyPatternFieldName ++
           "' field is a required property of an index specification")
      else if negb hasNamespaceField then
        SWValue ({| specFieldName := kNamespaceFieldName;
                    specValue := SString expectedNamespace |} :: indexSpec)
      else SWValue indexSpec
  end.

(** *** The accepted specifications, as properties of their elements *)

Definition is_key (e : SpecElement) : bool :=
  String.eqb kKeyPatternFieldName (specFieldName e).

Definition is_ns (e : SpecElement) : bool :=
  String.eqb kNamespaceFieldName (specFieldName e).

Definition is_v (e : SpecElement) : bool :=
  String.eqb kVersionFieldName (specFieldName e).

(** The fields the validator looks at. *)
Definition recognised (e : SpecElement) : bool := is_key e || is_ns e || is_v e.

(** A "key" element is an object whose field names are pairwise distinct; a
    "ns" element is the expected namespace, not empty; a "v" element is a
    number, of any type, whose [int] value is not 0. *)
Definition element_fine (expectedNamespace : string) (e : SpecElement) : Prop :=
  (specFieldName e = "key" ->
     exists obj, specValue e = SObject obj /\
                 NoDup (List.map fieldName obj)) /\
  (specFieldName e = "ns" ->
     specValue e = SString expectedNamespace /\ expectedNamespace <> "") /\
  (specFieldName e = "v" ->
     exists t n, specValue e = SNumber t n /\ n <> 0).

Definition accepted (indexSpec : IndexSpecObj) (expectedNamespace : string)
  : Prop :=
  (forall e, In e indexSpec -> element_fine expectedNamespace e) /\
  (exists e, In e indexSpec /\ specFieldName e = "key").

(** The specification completed with the namespace when it has none. *)
Definition with_namespace (indexSpec : IndexSpecObj)
    (expectedNamespace : string) : IndexSpecObj :=
  if List.existsb is_ns indexSpec then indexSpec
  else {| specFieldName := kNamespaceFieldName;
          specValue := SString expectedNamespace |} :: indexSpec.

Definition failure_code (r : StatusWith) : option ErrorCodes :=
  match r with
  | SWError code _ => Some code
  | SWValue _ => None
  end.

(** The message of a version 0, which quotes the whole specification. *)
Definition version_message (indexSpec : IndexSpecObj) : string :=
  "Invalid index specification " ++ toString_spec indexSpec ++
  "; cannot create an index with v=0".

(** What each error code says of the specification. *)
Definition explains (indexSpec : IndexSpecObj) (expectedNamespace : string)
    (code : ErrorCodes) : Prop :=
  match code with
  | TypeMismatch =>
      exists e, In e indexSpec /\
        ((specFieldName e = "key" /\ forall obj, specValue e <> SObject obj) \/
         (specFieldName e = "ns" /\ forall s, specValue e <> SString s) \/
         (specFieldName e = "v" /\ forall t n, specValue e <> SNumber t n))
  | BadValue =>
      exists e, In e indexSpec /\
        ((specFieldName e = "key" /\
          exists obj, specValue e = SObject obj /\
                      ~ NoDup (List.map fieldName obj)) \/
         (specFieldName e = "ns" /\
          exists s, specValue e = SString s /\
                    (s = "" \/ s <> expectedNamespace)))
  | CannotCreateIndex =>
      exists e, In e indexSpec /\
        specFieldName e = "v" /\ exists t, specValue e = SNumber t 0
  | FailedToParse =>
      forall e, In e indexSpec -> specFieldName e <> "key"
  end.

(** A rendering for the examples: the types and the objects by a name
    each. *)
Definition a_type (t : BSONType) : string :=
  match t with
  | Object => "object"
  | StringType => "string"
  | Number _ => "number"
  | Other _ => "other"
  end.

Definition a_key (obj : BSONObj) : string := "{key pattern}".
Definition a_spec (indexSpec : IndexSpecObj) : string := "{index spec}".

(** An index specification without namespace, and one whose "v" is a
    string. *)
Definition spec_without_ns : IndexSpecObj :=
  [ {| specFieldName := "key";
       specValue := SObject [ {| fieldName := "a"; value := BNumberInt 1 |} ] |};
    {| specFieldName := "name"; specValue := SString "a_1" |} ].

Definition spec_with_ns : IndexSpecObj :=
  {| specFieldName := "ns"; specValue := SString "db.c" |} :: spec_without_ns.

Definition spec_bad_version : IndexSpecObj :=
  {| specFieldName := "v"; specValue := SString "1" |} :: spec_without_ns.

(** *** Properties of validateIndexSpec *)

Lemma find_repeated_none (elems : BSONObj) :
  forall keys,
    find_repeated keys elems = None <->
    NoDup (List.map fieldName elems) /\
    forall k, In k keys -> ~ In k (List.map fieldName elems).
Proof.
  induction elems as [|x rest IH]; intros keys; simpl.
  - split; [intros _; split; [apply NoDup_nil|auto]|reflexivity].
  - destruct (List.existsb (String.eqb (fieldName x)) keys) eqn:Ex.
    + split; [discriminate|]. intros [_ H].
      apply List.existsb_exists in Ex as (k & Hk & Hkx).
      apply String.eqb_eq in Hkx. subst k.
      exfalso. apply (H (fieldName x) Hk). left. reflexivity.
    + rewrite IH. split.
      * intros [Hnd Hdis]. split.
        -- apply NoDup_cons; [|assumption].
           apply (Hdis (fieldName x)). apply in_or_app. right. left. reflexivity.
        -- intros k Hk [Hx|Hin].
           ++ subst k.
              assert (Hc : List.existsb (String.eqb (fieldName x)) keys = true).
              { apply List.existsb_exists. exists (fieldName x).
                split; [assumption|apply String.eqb_refl]. }
              congruence.
           ++ apply (Hdis k); [apply in_or_app; left; assumption|assumption].
      * intros [Hnd Hdis]. inversion Hnd as [|? ? Hx Hrest]; subst. split.
        -- assumption.
        -- intros k Hk Hin. apply in_app_or in Hk as [Hk|[<-|[]]].
           ++ apply (Hdis k Hk). right. assumption.
           ++ contradiction.
Qed.

Lemma find_repeated_nodup (obj : BSONObj) :
  find_repeated [] obj = None <-> NoDup (List.map fieldName obj).
Proof.
  rewrite find_repeated_none. split; [tauto|].
  intros H. split; [assumption|]. intros k [].
Qed.

Lemma name_cases (e : SpecElement) :
  (specFieldName e = "key" /\
   is_key e = true /\ is_ns e = false /\ is_v e = false) \/
  (specFieldName e = "ns" /\
   is_key e = false /\ is_ns e = true /\ is_v e = false) \/
  (specFieldName e = "v" /\
   is_key e = false /\ is_ns e = false /\ is_v e = true) \/
  (specFieldName e <> "key" /\ specFieldName e <> "ns" /\
   specFieldName e <> "v" /\
   is_key e = false /\ is_ns e = false /\ is_v e = false).
Proof.
  unfold is_key, is_ns, is_v, kKeyPatternFieldName, kNamespaceFieldName,
    kVersionFieldName.
  destruct (String.eqb_spec "key" (specFieldName e)) as [<-|Hk]; [left; auto|].
  destruct (String.eqb_spec "ns" (specFieldName e)) as [<-|Hn];
    [right; left; auto|].
  destruct (String.eqb_spec "v" (specFieldName e)) as [<-|Hv];
    [right; right; left; auto|].
  right; right; right. repeat split; congruence.
Qed.

(** One element: either it is fine, and the loop body sets the flags of
    its name, or it is not, and the loop body fails with a code that says
    why. *)
Lemma check_spec_element_cases ns whole e :
  (element_fine ns e /\
   forall hk hn,
     check_spec_element ns whole e hk hn = inr (hk || is_key e, hn || is_ns e)) \/
  (~ element_fine ns e /\
   exists code reason,
     (forall hk hn, check_spec_element ns whole e hk hn = inl (code, reason)) /\
     explains [e] ns code /\ code <> FailedToParse).
Proof.
  unfold check_spec_element, element_fine.
  destruct (name_cases e) as [(Hname & Hk & Hn & Hv)|[(Hname & Hk & Hn & Hv)|
    [(Hname & Hk & Hn & Hv)|(Hnk & Hnn & Hnv & Hk & Hn & Hv)]]];
    rewrite Hk, Hn; unfold is_key, is_ns, is_v in *; rewrite ?Hk, ?Hn, ?Hv.
  - (* key *)
    assert (Hwrong : (forall obj, specValue e <> SObject obj) ->
      (~ ((specFieldName e = "key" ->
           exists obj, specValue e = SObject obj /\
                       NoDup (List.map fieldName obj)) /\
          (specFieldName e = "ns" -> specValue e = SString ns /\ ns <> "") /\
          (specFieldName e = "v" ->
           exists t n, specValue e = SNumber t n /\ n <> 0))) /\
      explains [e] ns TypeMismatch).
    { intros Hno. split.
      - intros (F & _). destruct (F Hname) as (obj & Hobj & _).
        apply (Hno obj). assumption.
      - exists e. split; [left; reflexivity|]. left. auto. }
    destruct (specValue e) as [obj|s|nt n|t] eqn:Ev.
    + destruct (find_repeated [] obj) as [k|] eqn:Ef.
      * right. split.
        -- intros (F & _). destruct (F Hname) as (obj' & Hobj & Hnd).
           injection Hobj as <-. apply find_repeated_nodup in Hnd. congruence.
        -- eexists _, _. split; [reflexivity|]. split; [|discriminate].
           exists e. split; [left; reflexivity|]. left. split; [assumption|].
           exists obj. split; [assumption|].
           intros Hnd. apply find_repeated_nodup in Hnd. congruence.
      * left. split.
        -- split; [|split]; intros H; try congruence.
           exists obj. split; [reflexivity|]. apply find_repeated_nodup.
           assumption.
        -- intros hk hn. rewrite orb_true_r, orb_false_r. reflexivity.
    + right. destruct Hwrong as [H1 H2]; [discriminate|].
      split; [assumption|]. eexists _, _.
      split; [reflexivity|]. split; [assumption|discriminate].
    + right. destruct Hwrong as [H1 H2]; [discriminate|].
      split; [assumption|]. eexists _, _.
      split; [reflexivity|]. split; [assumption|discriminate].
    + right. destruct Hwrong as [H1 H2]; [discriminate|].
      split; [assumption|]. eexists _, _.
      split; [reflexivity|]. split; [assumption|discriminate].
  - (* ns *)
    assert (Hwrong : (forall s, specValue e <> SString s) ->
      (~ ((specFieldName e = "key" ->
           exists obj, specValue e = SObject obj /\
                       NoDup (List.map fieldName obj)) /\
          (specFieldName e = "ns" -> specValue e = SString ns /\ ns <> "") /\
          (specFieldName e = "v" ->
           exists t n, specValue e = SNumber t n /\ n <> 0))) /\
      explains [e] ns TypeMismatch).
    { intros Hno. split.
      - intros (_ & F & _). destruct (F Hname) as (Hs & _).
        apply (Hno ns). assumption.
      - exists e. split; [left; reflexivity|]. right; left. auto. }
    destruct (specValue e) as [obj|s|nt n|t] eqn:Ev.
    + right. destruct Hwrong as [H1 H2]; [discriminate|].
      split; [assumption|]. eexists _, _.
      split; [reflexivity|]. split; [assumption|discriminate].
    + destruct (String.eqb_spec s "") as [Hs|Hs].
      * right. split.
        -- intros (_ & F & _). destruct (F Hname) as (Hsn & Hne). congruence.
        -- eexists _, _. split; [reflexivity|]. split; [|discriminate].
           exists e. split; [left; reflexivity|]. right.
           split; [assumption|]. exists s. auto.
      * destruct (String.eqb_spec s ns) as [Hsn|Hsn]; cbn [negb].
        -- left. split.
           ++ split; [|split]; intros H; try congruence. split; congruence.
           ++ intros hk hn. rewrite orb_false_r, orb_true_r. reflexivity.
        -- right. split.
           ++ intros (_ & F & _). destruct (F Hname) as (Hsn' & Hne). congruence.
           ++ eexists _, _. split; [reflexivity|]. split; [|discriminate].
              exists e. split; [left; reflexivity|]. right.
              split; [assumption|]. exists s. auto.
    + right. destruct Hwrong as [H1 H2]; [discriminate|].
      split; [assumption|]. eexists _, _.
      split; [reflexivity|]. split; [assumption|discriminate].
    + right. destruct Hwrong as [H1 H2]; [discriminate|].
      split; [assumption|]. eexists _, _.
      split; [reflexivity|]. split; [assumption|discriminate].
  - (* v *)
    assert (Hwrong : (forall t n, specValue e <> SNumber t n) ->
      (~ ((specFieldName e = "key" ->
           exists obj, specValue e = SObject obj /\
                       NoDup (List.map fieldName obj)) /\
          (specFieldName e = "ns" -> specValue e = SString ns /\ ns <> "") /\
          (specFieldName e = "v" ->
           exists t n, specValue e = SNumber t n /\ n <> 0))) /\
      explains [e] ns TypeMismatch).
    { intros Hno. split.
      - intros (_ & _ & F). destruct (F Hname) as (t & n & Hnum & _).
        apply (Hno t n). assumption.
      - exists e. split; [left; reflexivity|]. right; right. auto. }
    destruct (specValue e) as [obj|s|nt n|t] eqn:Ev.
    + right. destruct Hwrong as [H1 H2]; [discriminate|].
      split; [assumption|]. eexists _, _.
      split; [reflexivity|]. split; [assumption|discriminate].
    + right. destruct Hwrong as [H1 H2]; [discriminate|].
      split; [assumption|]. eexists _, _.
      split; [reflexivity|]. split; [assumption|discriminate].
    + unfold kIndexVersionV0. destruct (Z.eqb_spec 0 n) as [<-|Hn0].
      * right. split.
        -- intros (_ & _ & F). destruct (F Hname) as (t & n & Hnum & Hne).
           congruence.
        -- eexists _, _. split; [reflexivity|]. split; [|discriminate].
           exists e. split; [left; reflexivity|]. split; [assumption|].
           exists nt. assumption.
      * left. split.
        -- split; [|split]; intros H; try congruence.
           exists nt, n. split; [reflexivity|congruence].
        -- intros hk hn. rewrite !orb_false_r. reflexivity.
    + right. destruct Hwrong as [H1 H2]; [discriminate|].
      split; [assumption|]. eexists _, _.
      split; [reflexivity|]. split; [assumption|discriminate].
  - (* any other name *)
    left. split.
    + repeat split; intros; contradiction.
    + intros hk hn. rewrite !orb_false_r. reflexivity.
Qed.

Lemma explains_mono e rest ns code :
  code <> FailedToParse -> explains [e] ns code -> explains (e :: rest) ns code.
Proof.
  intros Hc H. destruct code; try contradiction; simpl in *;
    destruct H as (x & [<-|[]] & Hx); exists e; (split; [left; reflexivity|]);
    assumption.
Qed.

Lemma explains_tail e rest ns code :
  code <> FailedToParse -> explains rest ns code -> explains (e :: rest) ns code.
Proof.
  intros Hc H. destruct code; try contradiction; simpl in *;
    destruct H as (x & Hin & Hx); exists x; (split; [right; assumption|]);
    assumption.
Qed.

(** The loop: it passes exactly when every element is fine, and then the
    flags record the names met; otherwise it fails at the first element that
    is not fine, whatever the flags. *)
Lemma spec_loop_cases ns whole elems :
  ((forall e, In e elems -> element_fine ns e) /\
   forall hk hn,
     spec_loop ns whole elems hk hn
     = inr (hk || List.existsb is_key elems, hn || List.existsb is_ns elems)) \/
  (~ (forall e, In e elems -> element_fine ns e) /\
   exists code reason,
     (forall hk hn, spec_loop ns whole elems hk hn = inl (code, reason)) /\
     explains elems ns code /\ code <> FailedToParse).
Proof.
  induction elems as [|x rest IH].
  - left. split; [intros e []|]. intros hk hn. simpl.
    rewrite !orb_false_r. reflexivity.
  - destruct (check_spec_element_cases ns whole x) as [[Hx Hcx]|(Hx & c & r & Hcx & He & Hc)].
    + destruct IH as [[Hrest Hl]|(Hrest & c & r & Hl & He & Hc)].
      * left. split.
        -- intros e [<-|Hin]; auto.
        -- intros hk hn. cbn [spec_loop List.existsb]. rewrite Hcx, Hl.
           rewrite !orb_assoc. reflexivity.
      * right. split.
        -- intros H. apply Hrest. intros e Hin. apply H. right. assumption.
        -- exists c, r. split; [|split; [apply explains_tail|]; assumption].
           intros hk hn. cbn [spec_loop]. rewrite Hcx. apply Hl.
    + right. split.
      * intros H. apply Hx. apply H. left. reflexivity.
      * exists c, r. split; [|split; [apply explains_mono|]; assumption].
        intros hk hn. cbn [spec_loop]. rewrite Hcx. reflexivity.
Qed.

Lemma existsb_is_key elems :
  List.existsb is_key elems = true <->
  exists e, In e elems /\ specFieldName e = "key".
Proof.
  rewrite List.existsb_exists. unfold is_key, kKeyPatternFieldName.
  split; intros (e & Hin & H); exists e; (split; [assumption|]).
  - apply String.eqb_eq in H. congruence.
  - apply String.eqb_eq. congruence.
Qed.

Lemma validate_cases (indexSpec : IndexSpecObj) (ns : string) :
  (accepted indexSpec ns /\
   validateIndexSpec indexSpec ns = SWValue (with_namespace indexSpec ns)) \/
  (~ accepted indexSpec ns /\
   exists code reason,
     validateIndexSpec indexSpec ns = SWError code reason /\
     explains indexSpec ns code).
Proof.
  unfold validateIndexSpec, accepted, with_namespace.
  destruct (spec_loop_cases ns indexSpec indexSpec) as [[Hfine Hl]|(Hbad & c & r & Hl & He & Hc)].
  - rewrite Hl. cbn [orb].
    destruct (List.existsb is_key indexSpec) eqn:Hk; cbn [negb].
    + left. split; [split; [assumption|apply existsb_is_key; assumption]|].
      destruct (List.existsb is_ns indexSpec); reflexivity.
    + right. split.
      * intros [_ H]. apply existsb_is_key in H. congruence.
      * eexists _, _. split; [reflexivity|]. simpl.
        intros e Hin Hname.
        assert (List.existsb is_key indexSpec = true)
          by (apply existsb_is_key; eauto).
        congruence.
  - right. rewrite Hl. split; [tauto|]. exists c, r. auto.
Qed.

(** X9: [validateIndexSpec] succeeds exactly when every "key" element is an
    object with pairwise distinct field names, every "ns" element is the
    expected namespace and not empty, every "v" element is a number whose
    [int] value is not 0, and there is a "key" element; the result is then the
    specification itself, with the expected namespace put in front when it
    had no "ns" element. *)
Theorem validateIndexSpec_accepts
    (indexSpec out : IndexSpecObj) (ns : string) :
  validateIndexSpec indexSpec ns = SWValue out <->
  accepted indexSpec ns /\ out = with_namespace indexSpec ns.
Proof.
  destruct (validate_cases indexSpec ns) as [[Ha Hv]|(Hna & c & r & Hv & _)];
    rewrite Hv.
  - split; [intros H; injection H as <-; auto|intros [_ ->]; reflexivity].
  - split; [discriminate|tauto].
Qed.

(** X10: every failure of [validateIndexSpec] has a cause in the
    specification: TypeMismatch a "key", "ns" or "v" element of the wrong
    type, BadValue a repeated field in a key pattern or an empty or
    unexpected namespace, CannotCreateIndex a "v" element of value 0,
    FailedToParse no "key" element at all. *)
Theorem validateIndexSpec_explains
    (indexSpec : IndexSpecObj) (ns : string) (code : ErrorCodes)
    (reason : string) :
  validateIndexSpec indexSpec ns = SWError code reason ->
  explains indexSpec ns code.
Proof.
  destruct (validate_cases indexSpec ns) as [[Ha Hv]|(Hna & c & r & Hv & He)];
    rewrite Hv; [discriminate|].
  intros H. injection H as <- _. assumption.
Qed.

Lemma unrecognised_skipped ns whole x hk hn :
  recognised x = false -> check_spec_element ns whole x hk hn = inr (hk, hn).
Proof.
  unfold recognised, check_spec_element, is_key, is_ns, is_v. intros H.
  apply orb_false_elim in H as [H Hv]. apply orb_false_elim in H as [Hk Hn].
  rewrite Hk, Hn, Hv. reflexivity.
Qed.

(** One element checked as part of two specifications: the flags, the code
    and the message are the same, but for the message of a version 0. *)
Lemma check_spec_element_whole ns whole whole' e hk hn :
  match check_spec_element ns whole e hk hn with
  | inr flags => check_spec_element ns whole' e hk hn = inr flags
  | inl (code, reason) =>
      (code <> CannotCreateIndex /\
       check_spec_element ns whole' e hk hn = inl (code, reason)) \/
      (code = CannotCreateIndex /\ reason = version_message whole /\
       check_spec_element ns whole' e hk hn
         = inl (code, version_message whole'))
  end.
Proof.
  unfold check_spec_element, version_message.
  destruct (String.eqb kKeyPatternFieldName (specFieldName e)).
  { destruct (specValue e) as [obj|s|nt n|t];
      [destruct (find_repeated [] obj)| | |];
      try reflexivity; left; (split; [discriminate|reflexivity]). }
  destruct (String.eqb kNamespaceFieldName (specFieldName e)).
  { destruct (specValue e) as [obj|s|nt n|t];
      [|destruct (String.eqb s ""); [|destruct (negb (String.eqb s ns))]| |];
      try reflexivity; left; (split; [discriminate|reflexivity]). }
  destruct (String.eqb kVersionFieldName (specFieldName e)); [|reflexivity].
  destruct (specValue e) as [obj|s|nt n|t];
    [|
     |destruct (kIndexVersionV0 =? n);
        [right; repeat split; reflexivity|reflexivity]
     |];
    left; (split; [discriminate|reflexivity]).
Qed.

Lemma spec_loop_filter ns whole whole' elems :
  forall hk hn,
    match spec_loop ns whole elems hk hn with
    | inr flags =>
        spec_loop ns whole' (List.filter recognised elems) hk hn = inr flags
    | inl (code, reason) =>
        (code <> CannotCreateIndex /\
         spec_loop ns whole' (List.filter recognised elems) hk hn
           = inl (code, reason)) \/
        (code = CannotCreateIndex /\ reason = version_message whole /\
         spec_loop ns whole' (List.filter recognised elems) hk hn
           = inl (code, version_message whole'))
    end.
Proof.
  induction elems as [|x rest IH]; intros hk hn; [reflexivity|].
  cbn [List.filter spec_loop].
  destruct (recognised x) eqn:Hx.
  - cbn [spec_loop].
    pose proof (check_spec_element_whole ns whole whole' x hk hn) as Hc.
    destruct (check_spec_element ns whole x hk hn) as [[c r]|[hk' hn']].
    + destruct Hc as [[Hne ->]|(-> & -> & ->)]; [left|right]; auto.
    + rewrite Hc. apply IH.
  - rewrite (unrecognised_skipped ns whole x hk hn Hx). apply IH.
Qed.

(** X11: elements named other than "key", "ns" and "v" never change the
    verdict nor the error code; the message is the same too, except the
    message of a version 0, which quotes the whole specification and so
    changes with it. *)
Theorem validateIndexSpec_ignores_other_fields
    (indexSpec : IndexSpecObj) (ns : string) :
  failure_code (validateIndexSpec (List.filter recognised indexSpec) ns)
  = failure_code (validateIndexSpec indexSpec ns) /\
  (forall code reason,
     validateIndexSpec indexSpec ns = SWError code reason ->
     code <> CannotCreateIndex ->
     validateIndexSpec (List.filter recognised indexSpec) ns
     = SWError code reason) /\
  (forall reason,
     validateIndexSpec indexSpec ns = SWError CannotCreateIndex reason ->
     reason = version_message indexSpec /\
     validateIndexSpec (List.filter recognised indexSpec) ns
     = SWError CannotCreateIndex
         (version_message (List.filter recognised indexSpec))).
Proof.
  unfold validateIndexSpec.
  pose proof (spec_loop_filter ns indexSpec (List.filter recognised indexSpec)
                indexSpec false false) as H.
  destruct (spec_loop ns indexSpec indexSpec false false)
    as [[c r]|[hk hn]].
  - destruct H as [[Hne ->]|(-> & -> & ->)].
    + split; [reflexivity|]. split.
      * intros code reason E _. exact E.
      * intros reason E. injection E as E _. contradiction.
    + split; [reflexivity|]. split.
      * intros code reason E Hne. injection E as E _. congruence.
      * intros reason E. injection E as <-. split; reflexivity.
  - rewrite H. destruct (negb hk).
    + split; [reflexivity|]. split.
      * intros code reason E _. exact E.
      * intros reason E. discriminate E.
    + destruct (negb hn); (split; [reflexivity|]); split;
        intros; discriminate.
Qed.

Lemma existsb_is_ns_fine indexSpec ns :
  accepted indexSpec ns -> List.existsb is_ns indexSpec = true -> ns <> "".
Proof.
  intros [Hfine _] H. apply List.existsb_exists in H as (x & Hin & Hx).
  unfold is_ns, kNamespaceFieldName in Hx. apply String.eqb_eq in Hx.
  destruct (Hfine x Hin) as (_ & F & _). symmetry in Hx.
  destruct (F Hx). assumption.
Qed.

(** X12: the result of a successful validation validates again to itself
    when the expected namespace is not empty; when it is empty, the result
    is always refused, with BadValue. *)
Theorem validateIndexSpec_again
    (indexSpec out : IndexSpecObj) (ns : string) :
  validateIndexSpec indexSpec ns = SWValue out ->
  (ns <> "" -> validateIndexSpec out ns = SWValue out) /\
  (ns = "" -> exists reason, validateIndexSpec out ns = SWError BadValue reason).
Proof.
  intros H.
  destruct (validate_cases indexSpec ns) as [[Ha Hv]|(Hna & c & r & Hv & _)];
    rewrite Hv in H; [|discriminate].
  injection H as <-. unfold with_namespace.
  destruct (List.existsb is_ns indexSpec) eqn:Hns.
  - pose proof (existsb_is_ns_fine indexSpec ns Ha Hns) as Hne.
    split; [|contradiction]. intros _. rewrite Hv. unfold with_namespace.
    rewrite Hns. reflexivity.
  - split.
    + intros Hne.
      set (nsE := {| specFieldName := kNamespaceFieldName;
                     specValue := SString ns |}).
      destruct (validate_cases (nsE :: indexSpec) ns)
        as [[Ha' Hv']|(Hna' & _)].
      * rewrite Hv'. unfold with_namespace. reflexivity.
      * exfalso. apply Hna'. destruct Ha as [Hfine (k & Hk & Hkn)]. split.
        -- intros x [<-|Hin]; [|apply Hfine; assumption].
           repeat split; simpl; intros; try discriminate; assumption.
        -- exists k. split; [right; assumption|assumption].
    + intros ->. eexists. unfold validateIndexSpec. cbn. reflexivity.
Qed.

End Validate.

Lemma validateIndexSpec_again_witness :
  ("db.c" <> "" ->
   validateIndexSpec a_type a_key a_spec spec_with_ns "db.c"
   = SWValue spec_with_ns) /\
  ("db.c" = "" ->
   exists reason,
     validateIndexSpec a_type a_key a_spec spec_with_ns "db.c"
     = SWError BadValue reason).
Proof.
  apply (validateIndexSpec_again a_type a_key a_spec
           spec_without_ns spec_with_ns "db.c").
  vm_compute. reflexivity.
Defined.

Lemma validateIndexSpec_explains_witness :
  explains spec_bad_version "db.c" TypeMismatch.
Proof.
  apply (validateIndexSpec_explains a_type a_key a_spec
           spec_bad_version "db.c" TypeMismatch
           "The field 'v' must be a number, but got string").
  vm_compute. reflexivity.
Defined.

End IndexSpec.

(** ** [src/mongo/db/catalog/index_key_validate.cpp]: order and number of fields *)

Module KeyPatternOrder.
Import IndexKeyValidate.
Local Open Scope string_scope.
Local Open Scope Z_scope.

(** A text index on two fields, in both orders. *)
Definition text_then_number : BSONObj :=
  [ {| fieldName := "_fts"; value := BString "text" |};
    {| fieldName := "a"; value := BNumberInt 1 |} ].

Definition number_then_text : BSONObj :=
  [ {| fieldName := "a"; value := BNumberInt 1 |};
    {| fieldName := "_fts"; value := BString "text" |} ].

(** The accepted key patterns are the valid ones. *)
Lemma ok_iff_valid (key : BSONObj) :
  validateKeyPattern key = OK <-> valid_key_pattern key.
Proof.
  unfold validateKeyPattern, valid_key_pattern.
  destruct (Z.ltb_spec 2048 (objsize key)) as [Hbig|Hsz].
  { split; [discriminate|]. intros [H _]. lia. }
  destruct (isEmpty key) eqn:Hemp.
  { apply isEmpty_nil in Hemp. split; [discriminate|]. intros (_ & H & _). contradiction. }
  assert (Hne : key <> []).
  { intros H. apply isEmpty_nil in H. congruence. }
  set (P := findPluginName key).
  destruct (isKnownName P) eqn:HP.
  - rewrite andb_false_r. rewrite check_elements_ok. split.
    + intros Hall. split; [assumption|]. split; [assumption|].
      split.
      * exists P. split; [assumption|]. intros e Hin.
        apply value_checks_ok. apply (check_element_split CannotCreateIndex).
        apply Hall. assumption.
      * intros e Hin. specialize (Hall e Hin).
        apply check_element_split in Hall as [Hv Hp].
        apply value_checks_ok in Hv.
        apply (path_checks_ok CannotCreateIndex P); assumption.
    + intros (_ & _ & (Q & HQ & Hvals) & Hpaths) e Hin.
      assert (Hv : good_number e \/ value e = BString P).
      { destruct (findPluginName_shared Q key Hvals) as [E|[_ Hnum]].
        - fold P in E. rewrite E. auto.
        - left. auto. }
      apply check_element_split. split.
      * apply value_checks_ok. assumption.
      * apply (path_checks_ok CannotCreateIndex P); auto.
  - assert (Hlen : Nat.eqb (String.length P) 0 = false).
    { destruct P; [discriminate HP|reflexivity]. }
    rewrite Hlen. simpl. split; [discriminate|].
    intros (_ & _ & (Q & HQ & Hvals) & _).
    destruct (findPluginName_shared Q key Hvals) as [E|[E _]]; fold P in E.
    + congruence.
    + rewrite E in HP. discriminate.
Qed.

Lemma objsize_permutation (key key' : BSONObj) :
  Permutation key key' -> objsize key = objsize key'.
Proof.
  unfold objsize. intros H.
  induction H as [|x l l' H IH|x y l|l l' l'' H1 IH1 H2 IH2];
    cbn [List.fold_right] in *; lia.
Qed.

Lemma valid_permutation (key key' : BSONObj) :
  Permutation key key' -> valid_key_pattern key -> valid_key_pattern key'.
Proof.
  intros Hp (Hsz & Hne & (P & HP & Hvals) & Hpaths).
  unfold valid_key_pattern. rewrite <- (objsize_permutation key key' Hp).
  split; [assumption|]. split.
  - intros ->. apply Permutation_sym, Permutation_nil in Hp. contradiction.
  - split.
    + exists P. split; [assumption|]. intros e Hin. apply Hvals.
      apply (Permutation_in e (Permutation_sym Hp)). assumption.
    + intros e Hin. apply Hpaths.
      apply (Permutation_in e (Permutation_sym Hp)). assumption.
Qed.

(** X13: the order of the fields does not matter to [validateKeyPattern]:
    a key pattern is accepted exactly when any reordering of it is. *)
Theorem validateKeyPattern_any_order (key key' : BSONObj) :
  Permutation key key' ->
  (validateKeyPattern key = OK <-> validateKeyPattern key' = OK).
Proof.
  intros Hp. rewrite !ok_iff_valid. split.
  - apply valid_permutation. assumption.
  - apply valid_permutation. apply Permutation_sym. assumption.
Qed.

Lemma validateKeyPattern_any_order_witness :
  validateKeyPattern text_then_number = OK <->
  validateKeyPattern number_then_text = OK.
Proof.
  apply (validateKeyPattern_any_order text_then_number number_then_text).
  apply perm_swap.
Defined.

Lemma objsize_filter (f : BSONElement -> bool) (key : BSONObj) :
  objsize (List.filter f key) <= objsize key.
Proof.
  unfold objsize.
  induction key as [|e rest IH]; cbn [List.filter List.fold_right]; [lia|].
  pose proof (element_size_min e).
  destruct (f e); cbn [List.fold_right]; lia.
Qed.

(** X14: an accepted key pattern stays accepted when fields are dropped, as
    long as one remains. *)
Theorem validateKeyPattern_fewer_fields
    (f : BSONElement -> bool) (key : BSONObj) :
  validateKeyPattern key = OK ->
  List.filter f key <> [] ->
  validateKeyPattern (List.filter f key) = OK.
Proof.
  rewrite !ok_iff_valid.
  intros (Hsz & Hne & (P & HP & Hvals) & Hpaths) Hrest.
  pose proof (objsize_filter f key).
  split; [lia|]. split; [assumption|]. split.
  - exists P. split; [assumption|]. intros e Hin.
    apply List.filter_In in Hin as [Hin _]. auto.
  - intros e Hin. apply List.filter_In in Hin as [Hin _]. auto.
Qed.

Lemma validateKeyPattern_fewer_fields_witness :
  validateKeyPattern
    (List.filter (fun e => String.eqb (fieldName e) "a") text_then_number) = OK.
Proof.
  apply (validateKeyPattern_fewer_fields
           (fun e => String.eqb (fieldName e) "a") text_then_number).
  - vm_compute. reflexivity.
  - vm_compute. discriminate.
Defined.

End KeyPatternOrder.

(** ** [src/include/lsm.h]: tree flags *)

Module LsmFlags.
Import Bits Lsm.

(** The flag constants of [flags] in [struct __wt_lsm_tree], and those of
    its bloom creation policy [bloom]. *)
Definition tree_flag_bits : list Z :=
  [WT_LSM_TREE_ACTIVE; WT_LSM_TREE_COMPACTING; WT_LSM_TREE_NEED_SWITCH;
   WT_LSM_TREE_OPEN; WT_LSM_TREE_THROTTLE].

Definition bloom_policy_bits : list Z :=
  [WT_LSM_BLOOM_MERGED; WT_LSM_BLOOM_OFF; WT_LSM_BLOOM_OLDEST].

Lemma tree_flag_bits_single : Forall flag_bit tree_flag_bits.
Proof.
  repeat (apply Forall_cons; [apply flag_bitb_sound; reflexivity|]).
  apply Forall_nil.
Qed.

Lemma bloom_policy_bits_single : Forall flag_bit bloom_policy_bits.
Proof.
  repeat (apply Forall_cons; [apply flag_bitb_sound; reflexivity|]).
  apply Forall_nil.
Qed.

Lemma single_bits_independent (bits : list Z) :
  Forall flag_bit bits ->
  forall f x y, In x bits -> In y bits -> x <> y ->
    F_ISSET (F_SET f x) y = F_ISSET f y /\
    F_ISSET (F_CLR f x) y = F_ISSET f y.
Proof.
  intros Hb f x y Hx Hy Hne.
  apply flag_bits_independent; trivial; eapply in_flag_bit; eauto.
Qed.

(** X15: the five WT_LSM_TREE flags of a tree's [flags] word, and the three
    bits of its bloom policy, are pairwise-distinct single bits: setting or
    clearing one leaves the others, and a set bit reads back. *)
Theorem tree_flags_independent :
  NoDup tree_flag_bits /\ NoDup bloom_policy_bits /\
  (forall f x y, In x tree_flag_bits -> In y tree_flag_bits -> x <> y ->
      F_ISSET (F_SET f x) y = F_ISSET f y /\
      F_ISSET (F_CLR f x) y = F_ISSET f y) /\
  (forall f x y, In x bloom_policy_bits -> In y bloom_policy_bits -> x <> y ->
      F_ISSET (F_SET f x) y = F_ISSET f y /\
      F_ISSET (F_CLR f x) y = F_ISSET f y) /\
  (forall f x, In x tree_flag_bits \/ In x bloom_policy_bits ->
      uint32 f ->
      F_ISSET (F_SET f x) x = x /\ F_ISSET (F_CLR f x) x = 0 /\
      uint32 (F_SET f x)).
Proof.
  split.
  { unfold tree_flag_bits.
    repeat (apply NoDup_cons; [simpl; intros H; repeat destruct H as [H|H];
                               try discriminate H; try contradiction|]).
    apply NoDup_nil. }
  split.
  { unfold bloom_policy_bits.
    repeat (apply NoDup_cons; [simpl; intros H; repeat destruct H as [H|H];
                               try discriminate H; try contradiction|]).
    apply NoDup_nil. }
  split; [apply single_bits_independent, tree_flag_bits_single|].
  split; [apply single_bits_independent, bloom_policy_bits_single|].
  intros f x Hx Hf.
  assert (Hb : flag_bit x).
  { destruct Hx as [Hx|Hx].
    - apply (in_flag_bit tree_flag_bits x tree_flag_bits_single Hx).
    - apply (in_flag_bit bloom_policy_bits x bloom_policy_bits_single Hx). }
  destruct (flag_bit_set_clr f x Hb) as [Hset Hclr].
  split; [assumption|]. split; [assumption|].
  apply flag_bit_set_uint32; assumption.
Qed.

End LsmFlags.
